(** * TaxiScheduler: store, assigner, scheduler and server

    A shallow embedding of the Go sources (types.go, location.go, store.go,
    manager.go, assigner.go, scheduler.go, server.go and the two clients)
    and the properties of the specification that are settled on it.

    Conventions of the embedding
    - Go [int] is the 64-bit two's-complement integer of the usual targets
      (amd64, arm64): a [Z] kept in range by [wrap]; [+], [-], unary [-] and
      [++] are [int_add], [int_sub], [int_neg].
    - [*Taxi] is an address into the list of allocated [Taxi] objects; the
      store's [map[int]*Taxi] is a [gmap Z ptr].  Mutation through a pointer
      is an update of the object at that address.
    - [range] over a Go map visits the keys in an unspecified order: every
      function that ranges over the store takes that order as an argument,
      constrained by [range_order].
    - each embedded method is the method run on its own; a mutex delimits a
      critical section.  Two transition systems are built from the methods:
      [step] takes a whole call as one atomic step, which is the granularity
      at which the specification states its invariants, and [pstep] takes one
      critical section or channel operation of one goroutine as a step, which
      is the granularity of the program.  Log output and the passing of time
      are not modelled.
    - every [Taxi] allocated stays reachable from the store's map ([Add] is
      the only writer of the map and nothing deletes from it), so a run on a
      64-bit target allocates fewer than 2^59 of them, at 32 bytes each;
      bounds of 2^63 and 2^64 on the number of registrations, where a
      statement has one, hold of every run. *)

From stdpp Require Import base numbers option list gmap.

Open Scope Z_scope.

(** ** Go's [int] *)

Definition min_int : Z := - 2 ^ 63.
Definition max_int : Z := 2 ^ 63 - 1.

Definition wrap (z : Z) : Z := (z + 2 ^ 63) `mod` 2 ^ 64 - 2 ^ 63.

Definition int_add (x y : Z) : Z := wrap (x + y).
Definition int_sub (x y : Z) : Z := wrap (x - y).
Definition int_neg (x : Z) : Z := wrap (- x).

Definition is_int (z : Z) : Prop := min_int ≤ z ≤ max_int.

(** ** types.go *)

Record Location := mkLocation { X : Z; Y : Z }.

Inductive RideStatus := CREATED | ASSIGNED | IN_PROGRESS | FINISHED.

Record Taxi := mkTaxi {
  Taxi_ID : Z;
  Taxi_Location : Location;
  Taxi_IsAvailable : bool
}.

Record Ride := mkRide {
  Ride_ID : Z;
  Ride_ClientID : Z;
  Ride_TaxiID : Z;
  Ride_StartLocation : Location;
  Ride_EndLocation : Location;
  Ride_Status : RideStatus
}.

Record RideRequest := mkRideRequest {
  Req_ClientID : Z;
  Req_StartLocation : Location;
  Req_EndLocation : Location
}.

#[global] Instance Location_eq_dec : EqDecision Location.
Proof. solve_decision. Defined.
#[global] Instance RideStatus_eq_dec : EqDecision RideStatus.
Proof. solve_decision. Defined.
#[global] Instance Taxi_eq_dec : EqDecision Taxi.
Proof. solve_decision. Defined.
#[global] Instance Ride_eq_dec : EqDecision Ride.
Proof. solve_decision. Defined.
#[global] Instance RideRequest_eq_dec : EqDecision RideRequest.
Proof. solve_decision. Defined.

(** The zero value of [Taxi]. *)
#[global] Instance Taxi_inhabited : Inhabited Taxi :=
  populate (mkTaxi 0 (mkLocation 0 0) false).

Definition valid_loc (l : Location) : Prop := is_int (X l) ∧ is_int (Y l).

(** ** location.go *)

Definition CalculateDistance (from to : Location) : Z :=
  let xDist := int_sub (X from) (X to) in
  let yDist := int_sub (Y from) (Y to) in
  let xDist := if xDist <? 0 then int_neg xDist else xDist in
  let yDist := if yDist <? 0 then int_neg yDist else yDist in
  int_add xDist yDist.

(** The Manhattan metric over the integers, |x1 - x2| + |y1 - y2|. *)
Definition manhattan (a b : Location) : Z :=
  Z.abs (X a - X b) + Z.abs (Y a - Y b).

(** ** store.go *)

Abbreviation ptr := nat.

Record TaxiStore := mkTaxiStore {
  heap : list Taxi;       (* the Taxi objects allocated so far *)
  taxis : gmap Z ptr;     (* map[int]*Taxi *)
  nextID : Z
}.

Definition NewTaxiStore : TaxiStore :=
  {| heap := []; taxis := ∅; nextID := 1 |}.

Definition Add (location : Location) (ts : TaxiStore) : Z * TaxiStore :=
  let id := nextID ts in
  (id, {| heap := heap ts ++ [mkTaxi id location true];
          taxis := <[id := length (heap ts)]> (taxis ts);
          nextID := int_add (nextID ts) 1 |}).

Definition Get (id : Z) (ts : TaxiStore) : option ptr := taxis ts !! id.

(** The orders in which [range ts.taxis] may visit the keys. *)
Definition range_order (ts : TaxiStore) (order : list Z) : Prop :=
  order ≡ₚ (map_to_list (taxis ts)).*1.

#[global] Instance range_order_dec ts order : Decision (range_order ts order).
Proof. unfold range_order. apply _. Defined.

Definition GetAllAvailable (order : list Z) (ts : TaxiStore) : list ptr :=
  foldl (λ available id,
           match taxis ts !! id with
           | Some taxi =>
               if Taxi_IsAvailable (heap ts !!! taxi)
               then available ++ [taxi] else available
           | None => available
           end) [] order.

Definition set_IsAvailable (available : bool) (t : Taxi) : Taxi :=
  {| Taxi_ID := Taxi_ID t; Taxi_Location := Taxi_Location t;
     Taxi_IsAvailable := available |}.

Definition set_Location (location : Location) (t : Taxi) : Taxi :=
  {| Taxi_ID := Taxi_ID t; Taxi_Location := location;
     Taxi_IsAvailable := Taxi_IsAvailable t |}.

Definition SetAvailability (id : Z) (available : bool) (ts : TaxiStore)
  : bool * TaxiStore :=
  match taxis ts !! id with
  | None => (false, ts)
  | Some taxi =>
      (true, {| heap := alter (set_IsAvailable available) taxi (heap ts);
                taxis := taxis ts; nextID := nextID ts |})
  end.

Definition UpdateLocation (id : Z) (location : Location) (ts : TaxiStore)
  : bool * TaxiStore :=
  match taxis ts !! id with
  | None => (false, ts)
  | Some taxi =>
      (true, {| heap := alter (set_Location location) taxi (heap ts);
                taxis := taxis ts; nextID := nextID ts |})
  end.

Definition Count (ts : TaxiStore) : nat := size (taxis ts).

(** A sequence of [Add] calls, with the IDs they return. *)
Fixpoint AddAll (locations : list Location) (ts : TaxiStore)
  : list Z * TaxiStore :=
  match locations with
  | [] => ([], ts)
  | l :: rest =>
      let '(id, ts1) := Add l ts in
      let '(ids, ts2) := AddAll rest ts1 in
      (id :: ids, ts2)
  end.

(** ** assigner.go *)

(** The scan of [AssignClosestTaxi] over the snapshot, with its two loop
    variables; [-1] in [closestDistance] means no taxi found yet. *)
Fixpoint closest_loop (h : list Taxi) (pickup : Location)
    (availableTaxis : list ptr) (closestTaxi : option ptr)
    (closestDistance : Z) : option ptr * Z :=
  match availableTaxis with
  | [] => (closestTaxi, closestDistance)
  | taxi :: rest =>
      let distance :=
        CalculateDistance (Taxi_Location (h !!! taxi)) pickup in
      if (closestDistance =? -1) || (distance <? closestDistance)
      then closest_loop h pickup rest (Some taxi) distance
      else closest_loop h pickup rest closestTaxi closestDistance
  end.

Definition assign_ride (taxiID : Z) (r : Ride) : Ride :=
  {| Ride_ID := Ride_ID r; Ride_ClientID := Ride_ClientID r;
     Ride_TaxiID := taxiID;
     Ride_StartLocation := Ride_StartLocation r;
     Ride_EndLocation := Ride_EndLocation r;
     Ride_Status := ASSIGNED |}.

Definition set_Status (st : RideStatus) (r : Ride) : Ride :=
  {| Ride_ID := Ride_ID r; Ride_ClientID := Ride_ClientID r;
     Ride_TaxiID := Ride_TaxiID r;
     Ride_StartLocation := Ride_StartLocation r;
     Ride_EndLocation := Ride_EndLocation r;
     Ride_Status := st |}.

(** Returns the assigned taxi (or nil), the store and the ride as the call
    leaves them. *)
Definition AssignClosestTaxi (order : list Z) (ts : TaxiStore) (ride : Ride)
  : option ptr * TaxiStore * Ride :=
  let availableTaxis := GetAllAvailable order ts in
  if (length availableTaxis =? 0)%nat then (None, ts, ride)
  else
    match closest_loop (heap ts) (Ride_StartLocation ride)
            availableTaxis None (-1) with
    | (Some closestTaxi, _) =>
        let '(ok, ts') :=
          SetAvailability (Taxi_ID (heap ts !!! closestTaxi)) false ts in
        if ok
        then (Some closestTaxi, ts',
              assign_ride (Taxi_ID (heap ts !!! closestTaxi)) ride)
        else (None, ts', ride)
    | (None, _) => (None, ts, ride)
    end.

Definition CalculateRideDuration (h : list Taxi) (taxi : ptr) (ride : Ride)
  : Z :=
  let pickupDistance :=
    CalculateDistance (Taxi_Location (h !!! taxi)) (Ride_StartLocation ride) in
  let rideDistance :=
    CalculateDistance (Ride_StartLocation ride) (Ride_EndLocation ride) in
  int_add pickupDistance rideDistance.

(** ** Buffered channels *)

Record Chan := mkChan {
  buf : list RideRequest;
  cap : nat;
  closed : bool
}.

(** What a call does: return, panic, or wait on a channel. *)
Inductive outcome (A : Type) : Type :=
  | Returns (a : A)
  | Panics
  | Blocks.
Arguments Returns {A} a.
Arguments Panics {A}.
Arguments Blocks {A}.

(** [c <- v] *)
Definition chan_send (v : RideRequest) (c : Chan) : outcome Chan :=
  if closed c then Panics
  else if (length (buf c) <? cap c)%nat
       then Returns {| buf := buf c ++ [v]; cap := cap c; closed := false |}
       else Blocks.

(** [close(c)] *)
Definition chan_close (c : Chan) : outcome Chan :=
  if closed c then Panics
  else Returns {| buf := buf c; cap := cap c; closed := true |}.

(** One receive of [for v := range c]: [None] when the buffer is empty (the
    loop waits, or ends if the channel is closed). *)
Definition chan_recv (c : Chan) : option (RideRequest * Chan) :=
  match buf c with
  | [] => None
  | v :: rest => Some (v, {| buf := rest; cap := cap c; closed := closed c |})
  end.

(** ** server.go and scheduler.go

    The state shared by the Server, the RideScheduler and the completion
    goroutines. *)

Record System := mkSystem {
  taxiStore : TaxiStore;
  rideRequests : Chan;
  shutdown : bool;
  nextRideID : Z;
  rides : list Ride;               (* the Ride objects allocated so far *)
  pending : list (nat * ptr * Z)   (* sleeping goroutines: ride, taxi, d *)
}.

#[global] Instance Ride_inhabited : Inhabited Ride :=
  populate (mkRide 0 0 0 (mkLocation 0 0) (mkLocation 0 0) CREATED).

Definition NewServer : System :=
  {| taxiStore := NewTaxiStore;
     rideRequests := {| buf := []; cap := 150; closed := false |};
     shutdown := false;
     nextRideID := 1;
     rides := [];
     pending := [] |}.

Definition with_store (ts : TaxiStore) (s : System) : System :=
  {| taxiStore := ts; rideRequests := rideRequests s; shutdown := shutdown s;
     nextRideID := nextRideID s; rides := rides s; pending := pending s |}.

Definition with_chan (c : Chan) (s : System) : System :=
  {| taxiStore := taxiStore s; rideRequests := c; shutdown := shutdown s;
     nextRideID := nextRideID s; rides := rides s; pending := pending s |}.

(** [RegisterTaxi], through [TaxiManager.CreateTaxi]. *)
Definition RegisterTaxi (location : Location) (s : System) : Z * System :=
  let '(id, ts) := Add location (taxiStore s) in (id, with_store ts s).

Definition RequestRide (clientID : Z) (startLocation endLocation : Location)
    (s : System) : outcome (bool * System) :=
  if shutdown s then Returns (false, s)
  else
    let request := mkRideRequest clientID startLocation endLocation in
    match chan_send request (rideRequests s) with
    | Returns c => Returns (true, with_chan c s)
    | Panics => Panics
    | Blocks => Blocks
    end.

Definition GetTaxiCount (s : System) : nat := Count (taxiStore s).

Definition GetAvailableTaxiCount (order : list Z) (s : System) : nat :=
  length (GetAllAvailable order (taxiStore s)).

Definition Shutdown (s : System) : outcome System :=
  let s1 :=
    {| taxiStore := taxiStore s; rideRequests := rideRequests s;
       shutdown := true; nextRideID := nextRideID s; rides := rides s;
       pending := pending s |} in
  match chan_close (rideRequests s1) with
  | Returns c => Returns (with_chan c s1)
  | Panics => Panics
  | Blocks => Blocks
  end.

(** [startRide]: the ride goes IN_PROGRESS and its completion goroutine is
    spawned; the ride object is the one just allocated by [processRequest]. *)
Definition startRide (ride : Ride) (taxi : ptr) (duration : Z) (s : System)
  : System :=
  {| taxiStore := taxiStore s; rideRequests := rideRequests s;
     shutdown := shutdown s; nextRideID := nextRideID s;
     rides := rides s ++ [set_Status IN_PROGRESS ride];
     pending := pending s ++ [(length (rides s), taxi, duration)] |}.

(** The ride object that [processRequest] allocates: [TaxiID] has its zero
    value. *)
Definition new_ride (rideID : Z) (request : RideRequest) : Ride :=
  {| Ride_ID := rideID; Ride_ClientID := Req_ClientID request;
     Ride_TaxiID := 0;
     Ride_StartLocation := Req_StartLocation request;
     Ride_EndLocation := Req_EndLocation request;
     Ride_Status := CREATED |}.

Definition processRequest (order : list Z) (request : RideRequest)
    (s : System) : System :=
  let rideID := nextRideID s in
  let ride := new_ride rideID request in
  let '(taxi, ts, ride) := AssignClosestTaxi order (taxiStore s) ride in
  let s1 :=
    {| taxiStore := ts; rideRequests := rideRequests s;
       shutdown := shutdown s; nextRideID := int_add rideID 1;
       rides := rides s; pending := pending s |} in
  match taxi with
  | None =>
      {| taxiStore := ts; rideRequests := rideRequests s;
         shutdown := shutdown s; nextRideID := int_add rideID 1;
         rides := rides s ++ [ride]; pending := pending s |}
  | Some taxi =>
      let duration := CalculateRideDuration (heap ts) taxi ride in
      startRide ride taxi duration s1
  end.

(** [endRide], run by the goroutine of ride object [ride] with taxi [taxi]. *)
Definition endRide (ride : nat) (taxi : ptr) (s : System) : System :=
  let rides1 := alter (set_Status FINISHED) ride (rides s) in
  let id := Taxi_ID (heap (taxiStore s) !!! taxi) in
  let '(_, ts1) :=
    UpdateLocation id (Ride_EndLocation (rides1 !!! ride)) (taxiStore s) in
  let '(_, ts2) := SetAvailability id true ts1 in
  {| taxiStore := ts2; rideRequests := rideRequests s;
     shutdown := shutdown s; nextRideID := nextRideID s;
     rides := rides1; pending := pending s |}.

(** ** The system as a transition system

    Each event is one atomic step: a registration, a submission that gets
    through, one iteration of the scheduler loop (with the order in which
    the store's map is ranged over), the completion of a sleeping ride
    goroutine, a shutdown.  A call that panics or has to wait is no step.
    This is the system of the statements that speak of atomic steps; the
    program at the granularity of its critical sections is [pstep], further
    down, of which every step here is a run. *)

Inductive event :=
  | EvRegisterTaxi (location : Location)
  | EvRequestRide (clientID : Z) (startLocation endLocation : Location)
  | EvProcess (order : list Z)
  | EvComplete (k : nat)
  | EvShutdown.

Definition step (e : event) (s : System) : option System :=
  match e with
  | EvRegisterTaxi location => Some (RegisterTaxi location s).2
  | EvRequestRide clientID startLocation endLocation =>
      match RequestRide clientID startLocation endLocation s with
      | Returns (_, s') => Some s'
      | _ => None
      end
  | EvProcess order =>
      if bool_decide (range_order (taxiStore s) order) then
        match chan_recv (rideRequests s) with
        | Some (request, c) => Some (processRequest order request (with_chan c s))
        | None => None
        end
      else None
  | EvComplete k =>
      match pending s !! k with
      | Some (ride, taxi, _) =>
          Some (endRide ride taxi
                  {| taxiStore := taxiStore s; rideRequests := rideRequests s;
                     shutdown := shutdown s; nextRideID := nextRideID s;
                     rides := rides s; pending := delete k (pending s) |})
      | None => None
      end
  | EvShutdown =>
      match Shutdown s with
      | Returns s' => Some s'
      | _ => None
      end
  end.

Fixpoint run (evs : list event) (s : System) : option System :=
  match evs with
  | [] => Some s
  | e :: rest =>
      match step e s with
      | Some s' => run rest s'
      | None => None
      end
  end.

Definition is_register (e : event) : bool :=
  match e with EvRegisterTaxi _ => true | _ => false end.

Definition registrations (evs : list event) : nat :=
  length (filter (λ e, is_register e = true) evs).

(** A ride holds a reservation on vehicle [id]. *)
Definition reserves (r : Ride) (id : Z) : Prop :=
  (Ride_Status r = ASSIGNED ∨ Ride_Status r = IN_PROGRESS) ∧ Ride_TaxiID r = id.

(** ** Auxiliary notions used in the statements and proofs *)

(** The absolute value as [CalculateDistance] computes it. *)
Definition go_abs (d : Z) : Z := if d <? 0 then int_neg d else d.

(** Well-formed stores: every pointer held by the map addresses an allocated
    [Taxi] whose [ID] field is the key it is stored under.  [NewTaxiStore]
    is well formed and every store operation keeps it so. *)
Definition wf_store (ts : TaxiStore) : Prop :=
  map_Forall (λ id p, Taxi_ID <$> heap ts !! p = Some id) (taxis ts).

#[global] Instance wf_store_dec ts : Decision (wf_store ts).
Proof. unfold wf_store. apply _. Defined.

(** What one iteration of the loop of [GetAllAvailable] appends. *)
Definition available_at (ts : TaxiStore) (id : Z) : option ptr :=
  match taxis ts !! id with
  | Some taxi =>
      if Taxi_IsAvailable (heap ts !!! taxi) then Some taxi else None
  | None => None
  end.

(** The store after one registration at (0,0). *)
Definition one_taxi_store : TaxiStore := (Add (mkLocation 0 0) NewTaxiStore).2.

(** No vehicle of the store is available. *)
Definition none_available (ts : TaxiStore) : Prop :=
  ∀ id p, Get id ts = Some p → Taxi_IsAvailable (heap ts !!! p) = false.


(** The distance the scan of [AssignClosestTaxi] computes for a taxi. *)
Definition dist_to (h : list Taxi) (pickup : Location) (taxi : ptr) : Z :=
  CalculateDistance (Taxi_Location (h !!! taxi)) pickup.

(** [p], at index [i] of [l], is the first element of [l] at which the
    measure [d] is minimal. *)
Definition first_min (d : ptr → Z) (l : list ptr) (i : nat) (p : ptr) : Prop :=
  l !! i = Some p
  ∧ (∀ q, q ∈ l → d p ≤ d q)
  ∧ (∀ (j : nat) q, (j < i)%nat → l !! j = Some q → d p < d q).

(** Vehicles at (0,0) and (10,10). *)
Definition two_taxi_store : TaxiStore :=
  (AddAll [mkLocation 0 0; mkLocation 10 10] NewTaxiStore).2.

(** Vehicles at the edge of the [int] range, and a pickup there. *)
Definition far_store : TaxiStore :=
  (AddAll [mkLocation 0 min_int; mkLocation min_int 0;
           mkLocation (max_int - 5) 0] NewTaxiStore).2.

Definition far_pickup : Location := mkLocation max_int 0.

Definition far_ride : Ride :=
  new_ride 1 (mkRideRequest 1 far_pickup (mkLocation 0 0)).

(** ** Invariants of the transition system *)

(** The IDs handed out so far: the k-th allocated taxi got [wrap (1 + k)]. *)
Definition issued (ts : TaxiStore) : Prop :=
  nextID ts = wrap (1 + Z.of_nat (length (heap ts)))
  ∧ ∀ id p, taxis ts !! id = Some p →
      ∃ k : nat, (k < length (heap ts))%nat ∧ id = wrap (1 + Z.of_nat k).

(** Every sleeping goroutine holds an allocated ride and an allocated taxi
    whose ID is in the store and is the ride's [TaxiID]. *)
Definition pending_wf (s : System) : Prop :=
  ∀ (k i p : nat) d, pending s !! k = Some (i, p, d) →
    (i < length (rides s))%nat
    ∧ (p < length (heap (taxiStore s)))%nat
    ∧ is_Some (taxis (taxiStore s) !! Taxi_ID (heap (taxiStore s) !!! p))
    ∧ Ride_TaxiID (rides s !!! i) = Taxi_ID (heap (taxiStore s) !!! p).

(** A vehicle's flag is false exactly when some ride reserves it. *)
Definition flag_matches_reservation (s : System) : Prop :=
  ∀ id p, Get id (taxiStore s) = Some p →
    (Taxi_IsAvailable (heap (taxiStore s) !!! p) = false
     ↔ ∃ (i : nat) r, rides s !! i = Some r ∧ reserves r id).

(** No two rides reserve the same vehicle. *)
Definition one_reservation_per_vehicle (s : System) : Prop :=
  ∀ (i j : nat) r1 r2 id,
    rides s !! i = Some r1 → rides s !! j = Some r2 →
    reserves r1 id → reserves r2 id → i = j.

(** A reserved vehicle is not handed out by [AssignClosestTaxi]. *)
Definition reserved_not_assignable (s : System) : Prop :=
  ∀ (i : nat) r id p order ride,
    rides s !! i = Some r → reserves r id →
    Get id (taxiStore s) = Some p →
    (AssignClosestTaxi order (taxiStore s) ride).1.1 ≠ Some p.

Definition reservations_wf (s : System) : Prop :=
  flag_matches_reservation s
  ∧ one_reservation_per_vehicle s
  ∧ (∀ (i : nat) r id, rides s !! i = Some r → reserves r id →
       is_Some (taxis (taxiStore s) !! id))
  ∧ (∀ (k i p : nat) d, pending s !! k = Some (i, p, d) →
       ∃ r, rides s !! i = Some r ∧ Ride_Status r = IN_PROGRESS
            ∧ taxis (taxiStore s) !! Ride_TaxiID r = Some p)
  ∧ (∀ (k1 k2 i p1 p2 : nat) d1 d2,
       pending s !! k1 = Some (i, p1, d1) →
       pending s !! k2 = Some (i, p2, d2) → k1 = k2).

Definition Inv (s : System) : Prop :=
  wf_store (taxiStore s)
  ∧ issued (taxiStore s)
  ∧ pending_wf s
  ∧ (Z.of_nat (length (heap (taxiStore s))) ≤ 2 ^ 64 → reservations_wf s).

(** One registration, one ride request and its assignment. *)
Definition one_ride_trace : list event :=
  [EvRegisterTaxi (mkLocation 0 0);
   EvRequestRide 1 (mkLocation 0 0) (mkLocation 5 0);
   EvProcess [1]].

Definition one_ride_state : System :=
  {| taxiStore := {| heap := [mkTaxi 1 (mkLocation 0 0) false];
                     taxis := {[ 1 := 0%nat ]}; nextID := 2 |};
     rideRequests := {| buf := []; cap := 150; closed := false |};
     shutdown := false; nextRideID := 2;
     rides := [mkRide 1 1 1 (mkLocation 0 0) (mkLocation 5 0) IN_PROGRESS];
     pending := [(0%nat, 0%nat, 5)] |}.

(** ** Further notions: the simulation grid, the manager, the clients *)

(** The coordinates the clients draw: [rand.Intn(100)] on both axes. *)
Definition in_grid (l : Location) : Prop :=
  (0 ≤ X l < 100) ∧ (0 ≤ Y l < 100).

(** The vehicle an ID stands for, as [Get] followed by a dereference. *)
Definition vehicle (id : Z) (ts : TaxiStore) : option Taxi :=
  match Get id ts with
  | Some p => heap ts !! p
  | None => None
  end.

(** ** manager.go *)

(** The error of [UpdateTaxiLocation], [fmt.Errorf("taxi #%d not found", id)],
    kept as the ID it mentions. *)
Inductive error := TaxiNotFound (id : Z).

Definition CreateTaxi (location : Location) (ts : TaxiStore) : Z * TaxiStore :=
  Add location ts.

Definition GetTaxi (id : Z) (ts : TaxiStore) : option ptr := Get id ts.

(** [None] is the nil error. *)
Definition UpdateTaxiLocation (id : Z) (location : Location) (ts : TaxiStore)
  : option error * TaxiStore :=
  let '(ok, ts') := UpdateLocation id location ts in
  if negb ok then (Some (TaxiNotFound id), ts') else (None, ts').

Definition GetAvailableTaxis (order : list Z) (ts : TaxiStore) : list ptr :=
  GetAllAvailable order ts.

(** ** server.go, in its two critical sections

    [RequestRide] holds the mutex only while it reads the flag and sends
    after the unlock; [Shutdown] holds it only while it sets the flag and
    closes the channel after the unlock.  The halves, as separate steps: *)

(** The locked part of [RequestRide]: true when the call goes on to send. *)
Definition RequestRide_check (s : System) : bool := negb (shutdown s).

(** The rest of [RequestRide], after the unlock. *)
Definition RequestRide_send (clientID : Z) (startLocation endLocation : Location)
    (s : System) : outcome (bool * System) :=
  let request := mkRideRequest clientID startLocation endLocation in
  match chan_send request (rideRequests s) with
  | Returns c => Returns (true, with_chan c s)
  | Panics => Panics
  | Blocks => Blocks
  end.

(** The locked part of [Shutdown]. *)
Definition Shutdown_set_flag (s : System) : System :=
  {| taxiStore := taxiStore s; rideRequests := rideRequests s;
     shutdown := true; nextRideID := nextRideID s; rides := rides s;
     pending := pending s |}.

(** The rest of [Shutdown], after the unlock. *)
Definition Shutdown_close (s : System) : outcome System :=
  match chan_close (rideRequests s) with
  | Returns c => Returns (with_chan c s)
  | Panics => Panics
  | Blocks => Blocks
  end.

(** ** Bookkeeping over traces *)

Definition is_request (e : event) : bool :=
  match e with EvRequestRide _ _ _ => true | _ => false end.

(** The number of [RequestRide] calls in a trace. *)
Definition request_count (evs : list event) : nat :=
  length (filter (λ e, is_request e = true) evs).

(** The request a ride was made from. *)
Definition ride_request (r : Ride) : RideRequest :=
  mkRideRequest (Ride_ClientID r) (Ride_StartLocation r) (Ride_EndLocation r).

(** The order of the constants of [RideStatus]. *)
Definition status_rank (st : RideStatus) : nat :=
  match st with
  | CREATED => 0 | ASSIGNED => 1 | IN_PROGRESS => 2 | FINISHED => 3
  end.

(** One order in which the map can be ranged over. *)
Definition some_order (ts : TaxiStore) : list Z := (map_to_list (taxis ts)).*1.

(** The sleeping goroutines are exactly the rides in progress. *)
Definition goroutines_match (s : System) : Prop :=
  (∀ (k i p : nat) d, pending s !! k = Some (i, p, d) →
     ∃ r, rides s !! i = Some r ∧ Ride_Status r = IN_PROGRESS)
  ∧ (∀ (k1 k2 i p1 p2 : nat) d1 d2,
       pending s !! k1 = Some (i, p1, d1) →
       pending s !! k2 = Some (i, p2, d2) → k1 = k2)
  ∧ (∀ (i : nat) r, rides s !! i = Some r → Ride_Status r = IN_PROGRESS →
       ∃ (k p : nat) d, pending s !! k = Some (i, p, d))
  ∧ (∀ (i : nat) r, rides s !! i = Some r → Ride_Status r ≠ ASSIGNED)
  ∧ (∀ (i : nat) r, rides s !! i = Some r → Ride_Status r = CREATED →
       Ride_TaxiID r = 0).

(** The locations an event brings into the system lie on the grid. *)
Definition grid_event (e : event) : Prop :=
  match e with
  | EvRegisterTaxi l => in_grid l
  | EvRequestRide _ a b => in_grid a ∧ in_grid b
  | _ => True
  end.

(** Everything the system holds lies on the grid, and every scheduled
    duration is within the grid's bound. *)
Definition on_grid (s : System) : Prop :=
  (∀ (p : nat) t, heap (taxiStore s) !! p = Some t → in_grid (Taxi_Location t))
  ∧ (∀ q, q ∈ buf (rideRequests s) →
       in_grid (Req_StartLocation q) ∧ in_grid (Req_EndLocation q))
  ∧ (∀ r, r ∈ rides s →
       in_grid (Ride_StartLocation r) ∧ in_grid (Ride_EndLocation r))
  ∧ (∀ (i p : nat) d, (i, p, d) ∈ pending s → 0 ≤ d ≤ 396).

(** ** The program at the granularity of its critical sections

    In the transition system above a call is one step.  The program itself
    is finer: [RequestRide] sends after it has released the mutex that
    guards the flag, [Shutdown] closes the channel after it has released it,
    the scheduler takes a request off the channel and waits for its ticker
    before it processes it, [AssignClosestTaxi] takes its snapshot and
    reserves the vehicle in two critical sections of the store, and
    [endRide] writes the status, the location and the flag in three.  In
    the transition system below a step is one critical section (or one
    channel operation) of one goroutine, and the state records where every
    goroutine is. *)

(** Where the scheduler goroutine is in [Start] and [processRequest]. *)
Inductive sched_pc :=
  | AtReceive                       (* at [range rs.rideRequests] *)
  | AtTicker (request : RideRequest)    (* received; at [<-ticker.C] *)
  | AtAssign (ride : Ride)          (* ride allocated; calls AssignClosestTaxi *)
  | AtSelect (ride : Ride) (availableTaxis : list ptr)
                                    (* after [GetAllAvailable], not empty *)
  | AtStartRide (ride : Ride) (taxi : ptr)
                                    (* after [SetAvailability(id, false)] *)
  | Stopped.                        (* the range loop has ended *)

Record Program := mkProgram {
  shared : System;
  senders : list RideRequest;   (* RequestRide calls between check and send *)
  closers : nat;                (* Shutdown calls between flag and close *)
  scheduler : sched_pc;
  enders : list (nat * ptr * bool)
    (* endRide calls after the status write: ride, taxi, relocated yet *)
}.

(** [NewServer] has started the scheduler goroutine. *)
Definition NewProgram : Program :=
  {| shared := NewServer; senders := []; closers := 0;
     scheduler := AtReceive; enders := [] |}.

Definition with_shared (sh : System) (s : Program) : Program :=
  {| shared := sh; senders := senders s; closers := closers s;
     scheduler := scheduler s; enders := enders s |}.

Definition with_senders (l : list RideRequest) (s : Program) : Program :=
  {| shared := shared s; senders := l; closers := closers s;
     scheduler := scheduler s; enders := enders s |}.

Definition with_closers (n : nat) (s : Program) : Program :=
  {| shared := shared s; senders := senders s; closers := n;
     scheduler := scheduler s; enders := enders s |}.

Definition with_scheduler (pc : sched_pc) (s : Program) : Program :=
  {| shared := shared s; senders := senders s; closers := closers s;
     scheduler := pc; enders := enders s |}.

Definition with_enders (l : list (nat * ptr * bool)) (s : Program) : Program :=
  {| shared := shared s; senders := senders s; closers := closers s;
     scheduler := scheduler s; enders := l |}.

Definition with_nextRideID (n : Z) (s : System) : System :=
  {| taxiStore := taxiStore s; rideRequests := rideRequests s;
     shutdown := shutdown s; nextRideID := n; rides := rides s;
     pending := pending s |}.

Definition with_rides (l : list Ride) (s : System) : System :=
  {| taxiStore := taxiStore s; rideRequests := rideRequests s;
     shutdown := shutdown s; nextRideID := nextRideID s; rides := l;
     pending := pending s |}.

Definition with_pending (l : list (nat * ptr * Z)) (s : System) : System :=
  {| taxiStore := taxiStore s; rideRequests := rideRequests s;
     shutdown := shutdown s; nextRideID := nextRideID s; rides := rides s;
     pending := l |}.

(** [processRequest] returns without a vehicle: the ride object stays as it
    is and the scheduler is back at its loop. *)
Definition drop_ride (ride : Ride) (s : Program) : Program :=
  with_scheduler AtReceive
    (with_shared (with_rides (rides (shared s) ++ [ride]) (shared s)) s).

Inductive action :=
  | ARegisterTaxi (location : Location)
      (* RegisterTaxi: [Add], one critical section of the store *)
  | ACheck (clientID : Z) (startLocation endLocation : Location)
      (* RequestRide: the flag is read under [s.mu] *)
  | ASend (k : nat) (request : RideRequest)
      (* RequestRide: [s.rideRequests <- request] of the k-th caller *)
  | ASetFlag        (* Shutdown: the flag is written under [s.mu] *)
  | AClose          (* Shutdown: [close(s.rideRequests)] *)
  | AReceive        (* Start: the range loop receives a request *)
  | AStop           (* Start: the range loop ends *)
  | ATick           (* Start: the tick; processRequest: ID and ride object *)
  | ASnapshot (order : list Z)
      (* AssignClosestTaxi: [GetAllAvailable] *)
  | ASelect
      (* AssignClosestTaxi: the scan, [SetAvailability], the ride's fields *)
  | AStartRide
      (* CalculateRideDuration; startRide: status and [go] *)
  | AFinish (k : nat)
      (* goroutine k wakes up; endRide: the status is written *)
  | ARelocate (k : nat)   (* endRide: [UpdateLocation] *)
  | ARelease (k : nat).   (* endRide: [SetAvailability(id, true)] *)

Definition pstep (a : action) (s : Program) : option Program :=
  let sh := shared s in
  let ts := taxiStore sh in
  match a with
  | ARegisterTaxi location =>
      Some (with_shared (RegisterTaxi location sh).2 s)
  | ACheck clientID startLocation endLocation =>
      if RequestRide_check sh
      then Some (with_senders
                   (senders s
                    ++ [mkRideRequest clientID startLocation endLocation]) s)
      else Some s
  | ASend k request =>
      if bool_decide (senders s !! k = Some request) then
        match RequestRide_send (Req_ClientID request)
                (Req_StartLocation request) (Req_EndLocation request) sh with
        | Returns (_, sh') =>
            Some (with_senders (delete k (senders s)) (with_shared sh' s))
        | _ => None
        end
      else None
  | ASetFlag =>
      Some (with_closers (S (closers s))
              (with_shared (Shutdown_set_flag sh) s))
  | AClose =>
      match closers s with
      | S n =>
          match Shutdown_close sh with
          | Returns sh' => Some (with_closers n (with_shared sh' s))
          | _ => None
          end
      | O => None
      end
  | AReceive =>
      match scheduler s with
      | AtReceive =>
          match chan_recv (rideRequests sh) with
          | Some (request, c) =>
              Some (with_scheduler (AtTicker request)
                      (with_shared (with_chan c sh) s))
          | None => None
          end
      | _ => None
      end
  | AStop =>
      match scheduler s, buf (rideRequests sh) with
      | AtReceive, [] =>
          if closed (rideRequests sh)
          then Some (with_scheduler Stopped s) else None
      | _, _ => None
      end
  | ATick =>
      match scheduler s with
      | AtTicker request =>
          let rideID := nextRideID sh in
          Some (with_scheduler (AtAssign (new_ride rideID request))
                  (with_shared (with_nextRideID (int_add rideID 1) sh) s))
      | _ => None
      end
  | ASnapshot order =>
      match scheduler s with
      | AtAssign ride =>
          if bool_decide (range_order ts order) then
            let availableTaxis := GetAllAvailable order ts in
            if (length availableTaxis =? 0)%nat
            then Some (drop_ride ride s)
            else Some (with_scheduler (AtSelect ride availableTaxis) s)
          else None
      | _ => None
      end
  | ASelect =>
      match scheduler s with
      | AtSelect ride availableTaxis =>
          match closest_loop (heap ts) (Ride_StartLocation ride)
                  availableTaxis None (-1) with
          | (Some closestTaxi, _) =>
              let '(ok, ts') :=
                SetAvailability (Taxi_ID (heap ts !!! closestTaxi)) false ts in
              if ok
              then Some (with_scheduler
                           (AtStartRide
                              (assign_ride (Taxi_ID (heap ts !!! closestTaxi))
                                 ride)
                              closestTaxi)
                           (with_shared (with_store ts' sh) s))
              else Some (drop_ride ride (with_shared (with_store ts' sh) s))
          | (None, _) => Some (drop_ride ride s)
          end
      | _ => None
      end
  | AStartRide =>
      match scheduler s with
      | AtStartRide ride taxi =>
          let duration := CalculateRideDuration (heap ts) taxi ride in
          Some (with_scheduler AtReceive
                  (with_shared (startRide ride taxi duration sh) s))
      | _ => None
      end
  | AFinish k =>
      match pending sh !! k with
      | Some (ride, taxi, _) =>
          Some (with_enders (enders s ++ [(ride, taxi, false)])
                  (with_shared
                     (with_pending (delete k (pending sh))
                        (with_rides
                           (alter (set_Status FINISHED) ride (rides sh)) sh))
                     s))
      | None => None
      end
  | ARelocate k =>
      match enders s !! k with
      | Some (ride, taxi, false) =>
          let '(_, ts') :=
            UpdateLocation (Taxi_ID (heap ts !!! taxi))
              (Ride_EndLocation (rides sh !!! ride)) ts in
          Some (with_enders (<[k := (ride, taxi, true)]> (enders s))
                  (with_shared (with_store ts' sh) s))
      | _ => None
      end
  | ARelease k =>
      match enders s !! k with
      | Some (ride, taxi, true) =>
          let '(_, ts') :=
            SetAvailability (Taxi_ID (heap ts !!! taxi)) true ts in
          Some (with_enders (delete k (enders s))
                  (with_shared (with_store ts' sh) s))
      | _ => None
      end
  end.

Fixpoint prun (acts : list action) (s : Program) : option Program :=
  match acts with
  | [] => Some s
  | a :: rest =>
      match pstep a s with
      | Some s' => prun rest s'
      | None => None
      end
  end.

(** A state of the coarse system as a state of the program: no call is
    under way and the scheduler is at its loop. *)
Definition at_rest (sh : System) : Program :=
  {| shared := sh; senders := []; closers := 0; scheduler := AtReceive;
     enders := [] |}.

(** The critical sections a coarse step is made of. *)
Definition sections (e : event) (s : System) : list action :=
  match e with
  | EvRegisterTaxi location => [ARegisterTaxi location]
  | EvRequestRide clientID startLocation endLocation =>
      if shutdown s then [ACheck clientID startLocation endLocation]
      else [ACheck clientID startLocation endLocation;
            ASend 0 (mkRideRequest clientID startLocation endLocation)]
  | EvProcess order =>
      if (length (GetAllAvailable order (taxiStore s)) =? 0)%nat
      then [AReceive; ATick; ASnapshot order]
      else [AReceive; ATick; ASnapshot order; ASelect; AStartRide]
  | EvComplete k => [AFinish k; ARelocate 0; ARelease 0]
  | EvShutdown => [ASetFlag; AClose]
  end.

(** The request the scheduler has taken off the channel and not yet turned
    into a recorded ride. *)
Definition in_hand (pc : sched_pc) : list RideRequest :=
  match pc with
  | AtTicker request => [request]
  | AtAssign ride | AtSelect ride _ | AtStartRide ride _ =>
      [ride_request ride]
  | AtReceive | Stopped => []
  end.

(** The requests sent on the channel in a run, in the order of the sends. *)
Fixpoint sent (acts : list action) : list RideRequest :=
  match acts with
  | [] => []
  | ASend _ request :: rest => request :: sent rest
  | _ :: rest => sent rest
  end.

(** The requests whose flag check was made in a run, in that order. *)
Fixpoint checked (acts : list action) : list RideRequest :=
  match acts with
  | [] => []
  | ACheck clientID startLocation endLocation :: rest =>
      mkRideRequest clientID startLocation endLocation :: checked rest
  | _ :: rest => checked rest
  end.

Fixpoint registered (acts : list action) : list Location :=
  match acts with
  | [] => []
  | ARegisterTaxi location :: rest => location :: registered rest
  | _ :: rest => registered rest
  end.

(** The vehicle the scheduler has reserved and not yet handed to a
    goroutine. *)
Definition held_by (pc : sched_pc) : list ptr :=
  match pc with AtStartRide _ taxi => [taxi] | _ => [] end.

(** The vehicles that are held: by the scheduler between its
    [SetAvailability(id, false)] and the [go] of [startRide], by a sleeping
    goroutine, or by an [endRide] that has not yet made its
    [SetAvailability(id, true)]. *)
Definition holders (s : Program) : list ptr :=
  held_by (scheduler s)
  ++ ((λ g : nat * ptr * Z, g.1.2) <$> pending (shared s))
  ++ ((λ g : nat * ptr * bool, g.1.2) <$> enders s).

(** The vehicles held are exactly the vehicles of the store whose flag is
    false, each held once. *)
Definition held_exactly (ts : TaxiStore) (held : list ptr) : Prop :=
  NoDup held
  ∧ ∀ p : ptr, p ∈ held ↔
      ∃ id, taxis ts !! id = Some p
            ∧ Taxi_IsAvailable (heap ts !!! p) = false.

(** The snapshot the scheduler works on holds vehicles of the store that are
    still available. *)
Definition snapshot_ok (ts : TaxiStore) (pc : sched_pc) : Prop :=
  ∀ ride availableTaxis, pc = AtSelect ride availableTaxis →
    availableTaxis ≠ []
    ∧ ∀ p : ptr, p ∈ availableTaxis →
        ∃ id, taxis ts !! id = Some p
              ∧ Taxi_IsAvailable (heap ts !!! p) = true.

Definition PInv (s : Program) : Prop :=
  wf_store (taxiStore (shared s))
  ∧ issued (taxiStore (shared s))
  ∧ (Z.of_nat (length (heap (taxiStore (shared s)))) ≤ 2 ^ 64 →
       size (taxis (taxiStore (shared s)))
       = length (heap (taxiStore (shared s)))
       ∧ held_exactly (taxiStore (shared s)) (holders s)
       ∧ snapshot_ok (taxiStore (shared s)) (scheduler s)).

(** The steps of the scheduler goroutine. *)
Definition is_scheduler (a : action) : bool :=
  match a with
  | AReceive | AStop | ATick | ASnapshot _ | ASelect | AStartRide => true
  | _ => false
  end.

(** The state a run from [NewProgram] ends in. *)
Definition after (acts : list action) : Program :=
  default NewProgram (prun acts NewProgram).

(** A run in which the scheduler holds a request it has received. *)
Definition held_request_run : list action :=
  [ARegisterTaxi (mkLocation 0 0);
   ACheck 1 (mkLocation 0 0) (mkLocation 5 0);
   ASend 0 (mkRideRequest 1 (mkLocation 0 0) (mkLocation 5 0));
   ACheck 2 (mkLocation 1 1) (mkLocation 2 2);
   AReceive;
   ASend 0 (mkRideRequest 2 (mkLocation 1 1) (mkLocation 2 2))].

(** A run after which the first ride is being ended (its vehicle relocated
    and not yet released) and the second has its vehicle reserved and is not
    yet started. *)
Definition busy_run : list action :=
  [ARegisterTaxi (mkLocation 0 0);
   ARegisterTaxi (mkLocation 9 9);
   ACheck 1 (mkLocation 0 0) (mkLocation 5 0);
   ASend 0 (mkRideRequest 1 (mkLocation 0 0) (mkLocation 5 0));
   AReceive; ATick; ASnapshot [2; 1]; ASelect; AStartRide;
   AFinish 0; ARelocate 0;
   ACheck 3 (mkLocation 8 8) (mkLocation 2 2);
   ASend 0 (mkRideRequest 3 (mkLocation 8 8) (mkLocation 2 2));
   AReceive; ATick; ASnapshot [1; 2]; ASelect].

(** A run that ends with [Shutdown] returned while one request is queued. *)
Definition shut_run : list action :=
  [ACheck 1 (mkLocation 0 0) (mkLocation 5 0);
   ASend 0 (mkRideRequest 1 (mkLocation 0 0) (mkLocation 5 0));
   ASetFlag; AClose].

(** ** taxi_client.go, user_client.go and [main]

    The two clients draw their locations with [rand.Intn(100)]; the draws of
    iteration [i] are given by functions of [i].  A client's [Start] is the
    sequence of the critical sections its loop goes through; the sleeps
    between the calls only space them out. *)

(** [TaxiClient.Start], with [maxTaxis] = 15: one [RegisterTaxi] per
    iteration. *)
Definition TaxiClient_Start (location : nat → Location) : list action :=
  (λ i : nat, ARegisterTaxi (location i)) <$> seq 0 15.

(** The request of iteration [i] of [UserClient.Start]:
    [clientID := i + 1]. *)
Definition UserClient_request (startLocation endLocation : nat → Location)
    (i : nat) : RideRequest :=
  mkRideRequest (int_add (Z.of_nat i) 1) (startLocation i) (endLocation i).

(** One [RequestRide] of the user client on a server that is not shut down:
    the check, then the send.  The client is the only caller, so its send is
    that of caller 0. *)
Definition UserClient_call (startLocation endLocation : nat → Location)
    (i : nat) : list action :=
  [ACheck (int_add (Z.of_nat i) 1) (startLocation i) (endLocation i);
   ASend 0 (UserClient_request startLocation endLocation i)].

(** [UserClient.Start], with [maxRides] = 100, while the server is not shut
    down ([main] calls [Shutdown] after [Start] has returned). *)
Definition UserClient_Start (startLocation endLocation : nat → Location)
  : list action :=
  seq 0 100 ≫= UserClient_call startLocation endLocation.

Definition is_registration (a : action) : bool :=
  match a with ARegisterTaxi _ => true | _ => false end.

Definition is_request_section (a : action) : bool :=
  match a with ACheck _ _ _ | ASend _ _ => true | _ => false end.

Definition is_shutdown_section (a : action) : bool :=
  match a with ASetFlag | AClose => true | _ => false end.

(** A run of [main] up to its call of [Shutdown]: the critical sections of
    the two clients, each client's in its own order, interleaved with each
    other and with those of the scheduler and of the ride goroutines. *)
Definition main_trace (location startLocation endLocation : nat → Location)
    (acts : list action) : Prop :=
  filter (λ a, is_registration a = true) acts
    `prefix_of` TaxiClient_Start location
  ∧ filter (λ a, is_request_section a = true) acts
      `prefix_of` UserClient_Start startLocation endLocation
  ∧ Forall (λ a, is_shutdown_section a = false) acts.

(** A run of [main] in which the third [RequestRide] has passed its check
    and the scheduler holds the second request. *)
Definition main_run : list action :=
  [ARegisterTaxi (mkLocation 3 4);
   ACheck 1 (mkLocation 0 0) (mkLocation 5 0);
   ASend 0 (mkRideRequest 1 (mkLocation 0 0) (mkLocation 5 0));
   AReceive; ATick; ASnapshot [1]; ASelect; AStartRide;
   ACheck 2 (mkLocation 0 0) (mkLocation 5 0);
   ARegisterTaxi (mkLocation 3 4);
   ASend 0 (mkRideRequest 2 (mkLocation 0 0) (mkLocation 5 0));
   AReceive;
   ACheck 3 (mkLocation 0 0) (mkLocation 5 0)].

(** * Proofs *)

(** ** Integer arithmetic *)

Lemma wrap_spec z :
  ∃ q, wrap z = z + 18446744073709551616 * q
       ∧ -9223372036854775808 ≤ wrap z < 9223372036854775808.
Proof.
  unfold wrap. change (2 ^ 63) with 9223372036854775808.
  change (2 ^ 64) with 18446744073709551616.
  pose proof (Z.mod_pos_bound (z + 9223372036854775808) 18446744073709551616).
  pose proof (Z.div_mod (z + 9223372036854775808) 18446744073709551616).
  exists (- ((z + 9223372036854775808) `div` 18446744073709551616)). lia.
Qed.

(** Replace every [wrap z] by a fresh integer with its defining facts. *)
Ltac wrap_elim :=
  unfold int_add, int_sub, int_neg, is_int, min_int, max_int in *;
  change (2 ^ 63) with 9223372036854775808 in *;
  change (2 ^ 64) with 18446744073709551616 in *;
  repeat match goal with
  | |- context [wrap ?z] =>
      let q := fresh "q" in
      let w := fresh "w" in
      let Hq := fresh "Hq" in
      let Hr := fresh "Hr" in
      destruct (wrap_spec z) as (q & Hq & Hr);
      set (w := wrap z) in *; clearbody w
  | H : context [wrap ?z] |- _ =>
      let q := fresh "q" in
      let w := fresh "w" in
      let Hq := fresh "Hq" in
      let Hr := fresh "Hr" in
      destruct (wrap_spec z) as (q & Hq & Hr);
      set (w := wrap z) in *; clearbody w
  end.

Lemma wrap_is_int z : is_int (wrap z).
Proof. wrap_elim. lia. Qed.

Lemma wrap_id z : is_int z → wrap z = z.
Proof. intros Hz. wrap_elim. lia. Qed.

Lemma wrap_add_of_nat_inj (a : Z) (n k : nat) :
  (k < n)%nat → Z.of_nat n < 2 ^ 64 →
  wrap (a + Z.of_nat n) ≠ wrap (a + Z.of_nat k).
Proof. intros Hk Hn Heq. wrap_elim. lia. Qed.

Lemma wrap_add_wrap_l a b : wrap (wrap a + b) = wrap (a + b).
Proof. wrap_elim. lia. Qed.

(** ** location.go *)

Lemma CalculateDistance_unfold a b :
  CalculateDistance a b
  = int_add (go_abs (int_sub (X a) (X b))) (go_abs (int_sub (Y a) (Y b))).
Proof. reflexivity. Qed.

Lemma go_abs_sub_sym x y : go_abs (int_sub x y) = go_abs (int_sub y x).
Proof.
  unfold go_abs.
  destruct (Z.ltb_spec (int_sub x y) 0), (Z.ltb_spec (int_sub y x) 0);
    wrap_elim; lia.
Qed.

Lemma go_abs_sub_exact x y :
  is_int x → is_int y → Z.abs (x - y) ≤ max_int →
  go_abs (int_sub x y) = Z.abs (x - y).
Proof.
  intros Hx Hy Hxy. unfold go_abs.
  destruct (Z.ltb_spec (int_sub x y) 0); wrap_elim; lia.
Qed.

Lemma CalculateDistance_sym a b : CalculateDistance a b = CalculateDistance b a.
Proof.
  rewrite !CalculateDistance_unfold.
  by rewrite (go_abs_sub_sym (X a)), (go_abs_sub_sym (Y a)).
Qed.

Lemma CalculateDistance_refl a : CalculateDistance a a = 0.
Proof.
  rewrite CalculateDistance_unfold. unfold int_sub.
  rewrite !Z.sub_diag. reflexivity.
Qed.

Lemma CalculateDistance_exact a b :
  valid_loc a → valid_loc b → manhattan a b ≤ max_int →
  CalculateDistance a b = manhattan a b.
Proof.
  intros [Hax Hay] [Hbx Hby] Hm. unfold manhattan in *.
  rewrite CalculateDistance_unfold.
  rewrite !go_abs_sub_exact by (done || lia).
  apply wrap_id. unfold is_int, min_int in *. lia.
Qed.

Lemma manhattan_nonneg a b : 0 ≤ manhattan a b.
Proof. unfold manhattan. lia. Qed.

(** C10 (amended). [CalculateDistance] is symmetric, zero on equal
    arguments and 7 from (0,0) to (3,4), for all coordinates; it equals the
    Manhattan distance |a.x - b.x| + |a.y - b.y|, and is then non-negative,
    whenever that distance fits in an [int] (at most 2^63 - 1). *)
Theorem CalculateDistance_metric (a b : Location) :
  CalculateDistance a b = CalculateDistance b a
  ∧ CalculateDistance a a = 0
  ∧ CalculateDistance (mkLocation 0 0) (mkLocation 3 4) = 7
  ∧ (valid_loc a → valid_loc b → manhattan a b ≤ max_int →
     CalculateDistance a b = manhattan a b ∧ 0 ≤ CalculateDistance a b).
Proof.
  split; [apply CalculateDistance_sym|].
  split; [apply CalculateDistance_refl|].
  split; [reflexivity|].
  intros Ha Hb Hm. rewrite CalculateDistance_exact by done.
  split; [done | apply manhattan_nonneg].
Qed.

Lemma CalculateDistance_metric_witness :
  valid_loc (mkLocation 0 0) ∧ valid_loc (mkLocation 3 4)
  ∧ manhattan (mkLocation 0 0) (mkLocation 3 4) ≤ max_int
  ∧ CalculateDistance (mkLocation 0 0) (mkLocation 3 4)
    = manhattan (mkLocation 0 0) (mkLocation 3 4)
  ∧ 0 ≤ CalculateDistance (mkLocation 0 0) (mkLocation 3 4).
Proof.
  assert (H1 : valid_loc (mkLocation 0 0)) by (vm_compute; intuition discriminate).
  assert (H2 : valid_loc (mkLocation 3 4)) by (vm_compute; intuition discriminate).
  assert (H3 : manhattan (mkLocation 0 0) (mkLocation 3 4) ≤ max_int)
    by (vm_compute; discriminate).
  split; [exact H1|]. split; [exact H2|]. split; [exact H3|].
  exact (proj2 (proj2 (proj2
    (CalculateDistance_metric (mkLocation 0 0) (mkLocation 3 4)))) H1 H2 H3).
Defined.

(** C10 (as stated) fails: for the valid coordinates (-2^63, 0) and (0, 0)
    the subtraction gives -2^63, whose negation wraps to -2^63 again, so the
    result is negative and differs from |a.x - b.x| + |a.y - b.y| = 2^63. *)
Lemma CalculateDistance_negative_on_overflow :
  valid_loc (mkLocation min_int 0) ∧ valid_loc (mkLocation 0 0)
  ∧ CalculateDistance (mkLocation min_int 0) (mkLocation 0 0) = - 2 ^ 63
  ∧ ¬ (0 ≤ CalculateDistance (mkLocation min_int 0) (mkLocation 0 0))
  ∧ CalculateDistance (mkLocation min_int 0) (mkLocation 0 0)
    ≠ manhattan (mkLocation min_int 0) (mkLocation 0 0).
Proof.
  split; [vm_compute; intuition discriminate|].
  split; [vm_compute; intuition discriminate|].
  split; [reflexivity|].
  split; [vm_compute; intros H; by apply H | vm_compute; discriminate].
Qed.

(** ** store.go *)

Lemma wf_store_lookup ts id p :
  wf_store ts → taxis ts !! id = Some p →
  (p < length (heap ts))%nat ∧ heap ts !! p = Some (heap ts !!! p)
  ∧ Taxi_ID (heap ts !!! p) = id.
Proof.
  intros Hwf Hp. specialize (Hwf id p Hp). simpl in Hwf.
  destruct (heap ts !! p) as [t|] eqn:Ht; [|done].
  injection Hwf as Hid.
  rewrite (list_lookup_total_correct _ _ _ Ht).
  split; [by eapply lookup_lt_Some | done].
Qed.

Lemma wf_store_inj ts id1 id2 p :
  wf_store ts → taxis ts !! id1 = Some p → taxis ts !! id2 = Some p →
  id1 = id2.
Proof.
  intros Hwf H1 H2.
  destruct (wf_store_lookup _ _ _ Hwf H1) as (_ & _ & <-).
  by destruct (wf_store_lookup _ _ _ Hwf H2) as (_ & _ & <-).
Qed.

Lemma wf_NewTaxiStore : wf_store NewTaxiStore.
Proof. apply map_Forall_empty. Qed.

Lemma wf_Add location ts : wf_store ts → wf_store (Add location ts).2.
Proof.
  intros Hwf id p. simpl. rewrite lookup_insert.
  case_decide as Hid.
  - intros [= <-]. subst id. by rewrite list_lookup_middle.
  - intros Hp. destruct (wf_store_lookup _ _ _ Hwf Hp) as (Hlt & Ht & Hi).
    rewrite lookup_app_l by done. by rewrite Ht, <- Hi.
Qed.

Lemma wf_alter (f : Taxi → Taxi) q ts :
  (∀ t, Taxi_ID (f t) = Taxi_ID t) →
  wf_store ts →
  wf_store {| heap := alter f q (heap ts); taxis := taxis ts;
              nextID := nextID ts |}.
Proof.
  intros Hf Hwf id p Hp. simpl in *.
  destruct (wf_store_lookup _ _ _ Hwf Hp) as (Hlt & Ht & Hi).
  rewrite list_lookup_alter. case_decide as E; [rewrite E|];
    rewrite Ht; simpl; by rewrite ?Hf, Hi.
Qed.

Lemma wf_SetAvailability id b ts :
  wf_store ts → wf_store (SetAvailability id b ts).2.
Proof.
  intros Hwf. unfold SetAvailability.
  destruct (taxis ts !! id); [|done]. by apply wf_alter.
Qed.

Lemma wf_UpdateLocation id l ts :
  wf_store ts → wf_store (UpdateLocation id l ts).2.
Proof.
  intros Hwf. unfold UpdateLocation.
  destruct (taxis ts !! id); [|done]. by apply wf_alter.
Qed.

Lemma GetAllAvailable_omap order ts :
  GetAllAvailable order ts = omap (available_at ts) order.
Proof.
  unfold GetAllAvailable.
  enough (∀ acc,
    foldl (λ available id,
             match taxis ts !! id with
             | Some taxi =>
                 if Taxi_IsAvailable (heap ts !!! taxi)
                 then available ++ [taxi] else available
             | None => available
             end) acc order = acc ++ omap (available_at ts) order) as H
    by apply (H []).
  induction order as [|id order IH]; intros acc; simpl.
  - by rewrite app_nil_r.
  - rewrite IH. unfold available_at at 2.
    destruct (taxis ts !! id) as [p|]; [|done].
    destruct (Taxi_IsAvailable (heap ts !!! p)); [|done].
    by rewrite <- app_assoc.
Qed.

Lemma range_order_elem ts order id :
  range_order ts order → id ∈ order ↔ is_Some (taxis ts !! id).
Proof.
  intros Ho. rewrite Ho, list_elem_of_fmap. split.
  - intros ([id' p] & -> & Hin). apply elem_of_map_to_list in Hin. by exists p.
  - intros [p Hp]. exists (id, p). split; [done|]. by apply elem_of_map_to_list.
Qed.

Lemma range_order_NoDup ts order : range_order ts order → NoDup order.
Proof. intros Ho. rewrite Ho. apply NoDup_fst_map_to_list. Qed.

Lemma elem_of_GetAllAvailable_1 ts order p :
  p ∈ GetAllAvailable order ts →
  ∃ id, id ∈ order ∧ taxis ts !! id = Some p
        ∧ Taxi_IsAvailable (heap ts !!! p) = true.
Proof.
  rewrite GetAllAvailable_omap, list_elem_of_omap.
  intros (id & Hin & Hav). exists id. split; [done|].
  unfold available_at in Hav.
  destruct (taxis ts !! id) as [q|]; [|done].
  destruct (Taxi_IsAvailable (heap ts !!! q)) eqn:E; [|done].
  by injection Hav as ->.
Qed.

Lemma elem_of_GetAllAvailable_2 ts order id p :
  id ∈ order → taxis ts !! id = Some p →
  Taxi_IsAvailable (heap ts !!! p) = true →
  p ∈ GetAllAvailable order ts.
Proof.
  intros Hin Hp Hav. rewrite GetAllAvailable_omap, list_elem_of_omap.
  exists id. split; [done|]. unfold available_at. by rewrite Hp, Hav.
Qed.

Lemma NoDup_omap_inj {A B} (f : A → option B) (l : list A) :
  (∀ x y z, f x = Some z → f y = Some z → x = y) →
  NoDup l → NoDup (omap f l).
Proof.
  intros Hinj. induction 1 as [|x l Hx Hl IH]; simpl; [constructor|].
  destruct (f x) as [z|] eqn:Hz; [|done].
  constructor; [|done]. rewrite list_elem_of_omap.
  intros (y & Hy & Hfy). by rewrite (Hinj _ _ _ Hz Hfy) in Hx.
Qed.

Lemma GetAllAvailable_NoDup ts order :
  wf_store ts → range_order ts order → NoDup (GetAllAvailable order ts).
Proof.
  intros Hwf Ho. rewrite GetAllAvailable_omap.
  apply NoDup_omap_inj; [|by eapply range_order_NoDup].
  intros id1 id2 p H1 H2. unfold available_at in *.
  destruct (taxis ts !! id1) as [p1|] eqn:E1; [|done].
  destruct (taxis ts !! id2) as [p2|] eqn:E2; [|done].
  destruct (Taxi_IsAvailable (heap ts !!! p1)); [|done].
  destruct (Taxi_IsAvailable (heap ts !!! p2)); [|done].
  simplify_eq. by eapply wf_store_inj.
Qed.

Lemma SetAvailability_lookup ts id b p :
  wf_store ts → taxis ts !! id = Some p →
  SetAvailability id b ts
  = (true, {| heap := alter (set_IsAvailable b) p (heap ts);
              taxis := taxis ts; nextID := nextID ts |})
  ∧ heap (SetAvailability id b ts).2 !!! p
    = set_IsAvailable b (heap ts !!! p).
Proof.
  intros Hwf Hp. destruct (wf_store_lookup _ _ _ Hwf Hp) as (Hlt & Ht & Hi).
  unfold SetAvailability. rewrite Hp. split; [done|]. simpl.
  by rewrite list_lookup_total_alter_eq.
Qed.

Lemma UpdateLocation_lookup ts id l p :
  wf_store ts → taxis ts !! id = Some p →
  UpdateLocation id l ts
  = (true, {| heap := alter (set_Location l) p (heap ts);
              taxis := taxis ts; nextID := nextID ts |})
  ∧ heap (UpdateLocation id l ts).2 !!! p = set_Location l (heap ts !!! p).
Proof.
  intros Hwf Hp. destruct (wf_store_lookup _ _ _ Hwf Hp) as (Hlt & Ht & Hi).
  unfold UpdateLocation. rewrite Hp. split; [done|]. simpl.
  by rewrite list_lookup_total_alter_eq.
Qed.

(** C9. [SetAvailability] and [UpdateLocation] return false exactly on an
    ID that is absent from the store and true on a present one; when they
    return false the store is unchanged: no record is created or mutated. *)
Theorem unknown_id_not_found
    (ts : TaxiStore) (id : Z) (b : bool) (loc : Location) :
  (Get id ts = None →
     (SetAvailability id b ts).1 = false ∧ (UpdateLocation id loc ts).1 = false)
  ∧ (is_Some (Get id ts) →
     (SetAvailability id b ts).1 = true ∧ (UpdateLocation id loc ts).1 = true)
  ∧ ((SetAvailability id b ts).1 = false → (SetAvailability id b ts).2 = ts)
  ∧ ((UpdateLocation id loc ts).1 = false → (UpdateLocation id loc ts).2 = ts).
Proof.
  unfold Get, SetAvailability, UpdateLocation.
  destruct (taxis ts !! id) as [p|]; simpl.
  - split; [done|]. split; [done|]. split; discriminate.
  - split; [done|]. split; [|done]. by intros [? ?].
Qed.

Lemma unknown_id_not_found_witness :
  (Get 7 NewTaxiStore = None
   ∧ (SetAvailability 7 true NewTaxiStore).1 = false
   ∧ (UpdateLocation 7 (mkLocation 2 3) NewTaxiStore).1 = false
   ∧ (SetAvailability 7 true NewTaxiStore).2 = NewTaxiStore
   ∧ (UpdateLocation 7 (mkLocation 2 3) NewTaxiStore).2 = NewTaxiStore)
  ∧ (is_Some (Get 1 one_taxi_store)
     ∧ (SetAvailability 1 false one_taxi_store).1 = true
     ∧ (UpdateLocation 1 (mkLocation 2 3) one_taxi_store).1 = true).
Proof.
  pose proof (unknown_id_not_found NewTaxiStore 7 true (mkLocation 2 3))
    as (Habsent & _ & Hsame1 & Hsame2).
  pose proof (unknown_id_not_found one_taxi_store 1 false (mkLocation 2 3))
    as (_ & Hpresent & _).
  assert (H0 : Get 7 NewTaxiStore = None) by reflexivity.
  assert (H1 : is_Some (Get 1 one_taxi_store)) by (eexists; reflexivity).
  destruct (Habsent H0) as [Ha Hu].
  split.
  - split; [exact H0|]. split; [exact Ha|]. split; [exact Hu|].
    split; [exact (Hsame1 Ha) | exact (Hsame2 Hu)].
  - split; [exact H1 | exact (Hpresent H1)].
Defined.

(** C5 (amended). [GetAllAvailable] returns a new slice that holds, once
    each, exactly the vehicles whose flag is true at call time; its
    elements are the store's own [*Taxi] pointers, not copies: a later
    [SetAvailability] or [UpdateLocation] on a returned vehicle is seen
    through the pointer the caller holds. *)
Theorem GetAllAvailable_snapshot_of_pointers
    (ts : TaxiStore) (order : list Z) :
  wf_store ts → range_order ts order →
  NoDup (GetAllAvailable order ts)
  ∧ (∀ p, p ∈ GetAllAvailable order ts ↔
          ∃ id, Get id ts = Some p ∧ Taxi_IsAvailable (heap ts !!! p) = true)
  ∧ (∀ p b, p ∈ GetAllAvailable order ts →
       heap (SetAvailability (Taxi_ID (heap ts !!! p)) b ts).2 !!! p
       = set_IsAvailable b (heap ts !!! p))
  ∧ (∀ p loc, p ∈ GetAllAvailable order ts →
       heap (UpdateLocation (Taxi_ID (heap ts !!! p)) loc ts).2 !!! p
       = set_Location loc (heap ts !!! p)).
Proof.
  intros Hwf Ho. split; [by apply GetAllAvailable_NoDup|].
  split; [|split].
  - intros p. split.
    + intros Hin. apply elem_of_GetAllAvailable_1 in Hin as (id & _ & Hp & Hav).
      by exists id.
    + intros (id & Hp & Hav). eapply elem_of_GetAllAvailable_2; [|done..].
      apply (range_order_elem _ _ _ Ho). by exists p.
  - intros p b Hin.
    apply elem_of_GetAllAvailable_1 in Hin as (id & _ & Hp & Hav).
    destruct (wf_store_lookup _ _ _ Hwf Hp) as (_ & _ & ->).
    by apply SetAvailability_lookup.
  - intros p loc Hin.
    apply elem_of_GetAllAvailable_1 in Hin as (id & _ & Hp & Hav).
    destruct (wf_store_lookup _ _ _ Hwf Hp) as (_ & _ & ->).
    by apply UpdateLocation_lookup.
Qed.

Lemma GetAllAvailable_snapshot_of_pointers_witness :
  wf_store one_taxi_store ∧ range_order one_taxi_store [1]
  ∧ GetAllAvailable [1] one_taxi_store = [0%nat]
  ∧ (∀ p b, p ∈ GetAllAvailable [1] one_taxi_store →
       heap (SetAvailability (Taxi_ID (heap one_taxi_store !!! p)) b
               one_taxi_store).2 !!! p
       = set_IsAvailable b (heap one_taxi_store !!! p)).
Proof.
  assert (Hwf : wf_store one_taxi_store)
    by (apply (bool_decide_eq_true_1 (wf_store one_taxi_store));
        vm_compute; reflexivity).
  assert (Ho : range_order one_taxi_store [1])
    by (apply (bool_decide_eq_true_1 (range_order one_taxi_store [1]));
        vm_compute; reflexivity).
  split; [exact Hwf|]. split; [exact Ho|]. split; [reflexivity|].
  exact (proj1 (proj2 (proj2
    (GetAllAvailable_snapshot_of_pointers one_taxi_store [1] Hwf Ho)))).
Defined.

(** C5 (as stated) fails: the record handed out for vehicle 1 is the store's
    own object, so it changes under the caller when the store is mutated. *)
Lemma GetAllAvailable_records_are_shared :
  GetAllAvailable [1] one_taxi_store = [0%nat]
  ∧ heap one_taxi_store !!! 0%nat = mkTaxi 1 (mkLocation 0 0) true
  ∧ heap (SetAvailability 1 false one_taxi_store).2 !!! 0%nat
    = mkTaxi 1 (mkLocation 0 0) false
  ∧ heap (UpdateLocation 1 (mkLocation 9 9) one_taxi_store).2 !!! 0%nat
    = mkTaxi 1 (mkLocation 9 9) true
  ∧ heap (SetAvailability 1 false one_taxi_store).2 !!! 0%nat
    ≠ heap one_taxi_store !!! 0%nat
  ∧ heap (UpdateLocation 1 (mkLocation 9 9) one_taxi_store).2 !!! 0%nat
    ≠ heap one_taxi_store !!! 0%nat.
Proof. repeat split; (reflexivity || (vm_compute; discriminate)). Qed.

(** *** Sequences of registrations *)

Lemma Add_inserted location ts :
  Get (Add location ts).1 (Add location ts).2 = Some (length (heap ts))
  ∧ heap (Add location ts).2 !! length (heap ts)
    = Some (mkTaxi (nextID ts) location true).
Proof.
  unfold Get. simpl. split; [apply lookup_insert_eq|].
  by rewrite list_lookup_middle.
Qed.

Lemma AddAll_cons l rest ts :
  AddAll (l :: rest) ts
  = (nextID ts :: (AddAll rest (Add l ts).2).1, (AddAll rest (Add l ts).2).2).
Proof. simpl. by destruct (AddAll rest _). Qed.

Lemma AddAll_spec locations : ∀ ts,
  is_int (nextID ts) →
  nextID (AddAll locations ts).2
  = wrap (nextID ts + Z.of_nat (length locations))
  ∧ (∀ (k : nat) id, (AddAll locations ts).1 !! k = Some id →
       (k < length locations)%nat ∧ id = wrap (nextID ts + Z.of_nat k)).
Proof.
  induction locations as [|l rest IH]; intros ts Hint.
  - simpl. rewrite Z.add_0_r, wrap_id by done. split; [done|].
    intros k id. by rewrite lookup_nil.
  - rewrite AddAll_cons. cbn [fst snd length].
    destruct (IH (Add l ts).2) as [Hnext Hids]; [apply wrap_is_int|].
    change (nextID (Add l ts).2) with (int_add (nextID ts) 1) in Hnext, Hids.
    split.
    + rewrite Hnext. unfold int_add. rewrite wrap_add_wrap_l. f_equal. lia.
    + intros [|k] id Hk; simpl in Hk.
      * injection Hk as <-. rewrite Z.add_0_r, wrap_id by done. lia.
      * apply Hids in Hk as [Hlt ->]. unfold int_add.
        rewrite wrap_add_wrap_l. split; [lia|]. f_equal. lia.
Qed.

(** C8. From a new store, every [Add] returns the next sequential ID, which
    is strictly greater than every ID returned before (so the IDs are
    strictly increasing in registration order, hence unique), and inserts a
    vehicle with that ID, the given location and [IsAvailable = true].
    [Add] is total: it has no failure result.  The hypothesis on the number
    of earlier registrations holds of every run: the vehicles registered
    all stay allocated, and a 64-bit address space does not hold 2^63 - 1
    of them. *)
Theorem Add_ids_strictly_increasing
    (locations : list Location) (location : Location)
    (ids : list Z) (ts ts' : TaxiStore) (id : Z) :
  Z.of_nat (length locations) < 2 ^ 63 - 1 →
  AddAll locations NewTaxiStore = (ids, ts) →
  Add location ts = (id, ts') →
  id = 1 + Z.of_nat (length locations)
  ∧ (∀ id', id' ∈ ids → id' < id)
  ∧ (∀ (i j : nat) a b,
       ids !! i = Some a → ids !! j = Some b → (i < j)%nat → a < b)
  ∧ ∃ p, Get id ts' = Some p
         ∧ heap ts' !! p = Some (mkTaxi id location true).
Proof.
  intros Hn HAll HAdd.
  destruct (AddAll_spec locations NewTaxiStore) as [Hnext Hids];
    [by vm_compute|].
  rewrite HAll in Hnext, Hids. simpl in Hnext, Hids.
  assert (Hid : id = nextID ts) by (by injection HAdd as <- _).
  assert (Hk : ∀ (k : nat) a, ids !! k = Some a →
                 (k < length locations)%nat ∧ a = 1 + Z.of_nat k).
  { intros k a Hka. apply Hids in Hka as [Hlt ->]. split; [done|].
    apply wrap_id. unfold is_int, min_int, max_int. lia. }
  assert (Hid' : id = 1 + Z.of_nat (length locations)).
  { rewrite Hid, Hnext. apply wrap_id. unfold is_int, min_int, max_int. lia. }
  split; [done|]. split; [|split].
  - intros id' Hin. apply list_elem_of_lookup_1 in Hin as [k Hka].
    apply Hk in Hka. lia.
  - intros i j a b Ha Hb Hij. apply Hk in Ha, Hb. lia.
  - pose proof (Add_inserted location ts) as [HGet Hheap].
    rewrite HAdd in HGet, Hheap. cbn [fst snd] in HGet, Hheap.
    exists (length (heap ts)). rewrite <- Hid in Hheap. by split.
Qed.

Lemma Add_ids_strictly_increasing_witness :
  Z.of_nat (length [mkLocation 0 0; mkLocation 10 10]) < 2 ^ 63 - 1
  ∧ (AddAll [mkLocation 0 0; mkLocation 10 10] NewTaxiStore).1 = [1; 2]
  ∧ (Add (mkLocation 4 4)
       (AddAll [mkLocation 0 0; mkLocation 10 10] NewTaxiStore).2).1 = 3
  ∧ (∀ id', id' ∈ [1; 2] → id' < 3).
Proof.
  split; [by vm_compute|]. split; [by vm_compute|]. split; [by vm_compute|].
  refine (proj1 (proj2
    (Add_ids_strictly_increasing [mkLocation 0 0; mkLocation 10 10]
       (mkLocation 4 4) [1; 2]
       (AddAll [mkLocation 0 0; mkLocation 10 10] NewTaxiStore).2
       (Add (mkLocation 4 4)
          (AddAll [mkLocation 0 0; mkLocation 10 10] NewTaxiStore).2).2
       3 _ _ _))).
  - by vm_compute.
  - by vm_compute.
  - by vm_compute.
Defined.

Lemma AddAll_replicate_first (n : nat) l :
  (0 < n)%nat →
  1 ∈ (AddAll (replicate n l) NewTaxiStore).1
  ∧ (Add l (AddAll (replicate n l) NewTaxiStore).2).1
    = wrap (1 + Z.of_nat n).
Proof.
  intros Hn. split.
  - destruct n as [|n]; [lia|].
    change (replicate (S n) l) with (l :: replicate n l).
    rewrite AddAll_cons. apply list_elem_of_here.
  - destruct (AddAll_spec (replicate n l) NewTaxiStore) as [Hnext _];
      [by vm_compute|].
    rewrite length_replicate in Hnext. exact Hnext.
Qed.

(** Why the statement carries the bound.  The embedding puts no limit on
    the number of allocated objects, and in it the counter wraps at the
    2^63-th registration, more than a machine holds: the first call
    returned 1, the counter has reached 2^63 - 1 and [nextID++] wraps, so
    the last call returns -2^63, which is smaller than 1. *)
Lemma Add_id_wraps_after_max_int :
  1 ∈ (AddAll (replicate (Z.to_nat (2 ^ 63 - 1)) (mkLocation 0 0))
         NewTaxiStore).1
  ∧ (Add (mkLocation 0 0)
       (AddAll (replicate (Z.to_nat (2 ^ 63 - 1)) (mkLocation 0 0))
          NewTaxiStore).2).1 = - 2 ^ 63
  ∧ ¬ (1 < - 2 ^ 63).
Proof.
  assert (Hn : Z.of_nat (Z.to_nat (2 ^ 63 - 1)) = 2 ^ 63 - 1)
    by (apply Z2Nat.id; discriminate).
  destruct (AddAll_replicate_first (Z.to_nat (2 ^ 63 - 1)) (mkLocation 0 0))
    as [H1 H2].
  { apply Nat2Z.inj_lt. rewrite Hn. reflexivity. }
  split; [exact H1|]. split; [|discriminate].
  rewrite H2, Hn. reflexivity.
Qed.

(** ** server.go *)

(** C3 (amended). The first [Shutdown] sets the flag and closes the
    admission queue, leaving the queued requests and everything else as they
    were, and later submissions are rejected; a second [Shutdown] is not a
    no-op: [close] on the already closed channel panics. *)
Theorem Shutdown_second_call_panics (s : System) :
  closed (rideRequests s) = false →
  ∃ s1, Shutdown s = Returns s1
    ∧ shutdown s1 = true
    ∧ closed (rideRequests s1) = true
    ∧ buf (rideRequests s1) = buf (rideRequests s)
    ∧ taxiStore s1 = taxiStore s
    ∧ rides s1 = rides s ∧ pending s1 = pending s
    ∧ (∀ clientID a b, RequestRide clientID a b s1 = Returns (false, s1))
    ∧ Shutdown s1 = Panics.
Proof.
  intros Hopen. unfold Shutdown, chan_close. simpl. rewrite Hopen.
  eexists. split; [reflexivity|]. simpl. repeat split; reflexivity.
Qed.

Lemma Shutdown_second_call_panics_witness :
  closed (rideRequests NewServer) = false
  ∧ ∃ s1, Shutdown NewServer = Returns s1 ∧ shutdown s1 = true
          ∧ Shutdown s1 = Panics.
Proof.
  split; [reflexivity|].
  destruct (Shutdown_second_call_panics NewServer eq_refl)
    as (s1 & H1 & H2 & _ & _ & _ & _ & _ & _ & H3).
  exists s1. split; [exact H1|]. split; [exact H2 | exact H3].
Defined.

(** C3 (as stated) fails: on a new server the first [Shutdown] returns and
    the second one faults. *)
Lemma Shutdown_twice_faults :
  ∃ s1, Shutdown NewServer = Returns s1
        ∧ Shutdown s1 = Panics
        ∧ ∀ s2, Shutdown s1 ≠ Returns s2.
Proof.
  eexists. split; [reflexivity|]. split; [reflexivity|]. discriminate.
Qed.




(** ** assigner.go *)

Lemma none_available_snapshot ts order :
  none_available ts → GetAllAvailable order ts = [].
Proof.
  intros Hnone. apply elem_of_nil_inv. intros p Hin.
  apply elem_of_GetAllAvailable_1 in Hin as (id & _ & Hp & Hav).
  by rewrite (Hnone id p Hp) in Hav.
Qed.

Lemma AssignClosestTaxi_empty order ts ride :
  GetAllAvailable order ts = [] →
  AssignClosestTaxi order ts ride = (None, ts, ride).
Proof. intros H. unfold AssignClosestTaxi. by rewrite H. Qed.

(** C6. When no vehicle is available, [AssignClosestTaxi] returns nil and
    leaves the store and the ride as they were (status CREATED, TaxiID
    unchanged); [processRequest] then only records the ride: nothing is put
    back on the queue and no completion is scheduled. *)
Theorem no_taxi_ride_stays_created
    (s : System) (order : list Z) (request : RideRequest) (ride : Ride) :
  none_available (taxiStore s) →
  Ride_Status ride = CREATED →
  AssignClosestTaxi order (taxiStore s) ride = (None, taxiStore s, ride)
  ∧ Ride_Status (AssignClosestTaxi order (taxiStore s) ride).2 = CREATED
  ∧ Ride_TaxiID (AssignClosestTaxi order (taxiStore s) ride).2
    = Ride_TaxiID ride
  ∧ taxiStore (processRequest order request s) = taxiStore s
  ∧ rideRequests (processRequest order request s) = rideRequests s
  ∧ pending (processRequest order request s) = pending s
  ∧ rides (processRequest order request s)
    = rides s ++ [new_ride (nextRideID s) request].
Proof.
  intros Hnone Hst.
  pose proof (none_available_snapshot _ order Hnone) as Hempty.
  rewrite (AssignClosestTaxi_empty _ _ ride Hempty).
  split; [done|]. split; [done|]. split; [done|].
  unfold processRequest.
  rewrite (AssignClosestTaxi_empty _ _ _ Hempty). by simpl.
Qed.

Lemma no_taxi_ride_stays_created_witness :
  none_available (taxiStore NewServer)
  ∧ AssignClosestTaxi [] (taxiStore NewServer)
      (new_ride 1 (mkRideRequest 1 (mkLocation 0 0) (mkLocation 5 0)))
    = (None, taxiStore NewServer,
       new_ride 1 (mkRideRequest 1 (mkLocation 0 0) (mkLocation 5 0)))
  ∧ rides (processRequest []
             (mkRideRequest 1 (mkLocation 0 0) (mkLocation 5 0)) NewServer)
    = [mkRide 1 1 0 (mkLocation 0 0) (mkLocation 5 0) CREATED].
Proof.
  assert (Hnone : none_available (taxiStore NewServer)).
  { intros id p Hp. vm_compute in Hp. discriminate Hp. }
  pose proof (no_taxi_ride_stays_created NewServer []
                (mkRideRequest 1 (mkLocation 0 0) (mkLocation 5 0))
                (new_ride 1 (mkRideRequest 1 (mkLocation 0 0) (mkLocation 5 0)))
                Hnone eq_refl) as (H1 & _ & _ & _ & _ & _ & H2).
  split; [exact Hnone|]. split; [exact H1 | exact H2].
Defined.

Section closest.
Variables (h : list Taxi) (pickup : Location).

Let d := dist_to h pickup.

Lemma closest_loop_elem l : ∀ acc cd p cd',
  closest_loop h pickup l acc cd = (Some p, cd') → acc = Some p ∨ p ∈ l.
Proof.
  induction l as [|q l IH]; intros acc cd p cd' Hloop; simpl in Hloop.
  - left. congruence.
  - destruct ((cd =? -1) || _); apply IH in Hloop as [Hacc|Hin].
    + right. injection Hacc as ->. apply list_elem_of_here.
    + right. by apply list_elem_of_further.
    + by left.
    + right. by apply list_elem_of_further.
Qed.

Lemma first_min_keep pre i p q :
  first_min d pre i p → d p ≤ d q → first_min d (pre ++ [q]) i p.
Proof.
  intros (Hi & Hmin & Hfirst) Hq.
  pose proof (lookup_lt_Some _ _ _ Hi) as Hlt.
  split; [by rewrite lookup_app_l|]. split.
  - intros q' [Hin| ->%list_elem_of_singleton]%elem_of_app; auto.
  - intros j q' Hj Hq'. apply (Hfirst j); [done|].
    rewrite lookup_app_l in Hq' by lia. done.
Qed.

Lemma first_min_replace pre i p q :
  first_min d pre i p → d q < d p →
  first_min d (pre ++ [q]) (length pre) q.
Proof.
  intros (Hi & Hmin & Hfirst) Hq.
  split; [by rewrite list_lookup_middle|]. split.
  - intros q' [Hin| ->%list_elem_of_singleton]%elem_of_app; [|lia].
    specialize (Hmin q' Hin). lia.
  - intros j q' Hj Hq'. rewrite lookup_app_l in Hq' by lia.
    apply list_elem_of_lookup_2 in Hq'. specialize (Hmin q' Hq'). lia.
Qed.

Lemma closest_loop_first_min l : ∀ pre i p,
  first_min d pre i p → d p ≠ -1 →
  (∀ q, q ∈ l → d q ≠ -1) →
  ∃ i' p', closest_loop h pickup l (Some p) (d p) = (Some p', d p')
           ∧ first_min d (pre ++ l) i' p'.
Proof.
  induction l as [|q l IH]; intros pre i p Hfm Hp Hl.
  - exists i, p. by rewrite app_nil_r.
  - simpl. fold (dist_to h pickup q). fold d.
    destruct (Z.eqb_spec (d p) (-1)) as [|_]; [done|]. simpl.
    assert (Hl' : ∀ q', q' ∈ l → d q' ≠ -1)
      by (intros q' Hq'; apply Hl; by apply list_elem_of_further).
    rewrite (cons_middle q pre l), app_assoc.
    destruct (Z.ltb_spec (d q) (d p)) as [Hlt|Hge].
    + apply (IH _ (length pre)); [by eapply first_min_replace| |done].
      apply Hl, list_elem_of_here.
    + apply (IH _ i); [by apply first_min_keep|done..].
Qed.

Lemma closest_loop_from_start q l :
  (∀ q', q' ∈ q :: l → d q' ≠ -1) →
  ∃ i p, closest_loop h pickup (q :: l) None (-1) = (Some p, d p)
         ∧ first_min d (q :: l) i p.
Proof.
  intros Hl. simpl. fold (dist_to h pickup q). fold d.
  apply (closest_loop_first_min l [q] 0%nat q).
  - split; [done|]. split.
    + by intros q' ->%list_elem_of_singleton.
    + intros j q' Hj. lia.
  - apply Hl, list_elem_of_here.
  - intros q' Hq'. by apply Hl, list_elem_of_further.
Qed.
End closest.

Lemma closest_loop_is_Some h pickup l : ∀ a cd,
  ∃ p cd', closest_loop h pickup l (Some a) cd = (Some p, cd').
Proof.
  induction l as [|q l IH]; intros a cd; simpl; [by eauto|].
  destruct ((cd =? -1) || _); apply IH.
Qed.

Lemma first_min_ext (d d' : nat → Z) l i p :
  (∀ q, q ∈ l → d q = d' q) → first_min d l i p → first_min d' l i p.
Proof.
  intros Hext (Hi & Hmin & Hfirst).
  assert (Hp : d p = d' p) by (apply Hext; by eapply list_elem_of_lookup_2).
  split; [done|]. split.
  - intros q Hq. rewrite <- Hp, <- (Hext q Hq). by apply Hmin.
  - intros j q Hj Hq. rewrite <- Hp, <- (Hext q); [by eapply Hfirst|].
    by eapply list_elem_of_lookup_2.
Qed.

(** What a call of [AssignClosestTaxi] does on a well-formed store. *)
Lemma AssignClosestTaxi_cases order ts ride :
  wf_store ts →
  (GetAllAvailable order ts = []
   ∧ AssignClosestTaxi order ts ride = (None, ts, ride))
  ∨ (∃ p id cd,
       closest_loop (heap ts) (Ride_StartLocation ride)
         (GetAllAvailable order ts) None (-1) = (Some p, cd)
       ∧ p ∈ GetAllAvailable order ts
       ∧ taxis ts !! id = Some p
       ∧ Taxi_ID (heap ts !!! p) = id
       ∧ Taxi_IsAvailable (heap ts !!! p) = true
       ∧ AssignClosestTaxi order ts ride
         = (Some p,
            {| heap := alter (set_IsAvailable false) p (heap ts);
               taxis := taxis ts; nextID := nextID ts |},
            assign_ride id ride)).
Proof.
  intros Hwf. unfold AssignClosestTaxi.
  destruct (GetAllAvailable order ts) as [|q l] eqn:Hsnap; [by left|].
  right. change (length (q :: l) =? 0)%nat with false. cbv iota.
  destruct (closest_loop_is_Some (heap ts) (Ride_StartLocation ride) l q
              (CalculateDistance (Taxi_Location (heap ts !!! q))
                 (Ride_StartLocation ride))) as (p & cd & Hloop).
  assert (Hloop' : closest_loop (heap ts) (Ride_StartLocation ride)
                     (q :: l) None (-1) = (Some p, cd)) by exact Hloop.
  rewrite Hloop'.
  assert (Hin : p ∈ GetAllAvailable order ts).
  { rewrite Hsnap. by apply closest_loop_elem in Hloop' as [|]. }
  apply elem_of_GetAllAvailable_1 in Hin as Hid.
  destruct Hid as (id & _ & Hp & Hav).
  destruct (wf_store_lookup _ _ _ Hwf Hp) as (_ & _ & Hid).
  exists p, id, cd. rewrite Hid.
  destruct (SetAvailability_lookup ts id false p Hwf Hp) as [-> _].
  rewrite <- Hsnap. done.
Qed.

(** C2 (amended). For every ride and every non-empty snapshot of available
    vehicles in which every vehicle's Manhattan distance to the pickup fits in
    an [int], [AssignClosestTaxi] selects a vehicle whose Manhattan distance
    to the pickup is minimal over the snapshot, the first such vehicle in
    snapshot order.  With vehicles at (0,0) and (10,10) and pickup (1,1) it
    selects the vehicle at (0,0), in whichever order the map is ranged over. *)
Theorem AssignClosestTaxi_first_closest :
  (∀ (ts : TaxiStore) (order : list Z) (ride : Ride),
     wf_store ts →
     valid_loc (Ride_StartLocation ride) →
     (∀ p, p ∈ GetAllAvailable order ts →
        valid_loc (Taxi_Location (heap ts !!! p))
        ∧ manhattan (Taxi_Location (heap ts !!! p))
            (Ride_StartLocation ride) ≤ max_int) →
     GetAllAvailable order ts ≠ [] →
     ∃ i p, (AssignClosestTaxi order ts ride).1.1 = Some p
       ∧ first_min
           (λ q, manhattan (Taxi_Location (heap ts !!! q))
                   (Ride_StartLocation ride))
           (GetAllAvailable order ts) i p)
  ∧ (∀ (order : list Z) (ride : Ride),
       range_order two_taxi_store order →
       Ride_StartLocation ride = mkLocation 1 1 →
       ∃ p, (AssignClosestTaxi order two_taxi_store ride).1.1 = Some p
            ∧ Taxi_Location (heap two_taxi_store !!! p) = mkLocation 0 0).
Proof.
  split.
  - intros ts order ride Hwf Hpick Hfit Hne.
    assert (Hexact : ∀ q, q ∈ GetAllAvailable order ts →
              dist_to (heap ts) (Ride_StartLocation ride) q
              = manhattan (Taxi_Location (heap ts !!! q))
                  (Ride_StartLocation ride)).
    { intros q Hq. destruct (Hfit q Hq) as [Hv Hm].
      by apply CalculateDistance_exact. }
    destruct (AssignClosestTaxi_cases order ts ride Hwf)
      as [[Hnil _]|(p & id & cd & Hloop & _ & _ & _ & _ & ->)]; [done|].
    destruct (GetAllAvailable order ts) as [|q l] eqn:Hsnap; [done|].
    destruct (closest_loop_from_start (heap ts) (Ride_StartLocation ride) q l)
      as (i & p' & Hloop' & Hfm).
    { intros q' Hq'. rewrite (Hexact q' Hq').
      pose proof (manhattan_nonneg (Taxi_Location (heap ts !!! q'))
                    (Ride_StartLocation ride)). lia. }
    rewrite Hloop in Hloop'. injection Hloop' as -> _.
    exists i, p'. split; [done|]. by eapply first_min_ext.
  - intros order ride Ho Hpick. unfold range_order in Ho.
    vm_compute in Ho. symmetry in Ho.
    destruct ride as [rid cid tid sl el st]. simpl in Hpick. subst sl.
    apply Permutation.Permutation_length_2_inv in Ho as [-> | ->];
      exists 0%nat; split; reflexivity.
Qed.

Lemma AssignClosestTaxi_first_closest_witness :
  wf_store two_taxi_store
  ∧ range_order two_taxi_store [2; 1]
  ∧ GetAllAvailable [2; 1] two_taxi_store = [1%nat; 0%nat]
  ∧ (∃ i p, (AssignClosestTaxi [2; 1] two_taxi_store
               (new_ride 1 (mkRideRequest 1 (mkLocation 1 1)
                              (mkLocation 5 0)))).1.1 = Some p
       ∧ first_min
           (λ q, manhattan (Taxi_Location (heap two_taxi_store !!! q))
                   (mkLocation 1 1))
           (GetAllAvailable [2; 1] two_taxi_store) i p)
  ∧ ∃ p, (AssignClosestTaxi [2; 1] two_taxi_store
            (new_ride 1 (mkRideRequest 1 (mkLocation 1 1) (mkLocation 5 0)))).1.1
         = Some p
         ∧ Taxi_Location (heap two_taxi_store !!! p) = mkLocation 0 0.
Proof.
  assert (Ho : range_order two_taxi_store [2; 1])
    by (apply (bool_decide_eq_true_1 (range_order two_taxi_store [2; 1]));
        vm_compute; reflexivity).
  assert (Hwf : wf_store two_taxi_store)
    by (apply (bool_decide_eq_true_1 (wf_store two_taxi_store));
        vm_compute; reflexivity).
  split; [exact Hwf|]. split; [exact Ho|]. split; [reflexivity|]. split.
  - refine (proj1 AssignClosestTaxi_first_closest two_taxi_store [2; 1]
              (new_ride 1 (mkRideRequest 1 (mkLocation 1 1) (mkLocation 5 0)))
              Hwf _ _ _).
    + vm_compute. intuition discriminate.
    + intros p Hp.
      change (GetAllAvailable [2; 1] two_taxi_store)
        with [1%nat; 0%nat] in Hp.
      apply elem_of_cons in Hp as [->|Hp];
        [|apply elem_of_cons in Hp as [->|Hp];
          [|by apply elem_of_nil in Hp]];
        vm_compute; intuition discriminate.
    + discriminate.
  - exact (proj2 AssignClosestTaxi_first_closest [2; 1]
             (new_ride 1 (mkRideRequest 1 (mkLocation 1 1) (mkLocation 5 0)))
             Ho eq_refl).
Defined.

(** C2 (as stated) fails at the edge of the [int] range.  With vehicles at
    (0,-2^63), (-2^63,0), (2^63-6,0) and pickup (2^63-1,0) the computed
    distances are -1, 1 and 5: the first one collides with the "none yet"
    marker, so the second vehicle replaces it and is selected.  Its computed
    distance is not minimal (-1 < 1) and neither is its Manhattan distance
    (2^64 - 1, against 5 for the third vehicle). *)
Lemma AssignClosestTaxi_not_closest_on_overflow :
  wf_store far_store
  ∧ range_order far_store [1; 2; 3]
  ∧ GetAllAvailable [1; 2; 3] far_store = [0%nat; 1%nat; 2%nat]
  ∧ (AssignClosestTaxi [1; 2; 3] far_store far_ride).1.1 = Some 1%nat
  ∧ dist_to (heap far_store) far_pickup 0%nat = -1
  ∧ dist_to (heap far_store) far_pickup 1%nat = 1
  ∧ manhattan (Taxi_Location (heap far_store !!! 2%nat)) far_pickup = 5
  ∧ manhattan (Taxi_Location (heap far_store !!! 1%nat)) far_pickup
    = 2 ^ 64 - 1.
Proof.
  split.
  { apply (bool_decide_eq_true_1 (wf_store far_store)). by vm_compute. }
  split.
  { apply (bool_decide_eq_true_1 (range_order far_store [1; 2; 3])).
    by vm_compute. }
  repeat split; by vm_compute.
Qed.

(** ** The transition system *)

Lemma Inv_NewServer : Inv NewServer.
Proof.
  split; [apply wf_NewTaxiStore|]. split.
  { split; [reflexivity|]. intros id p Hp.
    change (taxis (taxiStore NewServer)) with (∅ : gmap Z nat) in Hp.
    by rewrite lookup_empty in Hp. }
  split; [intros k i p d Hk; simpl in Hk; discriminate Hk|].
  intros _. split.
  { intros id p Hp. unfold Get in Hp.
    change (taxis (taxiStore NewServer)) with (∅ : gmap Z nat) in Hp.
    by rewrite lookup_empty in Hp. }
  split; [intros i j r1 r2 id Hi; simpl in Hi; discriminate Hi|].
  split; [intros i r id Hi; simpl in Hi; discriminate Hi|].
  split; [intros k i p d Hk; simpl in Hk; discriminate Hk|].
  intros k1 k2 i p1 p2 d1 d2 Hk; simpl in Hk; discriminate Hk.
Qed.

(** The invariant only reads the store, the rides and the goroutines. *)
Lemma Inv_ext s s' :
  taxiStore s' = taxiStore s → rides s' = rides s → pending s' = pending s →
  Inv s → Inv s'.
Proof.
  destruct s, s'. simpl. intros -> -> ->.
  unfold Inv, pending_wf, reservations_wf, flag_matches_reservation,
    one_reservation_per_vehicle. simpl. done.
Qed.

Lemma issued_fresh ts :
  issued ts → Z.of_nat (length (heap ts)) < 2 ^ 64 →
  taxis ts !! nextID ts = None.
Proof.
  intros [Hnext Hiss] Hlt.
  destruct (taxis ts !! nextID ts) as [p|] eqn:E; [|done].
  apply Hiss in E as (k & Hk & Heq). rewrite Hnext in Heq.
  by apply wrap_add_of_nat_inj in Heq.
Qed.

Lemma issued_Add l ts : issued ts → issued (Add l ts).2.
Proof.
  intros [Hnext Hiss]. split; simpl.
  - rewrite length_app. simpl. unfold int_add.
    rewrite Hnext, wrap_add_wrap_l. f_equal. lia.
  - intros id p. rewrite length_app, lookup_insert. simpl.
    case_decide as Hid.
    + intros _. exists (length (heap ts)). split; [lia|]. by rewrite <- Hid.
    + intros Hp. apply Hiss in Hp as (k & Hk & ->). exists k. split; [lia|done].
Qed.

Lemma issued_alter (f : Taxi → Taxi) q ts :
  issued ts →
  issued {| heap := alter f q (heap ts); taxis := taxis ts;
            nextID := nextID ts |}.
Proof. intros [Hnext Hiss]. split; simpl; by rewrite length_alter. Qed.

Lemma heap_Add_old l ts (p : nat) :
  (p < length (heap ts))%nat → heap (Add l ts).2 !!! p = heap ts !!! p.
Proof. intros Hp. simpl. by rewrite lookup_total_app_l. Qed.

Lemma Inv_RegisterTaxi l s : Inv s → Inv (RegisterTaxi l s).2.
Proof.
  intros (Hwf & Hiss & Hpw & Hres).
  split; [by apply wf_Add|]. split; [by apply issued_Add|]. split.
  { intros k i p d Hk. destruct (Hpw k i p d Hk) as (Hi & Hp & [q Hq] & Hid).
    change (rides (RegisterTaxi l s).2) with (rides s).
    change (taxiStore (RegisterTaxi l s).2) with (Add l (taxiStore s)).2.
    rewrite heap_Add_old by done.
    split; [done|]. split; [simpl; rewrite length_app; lia|].
    split; [|done]. simpl. rewrite lookup_insert. case_decide; eauto. }
  change (taxiStore (RegisterTaxi l s).2) with (Add l (taxiStore s)).2.
  simpl heap. rewrite length_app. simpl length. intros Hb.
  destruct Hres as (Hflag & Huniq & Hdom & Hpend & Hpu); [lia|].
  pose proof (issued_fresh _ Hiss ltac:(lia)) as Hfresh.
  split; [|split; [done|split; [|split; [|done]]]].
  - intros id p. unfold Get. simpl. rewrite lookup_insert.
    case_decide as Hid.
    + intros [= <-]. subst id. rewrite list_lookup_total_middle by done.
      simpl. split; [done|]. intros (i & r & Hi & Hr).
      destruct (Hdom i r _ Hi Hr) as [q Hq]. congruence.
    + intros Hp. destruct (wf_store_lookup _ _ _ Hwf Hp) as (Hlt & _ & _).
      rewrite lookup_total_app_l by done. by apply Hflag.
  - intros i r id Hi Hr. simpl. rewrite lookup_insert.
    case_decide; [eauto|]. by eapply Hdom.
  - intros k i p d Hk. destruct (Hpend k i p d Hk) as (r & Hi & Hst & Hp).
    exists r. split; [done|]. split; [done|]. simpl.
    rewrite lookup_insert_ne; [done|congruence].
Qed.

Lemma reserves_set_Status_FINISHED r id : ¬ reserves (set_Status FINISHED r) id.
Proof. by intros [[?|?] _]. Qed.

Ltac proj_simpl :=
  cbn [taxiStore rides pending rideRequests shutdown nextRideID
       heap taxis nextID] in *.

Lemma Inv_idle_ride s s' r :
  Inv s → Ride_Status r = CREATED →
  taxiStore s' = taxiStore s → rides s' = rides s ++ [r] →
  pending s' = pending s →
  Inv s'.
Proof.
  intros (Hwf & Hiss & Hpw & Hres) Hst Hts Hrs Hpd.
  destruct s' as [ts' c' sh' nr' rs' pd']. simpl in Hts, Hrs, Hpd. subst.
  split; [done|]. split; [done|]. split.
  { intros k i p d Hk. simpl in *.
    destruct (Hpw _ _ _ _ Hk) as (Hi & Hp & Hs & Hid).
    rewrite length_app, lookup_total_app_l by done.
    split; [lia|done]. }
  simpl. intros Hb. destruct (Hres Hb) as (Hflag & Huniq & Hdom & Hpend & Hpu).
  assert (Hold : ∀ (i : nat) r' id,
            (rides s ++ [r]) !! i = Some r' → reserves r' id →
            rides s !! i = Some r').
  { intros i r' id [[_ Hi]|[_ <-]]%lookup_snoc_Some [[Ha|Ha] _];
      [done|done|congruence..]. }
  split; [|split; [|split; [|split]]]; simpl.
  - intros id p Hp. rewrite (Hflag id p Hp).
    split; intros (i & r' & Hi & Hr); exists i, r'; (split; [|done]).
    + by apply lookup_app_l_Some.
    + by eapply Hold.
  - intros i j r1 r2 id Hi Hj H1 H2.
    eapply Huniq; [by eapply Hold | by eapply Hold | done..].
  - intros i r' id Hi Hr. eapply Hdom; [by eapply Hold|done].
  - intros k i p d Hk. destruct (Hpend _ _ _ _ Hk) as (r' & Hi & Hs & Hp).
    exists r'. split; [by apply lookup_app_l_Some|done].
  - done.
Qed.

Lemma Taxi_ID_alter (f : Taxi → Taxi) (q p : nat) (h : list Taxi) :
  (∀ t, Taxi_ID (f t) = Taxi_ID t) →
  Taxi_ID (alter f q h !!! p) = Taxi_ID (h !!! p).
Proof.
  intros Hf. destruct (decide (q = p)) as [->|Hne].
  - destruct (decide (p < length h)%nat) as [Hlt|Hge].
    + by rewrite list_lookup_total_alter_eq.
    + rewrite !list_lookup_total_alt.
      rewrite list_lookup_alter_eq, (lookup_ge_None_2 h p) by lia. done.
  - by rewrite list_lookup_total_alter_ne.
Qed.

Lemma Inv_assigned_ride s s' (p : nat) id r d :
  Inv s →
  taxis (taxiStore s) !! id = Some p →
  Taxi_IsAvailable (heap (taxiStore s) !!! p) = true →
  Ride_TaxiID r = id → Ride_Status r = IN_PROGRESS →
  taxiStore s'
  = {| heap := alter (set_IsAvailable false) p (heap (taxiStore s));
       taxis := taxis (taxiStore s); nextID := nextID (taxiStore s) |} →
  rides s' = rides s ++ [r] →
  pending s' = pending s ++ [(length (rides s), p, d)] →
  Inv s'.
Proof.
  intros (Hwf & Hiss & Hpw & Hres) Hp Hav Hid Hst Hts Hrs Hpd.
  destruct s' as [ts' c' sh' nr' rs' pd']. simpl in Hts, Hrs, Hpd. subst ts' rs' pd'.
  destruct (wf_store_lookup _ _ _ Hwf Hp) as (Hlt & _ & HID).
  split; [by apply wf_alter|]. split; [by apply issued_alter|]. split.
  { intros k i q d' Hk. proj_simpl. rewrite length_alter, length_app.
    rewrite Taxi_ID_alter by done.
    apply lookup_snoc_Some in Hk as [[_ Hk]|[_ Hk]].
    - destruct (Hpw _ _ _ _ Hk) as (Hi & Hq & Hs & Hd).
      rewrite lookup_total_app_l by done. split; [lia|done].
    - injection Hk as <- <- <-. rewrite list_lookup_total_middle by done.
      simpl. split; [lia|]. split; [done|]. rewrite HID, Hp. eauto. }
  proj_simpl. rewrite length_alter. intros Hb.
  destruct (Hres Hb) as (Hflag & Huniq & Hdom & Hpend & Hpu).
  assert (Hnone : ∀ (i : nat) r', rides s !! i = Some r' → ¬ reserves r' id).
  { intros i r' Hi Hr.
    assert (Hf : Taxi_IsAvailable (heap (taxiStore s) !!! p) = false)
      by (apply (Hflag id p Hp); eauto).
    congruence. }
  assert (Hnew : reserves r id) by (split; [by right|done]).
  assert (Hcases : ∀ (i : nat) r' id',
            (rides s ++ [r]) !! i = Some r' → reserves r' id' →
            (rides s !! i = Some r' ∧ id' ≠ id)
            ∨ (i = length (rides s) ∧ r' = r ∧ id' = id)).
  { intros i r' id' [[_ Hi]|[-> <-]]%lookup_snoc_Some Hr.
    - left. split; [done|]. intros ->. by eapply Hnone.
    - right. destruct Hr as [_ Hr]. by rewrite Hid in Hr. }
  split; [|split; [|split; [|split]]]; proj_simpl.
  - intros id' q Hq. unfold Get in Hq. proj_simpl.
    destruct (decide (id' = id)) as [->|Hne].
    + assert (q = p) as -> by congruence.
      rewrite list_lookup_total_alter_eq by done. simpl. split; [|done].
      intros _. exists (length (rides s)), r.
      by rewrite list_lookup_middle.
    + assert (q ≠ p) as Hqp.
      { intros ->. apply Hne. by eapply wf_store_inj. }
      rewrite list_lookup_total_alter_ne by done.
      rewrite (Hflag id' q Hq).
      split; intros (i & r' & Hi & Hr); exists i, r'; (split; [|done]).
      * by apply lookup_app_l_Some.
      * by destruct (Hcases _ _ _ Hi Hr) as [[? _]|(_ & _ & ?)].
  - intros i j r1 r2 id' Hi Hj H1 H2.
    destruct (Hcases _ _ _ Hi H1) as [[Hi' Hne1]|(-> & _ & ->)],
             (Hcases _ _ _ Hj H2) as [[Hj' Hne2]|(-> & _ & Heq)];
      try done. by eapply Huniq.
  - intros i r' id' Hi Hr.
    destruct (Hcases _ _ _ Hi Hr) as [[Hi' _]|(_ & _ & ->)]; [|eauto].
    by eapply Hdom.
  - intros k i q d' [[_ Hk]|[_ Hk]]%lookup_snoc_Some.
    + destruct (Hpend _ _ _ _ Hk) as (r' & Hi & Hs & Hq).
      exists r'. split; [by apply lookup_app_l_Some|done].
    + injection Hk as <- <- <-. exists r.
      rewrite list_lookup_middle by done. by rewrite Hid.
  - assert (Hold : ∀ (k i q : nat) d', pending s !! k = Some (i, q, d') →
              (k < length (pending s))%nat ∧ (i < length (rides s))%nat).
    { intros k i q d' Hk. split; [by eapply lookup_lt_Some|].
      destruct (Hpend _ _ _ _ Hk) as (r' & Hi & _). by eapply lookup_lt_Some. }
    intros k1 k2 i p1 p2 d1 d2
      [[_ H1]|[-> H1]]%lookup_snoc_Some [[_ H2]|[-> H2]]%lookup_snoc_Some.
    + by eapply Hpu.
    + injection H2 as <- _ _. apply Hold in H1. lia.
    + injection H1 as <- _ _. apply Hold in H2. lia.
    + done.
Qed.

Lemma Inv_processRequest order request s :
  Inv s → Inv (processRequest order request s).
Proof.
  intros HInv. pose proof HInv as (Hwf & _).
  unfold processRequest.
  destruct (AssignClosestTaxi_cases order (taxiStore s)
              (new_ride (nextRideID s) request) Hwf)
    as [[_ Hnone]|(p & id & cd & _ & _ & Hp & Hid & Hav & Hsome)].
  - change (AssignClosestTaxi order (taxiStore s) _)
      with (AssignClosestTaxi order (taxiStore s)
              (new_ride (nextRideID s) request)).
    rewrite Hnone.
    by apply (Inv_idle_ride s _ (new_ride (nextRideID s) request)).
  - change (AssignClosestTaxi order (taxiStore s) _)
      with (AssignClosestTaxi order (taxiStore s)
              (new_ride (nextRideID s) request)).
    rewrite Hsome.
    eapply (Inv_assigned_ride s _ p id
              (set_Status IN_PROGRESS
                 (assign_ride id (new_ride (nextRideID s) request)))
              _ HInv Hp Hav); reflexivity.
Qed.

Lemma Ride_TaxiID_alter (st : RideStatus) (i j : nat) (rs : list Ride) :
  Ride_TaxiID (alter (set_Status st) i rs !!! j) = Ride_TaxiID (rs !!! j).
Proof.
  destruct (decide (i = j)) as [->|Hne].
  - destruct (decide (j < length rs)%nat) as [Hlt|Hge].
    + by rewrite list_lookup_total_alter_eq.
    + rewrite !list_lookup_total_alt.
      rewrite list_lookup_alter_eq, (lookup_ge_None_2 rs j) by lia. done.
  - by rewrite list_lookup_total_alter_ne.
Qed.

Lemma lookup_delete_original {A} (l : list A) (k j : nat) x :
  delete k l !! j = Some x →
  l !! (if decide (j < k)%nat then j else S j) = Some x.
Proof. by rewrite list_lookup_delete. Qed.

Lemma endRide_eq s (i p p' : nat) :
  taxis (taxiStore s) !! Taxi_ID (heap (taxiStore s) !!! p) = Some p' →
  endRide i p s
  = {| taxiStore :=
         {| heap :=
              alter (set_IsAvailable true) p'
                (alter (set_Location
                          (Ride_EndLocation
                             (alter (set_Status FINISHED) i (rides s) !!! i)))
                   p' (heap (taxiStore s)));
            taxis := taxis (taxiStore s); nextID := nextID (taxiStore s) |};
       rideRequests := rideRequests s; shutdown := shutdown s;
       nextRideID := nextRideID s;
       rides := alter (set_Status FINISHED) i (rides s);
       pending := pending s |}.
Proof.
  intros Hp'. unfold endRide, UpdateLocation, SetAvailability.
  rewrite Hp'. cbn [taxis]. by rewrite Hp'.
Qed.

Lemma Inv_finished s s' (k i p p' : nat) d loc :
  Inv s →
  pending s !! k = Some (i, p, d) →
  taxis (taxiStore s) !! Taxi_ID (heap (taxiStore s) !!! p) = Some p' →
  taxiStore s'
  = {| heap := alter (set_IsAvailable true) p'
                 (alter (set_Location loc) p' (heap (taxiStore s)));
       taxis := taxis (taxiStore s); nextID := nextID (taxiStore s) |} →
  rides s' = alter (set_Status FINISHED) i (rides s) →
  pending s' = delete k (pending s) →
  Inv s'.
Proof.
  intros (Hwf & Hiss & Hpw & Hres) Hk Hp' Hts Hrs Hpd.
  destruct s' as [ts' c' sh' nr' rs' pd']. simpl in Hts, Hrs, Hpd.
  subst ts' rs' pd'.
  set (F := λ t, set_IsAvailable true (set_Location loc t)).
  rewrite list_alter_alter_eq.
  change (set_IsAvailable true ∘ set_Location loc) with F.
  assert (HF : ∀ t, Taxi_ID (F t) = Taxi_ID t) by done.
  destruct (wf_store_lookup _ _ _ Hwf Hp') as (Hlt' & _ & HID').
  split; [by apply wf_alter|]. split; [by apply issued_alter|]. split.
  { intros k0 i0 q d0 Hk0%lookup_delete_original. proj_simpl.
    destruct (Hpw _ _ _ _ Hk0) as (Hi & Hq & Hs & Hd).
    rewrite !length_alter, Taxi_ID_alter, Ride_TaxiID_alter by done. done. }
  proj_simpl. rewrite length_alter. intros Hb.
  destruct (Hres Hb) as (Hflag & Huniq & Hdom & Hpend & Hpu).
  destruct (Hpend _ _ _ _ Hk) as (r & Hi & Hst & Hp).
  destruct (wf_store_lookup _ _ _ Hwf Hp) as (Hlt & _ & HID).
  assert (p' = p) as -> by congruence. clear Hp' Hlt' HID'.
  assert (Hr : reserves r (Ride_TaxiID r)) by (split; [by right|done]).
  assert (Hcases : ∀ (j : nat) r' id',
            alter (set_Status FINISHED) i (rides s) !! j = Some r' →
            reserves r' id' → j ≠ i ∧ rides s !! j = Some r').
  { intros j r' id'. rewrite list_lookup_alter. case_decide as Hij.
    - subst j. rewrite Hi. simpl. intros [= <-] Hr'.
      by apply reserves_set_Status_FINISHED in Hr'.
    - done. }
  unfold reservations_wf, flag_matches_reservation,
    one_reservation_per_vehicle, Get. proj_simpl.
  split; [|split; [|split; [|split]]].
  - intros id' q Hq.
    destruct (decide (id' = Ride_TaxiID r)) as [->|Hne].
    + assert (q = p) as -> by congruence.
      rewrite list_lookup_total_alter_eq by done. simpl. split; [done|].
      intros (j & r' & Hj & Hr'). destruct (Hcases _ _ _ Hj Hr') as [Hji Hj'].
      destruct Hji. by eapply Huniq.
    + assert (q ≠ p) as Hqp.
      { intros ->. apply Hne. by eapply wf_store_inj. }
      rewrite list_lookup_total_alter_ne by done.
      rewrite (Hflag id' q Hq).
      split; intros (j & r' & Hj & Hr'); exists j, r'; (split; [|done]).
      * rewrite list_lookup_alter_ne; [done|]. intros <-.
        destruct Hr' as [_ Hr']. congruence.
      * by destruct (Hcases _ _ _ Hj Hr').
  - intros j1 j2 r1 r2 id' H1 H2 Hr1 Hr2.
    destruct (Hcases _ _ _ H1 Hr1) as [_ H1'].
    destruct (Hcases _ _ _ H2 Hr2) as [_ H2']. by eapply Huniq.
  - intros j r' id' Hj Hr'. destruct (Hcases _ _ _ Hj Hr') as [_ Hj'].
    by eapply Hdom.
  - intros k0 i0 q d0 Hk0%lookup_delete_original.
    destruct (Hpend _ _ _ _ Hk0) as (r0 & Hi0 & Hst0 & Hq).
    exists r0. split; [|done]. rewrite list_lookup_alter_ne; [done|].
    intros <-. pose proof (Hpu _ _ _ _ _ _ _ Hk Hk0) as Heq.
    case_decide; lia.
  - intros k1 k2 i0 p1 p2 d1 d2
      H1%lookup_delete_original H2%lookup_delete_original.
    pose proof (Hpu _ _ _ _ _ _ _ H1 H2) as Heq.
    repeat case_decide; lia.
Qed.

Lemma Inv_complete s (k i p : nat) d :
  Inv s → pending s !! k = Some (i, p, d) →
  Inv (endRide i p
         {| taxiStore := taxiStore s; rideRequests := rideRequests s;
            shutdown := shutdown s; nextRideID := nextRideID s;
            rides := rides s; pending := delete k (pending s) |}).
Proof.
  intros HInv Hk. pose proof HInv as (_ & _ & Hpw & _).
  destruct (Hpw _ _ _ _ Hk) as (_ & _ & [p' Hp'] & _).
  rewrite (endRide_eq _ i p p') by exact Hp'.
  eapply (Inv_finished s _ k i p p' d _ HInv Hk Hp'); reflexivity.
Qed.

Lemma Inv_step e s s' : Inv s → step e s = Some s' → Inv s'.
Proof.
  intros HInv. destruct e as [l|c a b|order|k|]; simpl.
  - intros [= <-]. by apply Inv_RegisterTaxi.
  - unfold RequestRide. destruct (shutdown s).
    + by intros [= <-].
    + destruct (chan_send _ _); [|done..]. intros [= <-].
      by eapply Inv_ext.
  - case_bool_decide; [|done].
    destruct (chan_recv (rideRequests s)) as [[request c]|]; [|done].
    intros [= <-]. apply Inv_processRequest. by eapply Inv_ext.
  - destruct (pending s !! k) as [[[i p] d]|] eqn:Hk; [|done].
    intros [= <-]. by eapply Inv_complete.
  - unfold Shutdown. destruct (chan_close _); [|done..]. intros [= <-].
    by eapply Inv_ext.
Qed.

Lemma Inv_run evs : ∀ s s', Inv s → run evs s = Some s' → Inv s'.
Proof.
  induction evs as [|e evs IH]; intros s s' HInv; simpl.
  - by intros [= <-].
  - destruct (step e s) as [s1|] eqn:Hstep; [|done].
    apply IH. by eapply Inv_step.
Qed.

Lemma heap_length_step e s s' :
  step e s = Some s' →
  length (heap (taxiStore s'))
  = (length (heap (taxiStore s)) + (if is_register e then 1 else 0))%nat.
Proof.
  destruct e as [l|c a b|order|k|]; simpl.
  - intros [= <-]. simpl. by rewrite length_app.
  - unfold RequestRide. destruct (shutdown s).
    + intros [= <-]. lia.
    + destruct (chan_send _ _); [|done..]. intros [= <-]. simpl. lia.
  - case_bool_decide; [|done].
    destruct (chan_recv (rideRequests s)) as [[request c]|]; [|done].
    intros [= <-]. unfold processRequest, AssignClosestTaxi.
    cbn [taxiStore with_chan].
    destruct (length (GetAllAvailable order (taxiStore s)) =? 0)%nat;
      [simpl; lia|].
    destruct (closest_loop _ _ _ _ _) as [[p|] cd]; [|simpl; lia].
    unfold SetAvailability. destruct (taxis (taxiStore s) !! _); simpl;
      rewrite ?length_alter; lia.
  - destruct (pending s !! k) as [[[i p] d]|] eqn:Hk; [|done].
    intros [= <-]. unfold endRide, UpdateLocation, SetAvailability.
    cbn [taxiStore].
    destruct (taxis (taxiStore s) !! _) eqn:E; cbn [taxis]; rewrite ?E; simpl;
      rewrite ?length_alter; lia.
  - unfold Shutdown. destruct (chan_close _); [|done..]. intros [= <-].
    simpl. lia.
Qed.

Lemma heap_length_run evs : ∀ s s',
  run evs s = Some s' →
  length (heap (taxiStore s'))
  = (length (heap (taxiStore s)) + registrations evs)%nat.
Proof.
  unfold registrations.
  induction evs as [|e evs IH]; intros s s'; simpl.
  - intros [= <-]. lia.
  - destruct (step e s) as [s1|] eqn:Hstep; [|done]. intros Hrun.
    rewrite (IH _ _ Hrun), (heap_length_step _ _ _ Hstep).
    rewrite filter_cons.
    case_decide as Hd; destruct (is_register e); try done; simpl; lia.
Qed.

Lemma run_app evs1 : ∀ evs2 s s1,
  run evs1 s = Some s1 → run (evs1 ++ evs2) s = run evs2 s1.
Proof.
  induction evs1 as [|e evs1 IH]; intros evs2 s s1; simpl.
  - by intros [= <-].
  - destruct (step e s) as [s'|]; [|done]. apply IH.
Qed.

Lemma run_registrations (n : nat) l : ∀ s,
  ∃ s', run (replicate n (EvRegisterTaxi l)) s = Some s'
        ∧ rides s' = rides s
        ∧ wrap (nextID (taxiStore s'))
          = wrap (nextID (taxiStore s) + Z.of_nat n).
Proof.
  induction n as [|n IH]; intros s.
  - exists s. simpl. by rewrite Z.add_0_r.
  - destruct (IH (RegisterTaxi l s).2) as (s' & Hrun & Hrides & Hnext).
    exists s'. split; [exact Hrun|]. split; [exact Hrides|].
    rewrite Hnext. simpl. unfold int_add.
    rewrite wrap_add_wrap_l. f_equal. lia.
Qed.

Lemma one_ride_run : run one_ride_trace NewServer = Some one_ride_state.
Proof. vm_compute. reflexivity. Qed.

Lemma reservation_lost_general (n : nat) :
  Z.of_nat n = 2 ^ 64 - 1 →
  ∃ s p r,
    run (one_ride_trace
         ++ replicate n (EvRegisterTaxi (mkLocation 0 0))
         ++ [EvRegisterTaxi (mkLocation 0 0)]) NewServer = Some s
    ∧ Get 1 (taxiStore s) = Some p
    ∧ Taxi_IsAvailable (heap (taxiStore s) !!! p) = true
    ∧ rides s !! 0%nat = Some r
    ∧ reserves r 1.
Proof.
  intros Hn.
  destruct (run_registrations n (mkLocation 0 0) one_ride_state)
    as (s1 & Hrun & Hrides & Hnext).
  assert (Hint : is_int (nextID (taxiStore s1))).
  { assert (HInv : Inv s1).
    { eapply Inv_run; [|exact Hrun]. eapply Inv_run; [|exact one_ride_run].
      apply Inv_NewServer. }
    destruct HInv as (_ & [-> _] & _). apply wrap_is_int. }
  rewrite (wrap_id _ Hint) in Hnext.
  change (nextID (taxiStore one_ride_state)) with 2 in Hnext.
  rewrite Hn in Hnext. change (wrap (2 + (2 ^ 64 - 1))) with 1 in Hnext.
  exists (RegisterTaxi (mkLocation 0 0) s1).2, (length (heap (taxiStore s1))),
    (mkRide 1 1 1 (mkLocation 0 0) (mkLocation 5 0) IN_PROGRESS).
  split.
  { rewrite (run_app _ _ _ _ one_ride_run).
    rewrite (run_app _ _ _ _ Hrun). reflexivity. }
  destruct (Add_inserted (mkLocation 0 0) (taxiStore s1)) as [HGet Hheap].
  change (Add (mkLocation 0 0) (taxiStore s1)).1 with (nextID (taxiStore s1))
    in HGet.
  rewrite Hnext in HGet.
  split; [exact HGet|]. split.
  { change (taxiStore (RegisterTaxi (mkLocation 0 0) s1).2)
      with (Add (mkLocation 0 0) (taxiStore s1)).2.
    by rewrite (list_lookup_total_correct _ _ _ Hheap). }
  split.
  { change (rides (RegisterTaxi (mkLocation 0 0) s1).2) with (rides s1).
    by rewrite Hrides. }
  split; [by right|done].
Qed.

Lemma reserved_not_in_snapshot s (i : nat) r id p order ride :
  wf_store (taxiStore s) → flag_matches_reservation s →
  rides s !! i = Some r → reserves r id →
  Get id (taxiStore s) = Some p →
  (AssignClosestTaxi order (taxiStore s) ride).1.1 ≠ Some p.
Proof.
  intros Hwf Hflag Hi Hr Hp Hsel.
  assert (Hf : Taxi_IsAvailable (heap (taxiStore s) !!! p) = false)
    by (apply (Hflag id p Hp); eauto).
  destruct (AssignClosestTaxi_cases order (taxiStore s) ride Hwf)
    as [[_ Hnone]|(p' & id' & cd & _ & _ & _ & _ & Hav & Hsome)].
  - by rewrite Hnone in Hsel.
  - rewrite Hsome in Hsel. simpl in Hsel. congruence.
Qed.

(** C1. In every state reached from a new server by atomic registration,
    submission, scheduler (assignment), completion and shutdown steps: a
    vehicle's flag is false exactly when it is the TaxiID of some ride in
    ASSIGNED or IN_PROGRESS state; no two such rides hold the same vehicle;
    and [AssignClosestTaxi] never hands out a vehicle that a ride holds.
    The hypothesis on the number of registrations holds of every run: the
    vehicles registered all stay allocated, and a 64-bit address space does
    not hold 2^64 of them. *)
Theorem reservation_invariant (evs : list event) (s : System) :
  run evs NewServer = Some s →
  Z.of_nat (registrations evs) ≤ 2 ^ 64 →
  flag_matches_reservation s
  ∧ one_reservation_per_vehicle s
  ∧ reserved_not_assignable s.
Proof.
  intros Hrun Hreg.
  pose proof (Inv_run _ _ _ Inv_NewServer Hrun) as (Hwf & _ & _ & Hres).
  pose proof (heap_length_run _ _ _ Hrun) as Hlen. simpl in Hlen.
  destruct Hres as (Hflag & Huniq & _); [rewrite Hlen; lia|].
  split; [done|]. split; [done|].
  intros i r id p order ride Hi Hr Hp.
  by eapply reserved_not_in_snapshot.
Qed.

Lemma reservation_invariant_witness :
  run one_ride_trace NewServer = Some one_ride_state
  ∧ Z.of_nat (registrations one_ride_trace) ≤ 2 ^ 64
  ∧ flag_matches_reservation one_ride_state
  ∧ one_reservation_per_vehicle one_ride_state
  ∧ reserved_not_assignable one_ride_state.
Proof.
  assert (H1 : run one_ride_trace NewServer = Some one_ride_state)
    by (vm_compute; reflexivity).
  assert (H2 : Z.of_nat (registrations one_ride_trace) ≤ 2 ^ 64)
    by (vm_compute; discriminate).
  split; [exact H1|]. split; [exact H2|].
  exact (reservation_invariant one_ride_trace one_ride_state H1 H2).
Defined.

(** Why the statement carries the bound.  The embedding puts no limit on
    the number of allocated objects, and in it the counter of vehicle IDs
    comes round: vehicle 1 is reserved by ride 1; after 2^64 further
    registrations, more than a machine holds, [nextID] is 1 again and [Add]
    stores a new, available vehicle under ID 1 while ride 1 is still
    IN_PROGRESS on vehicle 1. *)
Lemma reservation_lost_after_id_wraparound :
  ∃ s p r,
    run (one_ride_trace
         ++ replicate (Z.to_nat (2 ^ 64 - 1)) (EvRegisterTaxi (mkLocation 0 0))
         ++ [EvRegisterTaxi (mkLocation 0 0)]) NewServer = Some s
    ∧ Get 1 (taxiStore s) = Some p
    ∧ Taxi_IsAvailable (heap (taxiStore s) !!! p) = true
    ∧ rides s !! 0%nat = Some r
    ∧ reserves r 1.
Proof.
  apply reservation_lost_general. apply Z2Nat.id. discriminate.
Qed.

Lemma CalculateRideDuration_exact h (taxi : nat) ride :
  valid_loc (Taxi_Location (h !!! taxi)) →
  valid_loc (Ride_StartLocation ride) → valid_loc (Ride_EndLocation ride) →
  manhattan (Taxi_Location (h !!! taxi)) (Ride_StartLocation ride)
  + manhattan (Ride_StartLocation ride) (Ride_EndLocation ride) ≤ max_int →
  CalculateRideDuration h taxi ride
  = manhattan (Taxi_Location (h !!! taxi)) (Ride_StartLocation ride)
    + manhattan (Ride_StartLocation ride) (Ride_EndLocation ride).
Proof.
  intros Ht Hs He Hsum. unfold CalculateRideDuration.
  pose proof (manhattan_nonneg (Taxi_Location (h !!! taxi))
                (Ride_StartLocation ride)).
  pose proof (manhattan_nonneg (Ride_StartLocation ride)
                (Ride_EndLocation ride)).
  rewrite !CalculateDistance_exact by (done || lia).
  apply wrap_id. unfold is_int, min_int, max_int in *. lia.
Qed.

Lemma processRequest_assigned order request s (p : nat) :
  wf_store (taxiStore s) →
  (AssignClosestTaxi order (taxiStore s)
     (new_ride (nextRideID s) request)).1.1 = Some p →
  rides (processRequest order request s)
  = rides s
    ++ [mkRide (nextRideID s) (Req_ClientID request)
          (Taxi_ID (heap (taxiStore s) !!! p))
          (Req_StartLocation request) (Req_EndLocation request) IN_PROGRESS]
  ∧ pending (processRequest order request s)
    = pending s
      ++ [(length (rides s), p,
           int_add
             (CalculateDistance (Taxi_Location (heap (taxiStore s) !!! p))
                (Req_StartLocation request))
             (CalculateDistance (Req_StartLocation request)
                (Req_EndLocation request)))].
Proof.
  intros Hwf Hsel. unfold processRequest.
  change (AssignClosestTaxi order (taxiStore s) _)
    with (AssignClosestTaxi order (taxiStore s)
            (new_ride (nextRideID s) request)).
  destruct (AssignClosestTaxi_cases order (taxiStore s)
              (new_ride (nextRideID s) request) Hwf)
    as [[_ Hnone]|(p' & id & cd & _ & _ & Hp & Hid & Hav & Hsome)].
  - by rewrite Hnone in Hsel.
  - rewrite Hsome in Hsel |- *. simpl in Hsel. injection Hsel as ->.
    destruct (wf_store_lookup _ _ _ Hwf Hp) as (Hlt & _ & _).
    cbn [startRide rides pending taxiStore heap]. rewrite Hid. split; [done|].
    unfold CalculateRideDuration.
    rewrite list_lookup_total_alter_eq by done. done.
Qed.

Lemma complete_finishes s (k i p : nat) d :
  wf_store (taxiStore s) → pending_wf s →
  pending s !! k = Some (i, p, d) →
  ∃ s' r, step (EvComplete k) s = Some s'
    ∧ rides s' !! i = Some r
    ∧ Ride_Status r = FINISHED
    ∧ ∃ p' : nat, Get (Ride_TaxiID r) (taxiStore s') = Some p'
        ∧ Taxi_Location (heap (taxiStore s') !!! p') = Ride_EndLocation r
        ∧ Taxi_IsAvailable (heap (taxiStore s') !!! p') = true.
Proof.
  intros Hwf Hpw Hk.
  destruct (Hpw _ _ _ _ Hk) as (Hi & Hp & [p' Hp'] & Hid).
  destruct (wf_store_lookup _ _ _ Hwf Hp') as (Hlt' & _ & _).
  destruct (lookup_lt_is_Some_2 (rides s) i Hi) as [r Hr].
  rewrite (list_lookup_total_correct _ _ _ Hr) in Hid.
  eexists. exists (set_Status FINISHED r). simpl. rewrite Hk.
  split; [reflexivity|].
  rewrite endRide_eq with (p' := p') by exact Hp'.
  cbn [rides taxiStore heap taxis pending].
  split; [by rewrite list_lookup_alter_eq, Hr|]. split; [done|].
  exists p'. unfold Get. cbn [taxis Ride_TaxiID set_Status].
  split; [by rewrite Hid|].
  rewrite list_lookup_total_alter_eq by (by rewrite length_alter).
  rewrite list_lookup_total_alter_eq by done.
  rewrite (list_lookup_total_alter_eq _ (rides s)) by done.
  by rewrite (list_lookup_total_correct _ _ _ Hr).
Qed.

(** C7 (amended). For an assigned ride whose two Manhattan distances,
    vehicle to pickup and pickup to dropoff, add up to at most 2^63 - 1, the
    duration is [distance(taxi, pickup) + distance(pickup, dropoff)], the
    sum of the two Manhattan distances, and this is the duration handed to
    the ride's goroutine; when the completion handler of an assigned ride
    runs, the ride is FINISHED, the vehicle is at the ride's dropoff and it
    is available again.  One vehicle at (0,0) and a ride (0,0) -> (5,0):
    duration 5, and the vehicle ends up available at (5,0). *)
Theorem ride_duration_and_completion :
  (∀ (h : list Taxi) (taxi : nat) (ride : Ride),
     valid_loc (Taxi_Location (h !!! taxi)) →
     valid_loc (Ride_StartLocation ride) →
     valid_loc (Ride_EndLocation ride) →
     manhattan (Taxi_Location (h !!! taxi)) (Ride_StartLocation ride)
     + manhattan (Ride_StartLocation ride) (Ride_EndLocation ride)
       ≤ max_int →
     CalculateRideDuration h taxi ride
     = CalculateDistance (Taxi_Location (h !!! taxi)) (Ride_StartLocation ride)
       + CalculateDistance (Ride_StartLocation ride) (Ride_EndLocation ride)
     ∧ CalculateRideDuration h taxi ride
       = manhattan (Taxi_Location (h !!! taxi)) (Ride_StartLocation ride)
         + manhattan (Ride_StartLocation ride) (Ride_EndLocation ride))
  ∧ (∀ (evs : list event) (s : System) (order : list Z)
       (request : RideRequest) (p : nat),
       run evs NewServer = Some s →
       (AssignClosestTaxi order (taxiStore s)
          (new_ride (nextRideID s) request)).1.1 = Some p →
       valid_loc (Taxi_Location (heap (taxiStore s) !!! p)) →
       valid_loc (Req_StartLocation request) →
       valid_loc (Req_EndLocation request) →
       manhattan (Taxi_Location (heap (taxiStore s) !!! p))
         (Req_StartLocation request)
       + manhattan (Req_StartLocation request) (Req_EndLocation request)
         ≤ max_int →
       pending (processRequest order request s)
       = pending s
         ++ [(length (rides s), p,
              CalculateDistance (Taxi_Location (heap (taxiStore s) !!! p))
                (Req_StartLocation request)
              + CalculateDistance (Req_StartLocation request)
                  (Req_EndLocation request))])
  ∧ (∀ (evs : list event) (s : System) (k i p : nat) (d : Z),
       run evs NewServer = Some s →
       pending s !! k = Some (i, p, d) →
       ∃ s' r, step (EvComplete k) s = Some s'
         ∧ rides s' !! i = Some r
         ∧ Ride_Status r = FINISHED
         ∧ ∃ p' : nat, Get (Ride_TaxiID r) (taxiStore s') = Some p'
             ∧ Taxi_Location (heap (taxiStore s') !!! p') = Ride_EndLocation r
             ∧ Taxi_IsAvailable (heap (taxiStore s') !!! p') = true)
  ∧ (run one_ride_trace NewServer = Some one_ride_state
     ∧ pending one_ride_state = [(0%nat, 0%nat, 5)]
     ∧ ∃ s', step (EvComplete 0) one_ride_state = Some s'
         ∧ heap (taxiStore s') = [mkTaxi 1 (mkLocation 5 0) true]
         ∧ rides s'
           = [mkRide 1 1 1 (mkLocation 0 0) (mkLocation 5 0) FINISHED]).
Proof.
  split; [|split; [|split]].
  - intros h taxi ride Ht Hs He Hsum.
    pose proof (manhattan_nonneg (Taxi_Location (h !!! taxi))
                  (Ride_StartLocation ride)).
    pose proof (manhattan_nonneg (Ride_StartLocation ride)
                  (Ride_EndLocation ride)).
    rewrite !CalculateDistance_exact by (done || lia).
    split; by apply CalculateRideDuration_exact.
  - intros evs s order request p Hrun Hsel Ht Hs He Hsum.
    pose proof (Inv_run _ _ _ Inv_NewServer Hrun) as (Hwf & _).
    destruct (processRequest_assigned order request s p Hwf Hsel) as [_ ->].
    pose proof (manhattan_nonneg (Taxi_Location (heap (taxiStore s) !!! p))
                  (Req_StartLocation request)).
    pose proof (manhattan_nonneg (Req_StartLocation request)
                  (Req_EndLocation request)).
    rewrite !CalculateDistance_exact by (done || lia).
    do 3 f_equal. unfold int_add. apply wrap_id.
    unfold is_int, min_int, max_int in *. lia.
  - intros evs s k i p d Hrun Hk.
    pose proof (Inv_run _ _ _ Inv_NewServer Hrun) as (Hwf & _ & Hpw & _).
    by eapply complete_finishes.
  - split; [exact one_ride_run|]. split; [reflexivity|].
    eexists. split; [vm_compute; reflexivity|]. split; reflexivity.
Qed.

Lemma ride_duration_and_completion_witness :
  run one_ride_trace NewServer = Some one_ride_state
  ∧ pending one_ride_state !! 0%nat = Some (0%nat, 0%nat, 5)
  ∧ ∃ s' r, step (EvComplete 0) one_ride_state = Some s'
      ∧ rides s' !! 0%nat = Some r
      ∧ Ride_Status r = FINISHED
      ∧ ∃ p' : nat, Get (Ride_TaxiID r) (taxiStore s') = Some p'
          ∧ Taxi_Location (heap (taxiStore s') !!! p') = Ride_EndLocation r
          ∧ Taxi_IsAvailable (heap (taxiStore s') !!! p') = true.
Proof.
  assert (H1 : run one_ride_trace NewServer = Some one_ride_state)
    by (vm_compute; reflexivity).
  assert (H2 : pending one_ride_state !! 0%nat = Some (0%nat, 0%nat, 5))
    by reflexivity.
  split; [exact H1|]. split; [exact H2|].
  exact (proj1 (proj2 (proj2 ride_duration_and_completion))
           one_ride_trace one_ride_state 0%nat 0%nat 0%nat 5 H1 H2).
Defined.

(** C7 (as stated) fails when the sum does not fit: with the vehicle at
    (0,0) and a ride from (2^63 - 1, 0) to (2^63 - 1, 1) the two distances
    are 2^63 - 1 and 1, and the duration computed, which is the one handed
    to the goroutine, is -2^63. *)
Lemma ride_duration_negative_on_overflow :
  ∃ s,
    run [EvRegisterTaxi (mkLocation 0 0);
         EvRequestRide 1 (mkLocation max_int 0) (mkLocation max_int 1);
         EvProcess [1]] NewServer = Some s
    ∧ pending s = [(0%nat, 0%nat, - 2 ^ 63)]
    ∧ CalculateDistance (mkLocation 0 0) (mkLocation max_int 0) = 2 ^ 63 - 1
    ∧ CalculateDistance (mkLocation max_int 0) (mkLocation max_int 1) = 1
    ∧ CalculateRideDuration [mkTaxi 1 (mkLocation 0 0) false] 0
        (mkRide 1 1 1 (mkLocation max_int 0) (mkLocation max_int 1) ASSIGNED)
      = - 2 ^ 63
    ∧ - 2 ^ 63 ≠ (2 ^ 63 - 1) + 1.
Proof.
  eexists. split; [vm_compute; reflexivity|].
  split; [reflexivity|]. split; [by vm_compute|]. split; [by vm_compute|].
  split; [by vm_compute|]. discriminate.
Qed.

(** * Further properties of the code *)

(** ** location.go, beyond the claims *)

Lemma manhattan_zero a b : manhattan a b = 0 ↔ a = b.
Proof.
  unfold manhattan. split.
  - intros H. destruct a as [ax ay], b as [bx b_y]. simpl in *.
    f_equal; lia.
  - intros ->. lia.
Qed.

Lemma manhattan_triangle a b c :
  manhattan a c ≤ manhattan a b + manhattan b c.
Proof. unfold manhattan. lia. Qed.

(** X1. As long as the Manhattan distances involved fit in an [int],
    [CalculateDistance] is a metric: it is zero exactly on equal locations
    and it satisfies the triangle inequality. *)
Theorem CalculateDistance_is_metric_in_range (a b c : Location) :
  valid_loc a → valid_loc b → valid_loc c →
  manhattan a b ≤ max_int → manhattan b c ≤ max_int →
  manhattan a c ≤ max_int →
  (CalculateDistance a b = 0 ↔ a = b)
  ∧ CalculateDistance a c ≤ CalculateDistance a b + CalculateDistance b c.
Proof.
  intros Ha Hb Hc Hab Hbc Hac.
  rewrite !CalculateDistance_exact by done.
  split; [apply manhattan_zero | apply manhattan_triangle].
Qed.

Lemma CalculateDistance_is_metric_in_range_witness :
  (CalculateDistance (mkLocation 0 0) (mkLocation 3 4) = 0
   ↔ mkLocation 0 0 = mkLocation 3 4)
  ∧ CalculateDistance (mkLocation 0 0) (mkLocation 7 1)
    ≤ CalculateDistance (mkLocation 0 0) (mkLocation 3 4)
      + CalculateDistance (mkLocation 3 4) (mkLocation 7 1).
Proof.
  apply (CalculateDistance_is_metric_in_range
           (mkLocation 0 0) (mkLocation 3 4) (mkLocation 7 1));
    vm_compute; intuition discriminate.
Defined.

Lemma in_grid_valid l : in_grid l → valid_loc l.
Proof.
  intros [Hx Hy]. unfold valid_loc, is_int, min_int, max_int.
  change (2 ^ 63) with 9223372036854775808. lia.
Qed.

Lemma in_grid_manhattan a b : in_grid a → in_grid b → 0 ≤ manhattan a b ≤ 198.
Proof. intros [? ?] [? ?]. unfold manhattan. lia. Qed.

(** X2. On the 100 x 100 grid the clients draw their locations from, no
    computation overflows: a distance is the Manhattan distance and lies in
    0..198, and a ride's duration is the sum of its two Manhattan distances
    and lies in 0..396. *)
Theorem grid_distances_bounded
    (h : list Taxi) (taxi : nat) (ride : Ride) (a b : Location) :
  in_grid a → in_grid b →
  in_grid (Taxi_Location (h !!! taxi)) →
  in_grid (Ride_StartLocation ride) → in_grid (Ride_EndLocation ride) →
  CalculateDistance a b = manhattan a b
  ∧ 0 ≤ CalculateDistance a b ≤ 198
  ∧ CalculateRideDuration h taxi ride
    = manhattan (Taxi_Location (h !!! taxi)) (Ride_StartLocation ride)
      + manhattan (Ride_StartLocation ride) (Ride_EndLocation ride)
  ∧ 0 ≤ CalculateRideDuration h taxi ride ≤ 396.
Proof.
  intros Ha Hb Ht Hs He.
  pose proof (in_grid_manhattan _ _ Ha Hb) as Hab.
  pose proof (in_grid_manhattan _ _ Ht Hs) as Hts.
  pose proof (in_grid_manhattan _ _ Hs He) as Hse.
  assert (Hmax : 396 ≤ max_int) by (vm_compute; discriminate).
  rewrite CalculateDistance_exact by (auto using in_grid_valid; lia).
  split; [done|]. split; [done|].
  rewrite CalculateRideDuration_exact by (auto using in_grid_valid; lia).
  split; [done|lia].
Qed.

Lemma grid_distances_bounded_witness :
  0 ≤ CalculateDistance (mkLocation 0 99) (mkLocation 99 0) ≤ 198
  ∧ 0 ≤ CalculateRideDuration [mkTaxi 1 (mkLocation 0 0) true] 0%nat
          (mkRide 1 1 1 (mkLocation 99 99) (mkLocation 0 0) IN_PROGRESS) ≤ 396.
Proof.
  assert (Hg : ∀ x y, 0 ≤ x < 100 → 0 ≤ y < 100 → in_grid (mkLocation x y))
    by (intros x y Hx Hy; split; assumption).
  pose proof (grid_distances_bounded [mkTaxi 1 (mkLocation 0 0) true] 0%nat
              (mkRide 1 1 1 (mkLocation 99 99) (mkLocation 0 0) IN_PROGRESS)
              (mkLocation 0 99) (mkLocation 99 0)
              (Hg 0 99 ltac:(lia) ltac:(lia)) (Hg 99 0 ltac:(lia) ltac:(lia))
              (Hg 0 0 ltac:(lia) ltac:(lia)) (Hg 99 99 ltac:(lia) ltac:(lia))
              (Hg 0 0 ltac:(lia) ltac:(lia)))
    as (_ & H1 & _ & H2).
  split; [exact H1 | exact H2].
Defined.

(** ** store.go, beyond the claims *)

Lemma AddAll_snoc locations l : ∀ ts,
  (AddAll (locations ++ [l]) ts).2 = (Add l (AddAll locations ts).2).2.
Proof.
  induction locations as [|l0 rest IH]; intros ts; [done|].
  change ((l0 :: rest) ++ [l]) with (l0 :: (rest ++ [l])).
  rewrite !AddAll_cons. cbn [snd]. apply IH.
Qed.

Lemma AddAll_contents locations :
  Z.of_nat (length locations) ≤ 2 ^ 64 →
  length (heap (AddAll locations NewTaxiStore).2) = length locations
  ∧ nextID (AddAll locations NewTaxiStore).2
    = wrap (1 + Z.of_nat (length locations))
  ∧ size (taxis (AddAll locations NewTaxiStore).2) = length locations
  ∧ (∀ id (p : nat), taxis (AddAll locations NewTaxiStore).2 !! id = Some p ↔
       (p < length locations)%nat ∧ id = wrap (1 + Z.of_nat p))
  ∧ (∀ (k : nat) l, locations !! k = Some l →
       heap (AddAll locations NewTaxiStore).2 !! k
       = Some (mkTaxi (wrap (1 + Z.of_nat k)) l true)).
Proof.
  induction locations as [|l locations IH] using rev_ind; intros Hn.
  - split; [done|]. split; [done|]. split; [done|]. split.
    + intros id p. split; [|simpl; lia]. simpl. by rewrite lookup_empty.
    + intros k l Hk. by rewrite lookup_nil in Hk.
  - rewrite length_app in Hn |- *. simpl length in Hn |- *.
    destruct IH as (Hlen & Hnext & Hsize & Hmap & Hheap); [lia|].
    rewrite AddAll_snoc.
    set (ts := (AddAll locations NewTaxiStore).2) in *.
    assert (Hfresh : taxis ts !! nextID ts = None).
    { destruct (taxis ts !! nextID ts) as [p|] eqn:E; [|done].
      apply Hmap in E as [Hp Heq]. rewrite Hnext in Heq.
      apply wrap_add_of_nat_inj in Heq; [done|lia|lia]. }
    simpl. rewrite length_app, Hlen. simpl.
    split; [done|]. split.
    { rewrite Hnext. unfold int_add. rewrite wrap_add_wrap_l. f_equal. lia. }
    split; [by rewrite map_size_insert_None, Hsize by done; lia|]. split.
    + intros id p. rewrite lookup_insert. case_decide as Hid.
      * split.
        -- intros [= <-]. split; [lia|]. by rewrite <- Hid, Hnext.
        -- intros [Hp Heq]. f_equal.
           destruct (decide (p = length locations)) as [->|Hne]; [done|].
           exfalso. rewrite Heq, Hnext in Hid.
           apply wrap_add_of_nat_inj in Hid; [done|lia|lia].
      * rewrite Hmap. split.
        -- intros [Hp Heq]. split; [lia|done].
        -- intros [Hp Heq]. split; [|done].
           destruct (decide (p = length locations)) as [->|Hne]; [|lia].
           by rewrite Heq, Hnext in Hid.
    + intros k l0 [[Hk Hl0]|[-> <-]]%lookup_snoc_Some.
      * rewrite lookup_app_l by (rewrite Hlen; lia). by apply Hheap.
      * rewrite <- Hlen, list_lookup_middle by done. by rewrite Hnext, Hlen.
Qed.

(** X3. After n registrations on a new store (n below 2^63) the store holds
    exactly the vehicles 1..n: [Count] is n, a lookup of an ID in 1..n gives
    the available vehicle with that ID at the location it was registered
    with, and a lookup of any other ID gives nil. *)
Theorem store_after_registrations (locations : list Location) (id : Z) :
  Z.of_nat (length locations) < 2 ^ 63 →
  Count (AddAll locations NewTaxiStore).2 = length locations
  ∧ (1 ≤ id ≤ Z.of_nat (length locations) →
       ∃ l, locations !! Z.to_nat (id - 1) = Some l
            ∧ vehicle id (AddAll locations NewTaxiStore).2
              = Some (mkTaxi id l true))
  ∧ (¬ (1 ≤ id ≤ Z.of_nat (length locations)) →
       Get id (AddAll locations NewTaxiStore).2 = None).
Proof.
  intros Hn.
  destruct (AddAll_contents locations) as (Hlen & _ & Hsize & Hmap & Hheap).
  { change (2 ^ 64) with 18446744073709551616.
    change (2 ^ 63) with 9223372036854775808 in Hn. lia. }
  assert (Hw : ∀ p : nat, (p < length locations)%nat →
                 wrap (1 + Z.of_nat p) = 1 + Z.of_nat p).
  { intros p Hp. apply wrap_id. unfold is_int, min_int, max_int. lia. }
  split; [done|]. split.
  - intros Hid.
    destruct (lookup_lt_is_Some_2 locations (Z.to_nat (id - 1))) as [l Hl];
      [lia|].
    exists l. split; [done|]. unfold vehicle, Get.
    assert (Hp : taxis (AddAll locations NewTaxiStore).2 !! id
                 = Some (Z.to_nat (id - 1))).
    { apply Hmap. split; [lia|]. rewrite Hw by lia. lia. }
    rewrite Hp, (Hheap _ _ Hl), Hw by lia. do 3 f_equal. lia.
  - intros Hid. unfold Get.
    destruct (taxis (AddAll locations NewTaxiStore).2 !! id) as [p|] eqn:E;
      [|done].
    apply Hmap in E as [Hp Heq]. rewrite Hw in Heq by done. lia.
Qed.

Lemma store_after_registrations_witness :
  Count (AddAll [mkLocation 0 0; mkLocation 10 10] NewTaxiStore).2 = 2%nat
  ∧ (∃ l, [mkLocation 0 0; mkLocation 10 10] !! Z.to_nat (2 - 1) = Some l
          ∧ vehicle 2 (AddAll [mkLocation 0 0; mkLocation 10 10] NewTaxiStore).2
            = Some (mkTaxi 2 l true))
  ∧ Get 3 (AddAll [mkLocation 0 0; mkLocation 10 10] NewTaxiStore).2 = None.
Proof.
  assert (Hn : Z.of_nat (length [mkLocation 0 0; mkLocation 10 10]) < 2 ^ 63)
    by (vm_compute; reflexivity).
  pose proof (store_after_registrations
                [mkLocation 0 0; mkLocation 10 10] 2 Hn) as (H1 & H2 & _).
  pose proof (store_after_registrations
                [mkLocation 0 0; mkLocation 10 10] 3 Hn) as (_ & _ & H3).
  split; [exact H1|]. split.
  - apply H2. vm_compute. intuition discriminate.
  - apply H3. vm_compute. intuition.
Defined.

Lemma vehicle_Some ts id t :
  wf_store ts → vehicle id ts = Some t →
  ∃ p : nat, taxis ts !! id = Some p ∧ heap ts !! p = Some t
             ∧ (p < length (heap ts))%nat ∧ Taxi_ID t = id.
Proof.
  intros Hwf. unfold vehicle, Get.
  destruct (taxis ts !! id) as [p|] eqn:Hp; [|done]. intros Ht.
  destruct (wf_store_lookup _ _ _ Hwf Hp) as (Hlt & Hh & Hid).
  exists p. rewrite Hh in Ht. injection Ht as <-. done.
Qed.

Lemma vehicle_alter (f : Taxi → Taxi) (p : nat) ts id :
  wf_store ts → taxis ts !! id = Some p →
  (∀ id', vehicle id'
            {| heap := alter f p (heap ts); taxis := taxis ts;
               nextID := nextID ts |}
          = if decide (id' = id) then f <$> vehicle id' ts
            else vehicle id' ts).
Proof.
  intros Hwf Hp id'. unfold vehicle, Get. simpl.
  case_decide as Hid.
  - subst id'. rewrite Hp. by rewrite list_lookup_alter_eq.
  - destruct (taxis ts !! id') as [q|] eqn:Hq; [|done].
    rewrite list_lookup_alter_ne; [done|].
    intros ->. apply Hid. by eapply wf_store_inj.
Qed.

(** X4. On a well-formed store, a successful [SetAvailability] changes the
    flag of the vehicle with that ID and nothing else, and a successful
    [UpdateLocation] changes its location and nothing else: the vehicle keeps
    its ID and its other field, every other vehicle is as before, and the
    set of IDs, [Count] and the ID counter are untouched. *)
Theorem store_updates_are_local
    (ts : TaxiStore) (id : Z) (b : bool) (loc : Location) (t : Taxi) :
  wf_store ts → vehicle id ts = Some t →
  (vehicle id (SetAvailability id b ts).2
   = Some (mkTaxi (Taxi_ID t) (Taxi_Location t) b)
   ∧ (∀ id', id' ≠ id →
        vehicle id' (SetAvailability id b ts).2 = vehicle id' ts)
   ∧ taxis (SetAvailability id b ts).2 = taxis ts
   ∧ nextID (SetAvailability id b ts).2 = nextID ts
   ∧ Count (SetAvailability id b ts).2 = Count ts)
  ∧ (vehicle id (UpdateLocation id loc ts).2
     = Some (mkTaxi (Taxi_ID t) loc (Taxi_IsAvailable t))
     ∧ (∀ id', id' ≠ id →
          vehicle id' (UpdateLocation id loc ts).2 = vehicle id' ts)
     ∧ taxis (UpdateLocation id loc ts).2 = taxis ts
     ∧ nextID (UpdateLocation id loc ts).2 = nextID ts
     ∧ Count (UpdateLocation id loc ts).2 = Count ts).
Proof.
  intros Hwf Ht.
  destruct (vehicle_Some _ _ _ Hwf Ht) as (p & Hp & Hh & Hlt & Hid).
  split.
  - destruct (SetAvailability_lookup ts id b p Hwf Hp) as [-> _]. cbn [snd].
    split; [|split; [|done]].
    + rewrite (vehicle_alter _ p ts id Hwf Hp), decide_True by done.
      by rewrite Ht.
    + intros id' Hne.
      by rewrite (vehicle_alter _ p ts id Hwf Hp), decide_False by done.
  - destruct (UpdateLocation_lookup ts id loc p Hwf Hp) as [-> _]. cbn [snd].
    split; [|split; [|done]].
    + rewrite (vehicle_alter _ p ts id Hwf Hp), decide_True by done.
      by rewrite Ht.
    + intros id' Hne.
      by rewrite (vehicle_alter _ p ts id Hwf Hp), decide_False by done.
Qed.

Lemma store_updates_are_local_witness :
  vehicle 1 (SetAvailability 1 false two_taxi_store).2
  = Some (mkTaxi 1 (mkLocation 0 0) false)
  ∧ vehicle 2 (SetAvailability 1 false two_taxi_store).2
    = vehicle 2 two_taxi_store.
Proof.
  assert (Hwf : wf_store two_taxi_store)
    by (apply (bool_decide_eq_true_1 (wf_store two_taxi_store));
        vm_compute; reflexivity).
  assert (Ht : vehicle 1 two_taxi_store = Some (mkTaxi 1 (mkLocation 0 0) true))
    by reflexivity.
  pose proof (store_updates_are_local two_taxi_store 1 false (mkLocation 0 0)
                _ Hwf Ht) as ((H1 & H2 & _) & _).
  split; [exact H1|]. apply H2. discriminate.
Defined.

Lemma store_eq ts1 ts2 :
  heap ts1 = heap ts2 → taxis ts1 = taxis ts2 → nextID ts1 = nextID ts2 →
  ts1 = ts2.
Proof. destruct ts1, ts2. simpl. by intros -> -> ->. Qed.

(** X5. Store updates compose as writes to independent fields: setting the
    availability of a vehicle twice leaves the last value, relocating twice
    leaves the last location, and an availability update commutes with a
    relocation, of the same vehicle or, on a well-formed store, of another
    one. *)
Theorem store_updates_compose
    (ts : TaxiStore) (id id' : Z) (a b : bool) (l l' : Location) :
  (SetAvailability id b (SetAvailability id a ts).2).2
  = (SetAvailability id b ts).2
  ∧ (UpdateLocation id l' (UpdateLocation id l ts).2).2
    = (UpdateLocation id l' ts).2
  ∧ (UpdateLocation id l (SetAvailability id b ts).2).2
    = (SetAvailability id b (UpdateLocation id l ts).2).2
  ∧ (wf_store ts → id ≠ id' →
     (UpdateLocation id' l (SetAvailability id b ts).2).2
     = (SetAvailability id b (UpdateLocation id' l ts).2).2
     ∧ (SetAvailability id' a (SetAvailability id b ts).2).2
       = (SetAvailability id b (SetAvailability id' a ts).2).2).
Proof.
  unfold SetAvailability, UpdateLocation.
  destruct (taxis ts !! id) as [p|] eqn:Hp; cbn [snd taxis];
    rewrite ?Hp; cbn [snd heap taxis nextID].
  - split; [|split; [|split]].
    + apply store_eq; [|done..]. simpl.
      rewrite list_alter_alter_eq. by apply list_alter_ext.
    + apply store_eq; [|done..]. simpl.
      rewrite list_alter_alter_eq. by apply list_alter_ext.
    + apply store_eq; [|done..]. simpl.
      rewrite !list_alter_alter_eq. by apply list_alter_ext.
    + intros Hwf Hne.
      destruct (taxis ts !! id') as [q|] eqn:Hq; cbn [snd taxis];
        rewrite ?Hp; cbn [snd heap taxis nextID]; [|done].
      assert (Hpq : q ≠ p) by (intros ->; apply Hne; by eapply wf_store_inj).
      split; apply store_eq; try done; simpl;
        by rewrite list_alter_alter_ne.
  - split; [done|]. split; [done|]. split; [done|].
    intros _ _.
    destruct (taxis ts !! id') as [q|] eqn:Hq; cbn [snd taxis];
      rewrite ?Hp; done.
Qed.

Lemma store_updates_compose_witness :
  (UpdateLocation 2 (mkLocation 5 5) (SetAvailability 1 false two_taxi_store).2).2
  = (SetAvailability 1 false (UpdateLocation 2 (mkLocation 5 5) two_taxi_store).2).2.
Proof.
  assert (Hwf : wf_store two_taxi_store)
    by (apply (bool_decide_eq_true_1 (wf_store two_taxi_store));
        vm_compute; reflexivity).
  assert (Hne : (1 : Z) ≠ 2) by discriminate.
  exact (proj1 (proj2 (proj2 (proj2
    (store_updates_compose two_taxi_store 1 2 true false
       (mkLocation 5 5) (mkLocation 0 0)))) Hwf Hne)).
Defined.

Lemma length_omap_le {A B} (f : A → option B) (l : list A) :
  (length (omap f l) ≤ length l)%nat.
Proof.
  induction l as [|x l IH]; simpl; [done|].
  unfold omap in IH. destruct (f x); simpl; lia.
Qed.

(** X6. The order in which the map is ranged over only permutes the result
    of [GetAllAvailable]: two calls on the same store return the same
    vehicles, so the available count does not depend on it, and it never
    exceeds [Count]. *)
Theorem GetAllAvailable_order_irrelevant
    (ts : TaxiStore) (order1 order2 : list Z) :
  range_order ts order1 → range_order ts order2 →
  GetAllAvailable order1 ts ≡ₚ GetAllAvailable order2 ts
  ∧ length (GetAllAvailable order1 ts) = length (GetAllAvailable order2 ts)
  ∧ (length (GetAllAvailable order1 ts) ≤ Count ts)%nat.
Proof.
  intros H1 H2.
  assert (Hperm : GetAllAvailable order1 ts ≡ₚ GetAllAvailable order2 ts).
  { rewrite !GetAllAvailable_omap. unfold range_order in *.
    by rewrite H1, H2. }
  split; [done|]. split; [by rewrite Hperm|].
  rewrite GetAllAvailable_omap. unfold Count.
  rewrite <- length_map_to_list, <- (length_fmap fst), <- H1.
  apply length_omap_le.
Qed.

Lemma GetAllAvailable_order_irrelevant_witness :
  GetAllAvailable [1; 2] two_taxi_store ≡ₚ GetAllAvailable [2; 1] two_taxi_store
  ∧ length (GetAllAvailable [1; 2] two_taxi_store)
    = length (GetAllAvailable [2; 1] two_taxi_store)
  ∧ (length (GetAllAvailable [1%Z; 2%Z] two_taxi_store)
     ≤ Count two_taxi_store)%nat.
Proof.
  apply GetAllAvailable_order_irrelevant.
  - apply (bool_decide_eq_true_1 (range_order two_taxi_store [1; 2])).
    vm_compute. reflexivity.
  - apply (bool_decide_eq_true_1 (range_order two_taxi_store [2; 1])).
    vm_compute. reflexivity.
Defined.

Lemma available_at_alter (f : Taxi → Taxi) (p : nat) ts id id' :
  wf_store ts → taxis ts !! id = Some p →
  available_at {| heap := alter f p (heap ts); taxis := taxis ts;
                  nextID := nextID ts |} id'
  = if decide (id' = id)
    then (if Taxi_IsAvailable (f (heap ts !!! p)) then Some p else None)
    else available_at ts id'.
Proof.
  intros Hwf Hp. unfold available_at. simpl.
  destruct (wf_store_lookup _ _ _ Hwf Hp) as (Hlt & _ & _).
  case_decide as Hid.
  - subst id'. rewrite Hp. by rewrite list_lookup_total_alter_eq.
  - destruct (taxis ts !! id') as [q|] eqn:Hq; [|done].
    rewrite list_lookup_total_alter_ne; [done|].
    intros ->. apply Hid. by eapply wf_store_inj.
Qed.

Lemma elem_of_GetAllAvailable_alter (f : Taxi → Taxi) (p : nat) ts order id q :
  wf_store ts → id ∈ order → taxis ts !! id = Some p →
  q ∈ GetAllAvailable order
        {| heap := alter f p (heap ts); taxis := taxis ts;
           nextID := nextID ts |} ↔
  (q = p ∧ Taxi_IsAvailable (f (heap ts !!! p)) = true)
  ∨ (q ≠ p ∧ q ∈ GetAllAvailable order ts).
Proof.
  intros Hwf Hin Hp.
  rewrite !GetAllAvailable_omap, !list_elem_of_omap. split.
  - intros (id' & Hid' & Hav).
    rewrite (available_at_alter f p ts id id' Hwf Hp) in Hav.
    case_decide as Hd.
    + left. destruct (Taxi_IsAvailable (f (heap ts !!! p))); [|done].
      by injection Hav as <-.
    + right. split; [|eauto]. intros ->. apply Hd.
      unfold available_at in Hav.
      destruct (taxis ts !! id') as [q'|] eqn:Hq'; [|done].
      destruct (Taxi_IsAvailable (heap ts !!! q')); [|done].
      injection Hav as ->. by eapply wf_store_inj.
  - intros [[-> Hav]|[Hne (id' & Hid' & Hav)]].
    + exists id. split; [done|].
      by rewrite (available_at_alter f p ts id id Hwf Hp), decide_True, Hav.
    + exists id'. split; [done|].
      rewrite (available_at_alter f p ts id id' Hwf Hp), decide_False;
        [done|].
      intros ->. unfold available_at in Hav. rewrite Hp in Hav.
      destruct (Taxi_IsAvailable (heap ts !!! p)); [|done]. congruence.
Qed.

(** X7. What a store update does to the listing: after [SetAvailability id
    false] the listing is the old one without that vehicle, after
    [SetAvailability id true] it is the old one with that vehicle, and
    [UpdateLocation] leaves the listing as it is. *)
Theorem GetAllAvailable_after_update
    (ts : TaxiStore) (order : list Z) (id : Z) (p : nat) (loc : Location) :
  wf_store ts → range_order ts order → Get id ts = Some p →
  (∀ q, q ∈ GetAllAvailable order (SetAvailability id false ts).2 ↔
        q ∈ GetAllAvailable order ts ∧ q ≠ p)
  ∧ (∀ q, q ∈ GetAllAvailable order (SetAvailability id true ts).2 ↔
          q ∈ GetAllAvailable order ts ∨ q = p)
  ∧ GetAllAvailable order (UpdateLocation id loc ts).2
    = GetAllAvailable order ts.
Proof.
  intros Hwf Ho Hp. unfold Get in Hp.
  assert (Hin : id ∈ order) by (apply (range_order_elem _ _ _ Ho); eauto).
  assert (Hmem : ∀ (f : Taxi → Taxi) q,
    q ∈ GetAllAvailable order
          {| heap := alter f p (heap ts); taxis := taxis ts;
             nextID := nextID ts |} ↔
    (q = p ∧ Taxi_IsAvailable (f (heap ts !!! p)) = true)
    ∨ (q ≠ p ∧ q ∈ GetAllAvailable order ts))
    by (intros f q; by apply (elem_of_GetAllAvailable_alter f p ts order id)).
  split; [|split].
  - intros q. destruct (SetAvailability_lookup ts id false p Hwf Hp) as [-> _].
    cbn [snd]. rewrite Hmem. simpl. split.
    + intros [[_ ?]|[? ?]]; done.
    + intros [? ?]. by right.
  - intros q. destruct (SetAvailability_lookup ts id true p Hwf Hp) as [-> _].
    cbn [snd]. rewrite Hmem. simpl. split.
    + intros [[? _]|[? ?]]; [by right|by left].
    + intros [?| ->]; [|by left].
      destruct (decide (q = p)) as [->|Hne]; [by left|by right].
  - destruct (UpdateLocation_lookup ts id loc p Hwf Hp) as [-> _]. cbn [snd].
    rewrite !GetAllAvailable_omap. apply list_omap_ext.
    apply Forall2_same_length_lookup. split; [done|].
    intros i x y Hx Hy. assert (x = y) as <- by congruence.
    rewrite (available_at_alter _ p ts id x Hwf Hp).
    case_decide as Hd; [|done]. subst x. unfold available_at. rewrite Hp.
    done.
Qed.

Lemma GetAllAvailable_after_update_witness :
  (∀ q, q ∈ GetAllAvailable [1; 2] (SetAvailability 1 false two_taxi_store).2 ↔
        q ∈ GetAllAvailable [1; 2] two_taxi_store ∧ q ≠ 0%nat)
  ∧ GetAllAvailable [1; 2] (UpdateLocation 1 (mkLocation 7 7) two_taxi_store).2
    = GetAllAvailable [1; 2] two_taxi_store.
Proof.
  assert (Hwf : wf_store two_taxi_store)
    by (apply (bool_decide_eq_true_1 (wf_store two_taxi_store));
        vm_compute; reflexivity).
  assert (Ho : range_order two_taxi_store [1; 2])
    by (apply (bool_decide_eq_true_1 (range_order two_taxi_store [1; 2]));
        vm_compute; reflexivity).
  pose proof (GetAllAvailable_after_update two_taxi_store [1; 2] 1 0%nat
                (mkLocation 7 7) Hwf Ho eq_refl) as (H1 & _ & H3).
  split; [exact H1 | exact H3].
Defined.

(** ** manager.go *)

(** X8. [UpdateTaxiLocation] returns the not-found error, naming the ID,
    exactly when the ID is not in the store, and then changes nothing; on a
    well-formed store a nil error means that [GetTaxi] now shows the vehicle
    at the new location, with its availability as before: relocating does not
    free or reserve a vehicle. *)
Theorem UpdateTaxiLocation_error_iff_unknown
    (ts : TaxiStore) (id : Z) (loc : Location) :
  ((UpdateTaxiLocation id loc ts).1 = Some (TaxiNotFound id) ↔
   GetTaxi id ts = None)
  ∧ ((UpdateTaxiLocation id loc ts).1 = None ↔ is_Some (GetTaxi id ts))
  ∧ (GetTaxi id ts = None → (UpdateTaxiLocation id loc ts).2 = ts)
  ∧ (wf_store ts → ∀ p : nat, GetTaxi id ts = Some p →
     GetTaxi id (UpdateTaxiLocation id loc ts).2 = Some p
     ∧ Taxi_Location (heap (UpdateTaxiLocation id loc ts).2 !!! p) = loc
     ∧ Taxi_IsAvailable (heap (UpdateTaxiLocation id loc ts).2 !!! p)
       = Taxi_IsAvailable (heap ts !!! p)).
Proof.
  unfold UpdateTaxiLocation, GetTaxi, Get.
  split; [|split; [|split]].
  - unfold UpdateLocation. destruct (taxis ts !! id); simpl; split; done.
  - unfold UpdateLocation. destruct (taxis ts !! id); simpl; split;
      try done; try (by intros [? ?]); eauto.
  - unfold UpdateLocation. by intros ->.
  - intros Hwf p Hp.
    destruct (UpdateLocation_lookup ts id loc p Hwf Hp) as [Heq Hh].
    rewrite Heq in Hh |- *. cbn [fst snd negb taxis] in *.
    split; [done|]. by rewrite Hh.
Qed.

Lemma UpdateTaxiLocation_error_iff_unknown_witness :
  (UpdateTaxiLocation 9 (mkLocation 3 3) two_taxi_store).1
  = Some (TaxiNotFound 9)
  ∧ Taxi_Location
      (heap (UpdateTaxiLocation 1 (mkLocation 3 3) two_taxi_store).2 !!! 0%nat)
    = mkLocation 3 3.
Proof.
  assert (Hwf : wf_store two_taxi_store)
    by (apply (bool_decide_eq_true_1 (wf_store two_taxi_store));
        vm_compute; reflexivity).
  pose proof (UpdateTaxiLocation_error_iff_unknown two_taxi_store 9
                (mkLocation 3 3)) as (H1 & _).
  pose proof (UpdateTaxiLocation_error_iff_unknown two_taxi_store 1
                (mkLocation 3 3)) as (_ & _ & _ & H4).
  split.
  - apply H1. reflexivity.
  - exact (proj1 (proj2 (H4 Hwf 0%nat eq_refl))).
Defined.

(** ** server.go and scheduler.go, beyond the claims *)

Lemma AssignClosestTaxi_shape order ts ride :
  taxis (AssignClosestTaxi order ts ride).1.2 = taxis ts
  ∧ nextID (AssignClosestTaxi order ts ride).1.2 = nextID ts
  ∧ length (heap (AssignClosestTaxi order ts ride).1.2) = length (heap ts)
  ∧ (((AssignClosestTaxi order ts ride).1.1 = None
      ∧ (AssignClosestTaxi order ts ride).2 = ride)
     ∨ (∃ p : nat, (AssignClosestTaxi order ts ride).1.1 = Some p
          ∧ (AssignClosestTaxi order ts ride).2
            = assign_ride (Taxi_ID (heap ts !!! p)) ride)).
Proof.
  unfold AssignClosestTaxi.
  destruct (length (GetAllAvailable order ts) =? 0)%nat; [by eauto 10|].
  destruct (closest_loop _ _ _ _ _) as [[p|] cd]; [|by eauto 10].
  unfold SetAvailability.
  destruct (taxis ts !! _); cbn [fst snd heap taxis nextID];
    rewrite ?length_alter; eauto 10.
Qed.

Lemma processRequest_shape order request s :
  rideRequests (processRequest order request s) = rideRequests s
  ∧ shutdown (processRequest order request s) = shutdown s
  ∧ nextRideID (processRequest order request s) = int_add (nextRideID s) 1
  ∧ taxis (taxiStore (processRequest order request s)) = taxis (taxiStore s)
  ∧ ((rides (processRequest order request s)
      = rides s ++ [new_ride (nextRideID s) request]
      ∧ pending (processRequest order request s) = pending s)
     ∨ (∃ (p : nat) d,
          rides (processRequest order request s)
          = rides s
            ++ [mkRide (nextRideID s) (Req_ClientID request)
                  (Taxi_ID (heap (taxiStore s) !!! p))
                  (Req_StartLocation request) (Req_EndLocation request)
                  IN_PROGRESS]
          ∧ pending (processRequest order request s)
            = pending s ++ [(length (rides s), p, d)])).
Proof.
  unfold processRequest.
  pose proof (AssignClosestTaxi_shape order (taxiStore s)
                (new_ride (nextRideID s) request))
    as (Htaxis & _ & _ & Hcases).
  destruct (AssignClosestTaxi order (taxiStore s)
              (new_ride (nextRideID s) request)) as [[taxi ts] ride].
  cbn [fst snd] in *.
  destruct Hcases as [[-> ->]|(p & -> & ->)]; cbn; eauto 10.
Qed.

Lemma endRide_shape (i p : nat) s :
  rides (endRide i p s) = alter (set_Status FINISHED) i (rides s)
  ∧ pending (endRide i p s) = pending s
  ∧ rideRequests (endRide i p s) = rideRequests s
  ∧ shutdown (endRide i p s) = shutdown s
  ∧ nextRideID (endRide i p s) = nextRideID s
  ∧ taxis (taxiStore (endRide i p s)) = taxis (taxiStore s).
Proof.
  unfold endRide, UpdateLocation, SetAvailability.
  destruct (taxis (taxiStore s) !! _) as [q|] eqn:E; cbn [taxis];
    rewrite ?E; done.
Qed.

(** The cases of a step, by what it does to the queue, the flag, the rides
    and the goroutines. *)
Lemma step_cases e s s' :
  step e s = Some s' →
  match e with
  | EvRegisterTaxi l =>
      s' = (RegisterTaxi l s).2
  | EvRequestRide c a b =>
      rides s' = rides s ∧ pending s' = pending s
      ∧ taxiStore s' = taxiStore s ∧ shutdown s' = shutdown s
      ∧ nextRideID s' = nextRideID s
      ∧ cap (rideRequests s') = cap (rideRequests s)
      ∧ closed (rideRequests s') = closed (rideRequests s)
      ∧ ((shutdown s = true ∧ rideRequests s' = rideRequests s)
         ∨ (shutdown s = false ∧ closed (rideRequests s) = false
            ∧ (length (buf (rideRequests s)) < cap (rideRequests s))%nat
            ∧ buf (rideRequests s')
              = buf (rideRequests s) ++ [mkRideRequest c a b]))
  | EvProcess order =>
      range_order (taxiStore s) order
      ∧ ∃ request rest,
          buf (rideRequests s) = request :: rest
          ∧ s' = processRequest order request
                   (with_chan {| buf := rest; cap := cap (rideRequests s);
                                 closed := closed (rideRequests s) |} s)
  | EvComplete k =>
      ∃ (i p : nat) d,
        pending s !! k = Some (i, p, d)
        ∧ s' = endRide i p
                 {| taxiStore := taxiStore s; rideRequests := rideRequests s;
                    shutdown := shutdown s; nextRideID := nextRideID s;
                    rides := rides s; pending := delete k (pending s) |}
  | EvShutdown =>
      closed (rideRequests s) = false
      ∧ s' = with_chan {| buf := buf (rideRequests s);
                          cap := cap (rideRequests s); closed := true |}
               (Shutdown_set_flag s)
  end.
Proof.
  destruct e as [l|c a b|order|k|]; simpl.
  - by intros [= <-].
  - unfold RequestRide, chan_send. destruct (shutdown s) eqn:Hsh.
    + intros [= <-]. rewrite Hsh. eauto 12.
    + destruct (closed (rideRequests s)) eqn:Hcl; [done|].
      destruct (Nat.ltb_spec (length (buf (rideRequests s)))
                  (cap (rideRequests s))); [|done].
      intros [= <-]. simpl. rewrite Hsh. repeat split; try done. right. done.
  - case_bool_decide; [|done]. unfold chan_recv.
    destruct (buf (rideRequests s)) as [|request rest] eqn:Hbuf; [done|].
    intros [= <-]. eauto.
  - destruct (pending s !! k) as [[[i p] d]|] eqn:Hk; [|done].
    intros [= <-]. eauto 10.
  - unfold Shutdown, chan_close. simpl.
    destruct (closed (rideRequests s)) eqn:Hcl; [done|].
    intros [= <-]. done.
Qed.

Lemma run_invariant (P : System → Prop) :
  (∀ e s s', P s → step e s = Some s' → P s') →
  ∀ evs s s', P s → run evs s = Some s' → P s'.
Proof.
  intros Hstep. induction evs as [|e evs IH]; intros s s' HP; simpl.
  - by intros [= <-].
  - destruct (step e s) as [s1|] eqn:He; [|done]. apply IH. by eapply Hstep.
Qed.

Lemma channel_invariant_step e s s' :
  closed (rideRequests s) = shutdown s
  ∧ cap (rideRequests s) = 150%nat
  ∧ (length (buf (rideRequests s)) ≤ 150)%nat →
  step e s = Some s' →
  closed (rideRequests s') = shutdown s'
  ∧ cap (rideRequests s') = 150%nat
  ∧ (length (buf (rideRequests s')) ≤ 150)%nat.
Proof.
  intros (Hcl & Hcap & Hlen) Hstep.
  apply step_cases in Hstep. destruct e as [l|c a b|order|k|].
  - by subst s'.
  - destruct Hstep as (_ & _ & _ & Hsh & _ & Hcap' & Hcl' & Hcases).
    rewrite Hcl', Hsh, Hcap'. split; [done|]. split; [done|].
    destruct Hcases as [[_ ->]|(_ & _ & Hlt & ->)]; [done|].
    rewrite length_app. simpl. lia.
  - destruct Hstep as (_ & request & rest & Hbuf & ->).
    destruct (processRequest_shape order request
      (with_chan {| buf := rest; cap := cap (rideRequests s);
                    closed := closed (rideRequests s) |} s))
      as (-> & -> & _).
    simpl. rewrite Hbuf in Hlen. simpl in Hlen. split; [done|].
    split; [done|lia].
  - destruct Hstep as (i & p & d & _ & ->).
    destruct (endRide_shape i p
      {| taxiStore := taxiStore s; rideRequests := rideRequests s;
         shutdown := shutdown s; nextRideID := nextRideID s;
         rides := rides s; pending := delete k (pending s) |})
      as (_ & _ & -> & -> & _). done.
  - destruct Hstep as (_ & ->). done.
Qed.

Lemma channel_invariant_run evs s :
  run evs NewServer = Some s →
  closed (rideRequests s) = shutdown s
  ∧ cap (rideRequests s) = 150%nat
  ∧ (length (buf (rideRequests s)) ≤ 150)%nat.
Proof.
  intros Hrun.
  refine (run_invariant
            (λ s, closed (rideRequests s) = shutdown s
                  ∧ cap (rideRequests s) = 150%nat
                  ∧ (length (buf (rideRequests s)) ≤ 150)%nat)
            channel_invariant_step evs NewServer s _ Hrun).
  split; [done|]. split; [done|]. simpl. lia.
Qed.

(** X9. In every reachable state the channel is closed exactly when the
    shutdown flag is set, and the queue holds at most its 150 slots; so a
    [RequestRide] taken as one step never sends on a closed channel, and
    [Shutdown] panics exactly when the server is already shut down. *)
Theorem channel_follows_flag
    (evs : list event) (s : System) (clientID : Z) (a b : Location) :
  run evs NewServer = Some s →
  closed (rideRequests s) = shutdown s
  ∧ cap (rideRequests s) = 150%nat
  ∧ (length (buf (rideRequests s)) ≤ 150)%nat
  ∧ RequestRide clientID a b s ≠ Panics
  ∧ (Shutdown s = Panics ↔ shutdown s = true).
Proof.
  intros Hrun.
  pose proof (channel_invariant_run _ _ Hrun) as HP.
  destruct HP as (Hcl & Hcap & Hlen). split; [done|]. split; [done|].
  split; [done|]. split.
  - unfold RequestRide, chan_send. rewrite Hcl.
    destruct (shutdown s); [done|].
    by destruct (length (buf (rideRequests s)) <? cap (rideRequests s))%nat.
  - unfold Shutdown, chan_close. simpl. rewrite Hcl.
    by destruct (shutdown s).
Qed.

Lemma channel_follows_flag_witness :
  closed (rideRequests one_ride_state) = shutdown one_ride_state
  ∧ cap (rideRequests one_ride_state) = 150%nat
  ∧ (length (buf (rideRequests one_ride_state)) ≤ 150)%nat
  ∧ RequestRide 2 (mkLocation 1 1) (mkLocation 2 2) one_ride_state ≠ Panics
  ∧ (Shutdown one_ride_state = Panics ↔ shutdown one_ride_state = true).
Proof.
  apply (channel_follows_flag one_ride_trace). vm_compute. reflexivity.
Defined.

(** X10. The flag check and the send of [RequestRide] are two steps, as are
    the flag write and the close of [Shutdown], and each call is its two
    halves in sequence.  A request that has passed the check when a shutdown
    runs panics at its send: the flag does not protect a send that is
    already under way. *)
Theorem RequestRide_races_with_Shutdown
    (s : System) (clientID : Z) (a b : Location) :
  shutdown s = false → closed (rideRequests s) = false →
  RequestRide clientID a b s
  = (if RequestRide_check s then RequestRide_send clientID a b s
     else Returns (false, s))
  ∧ Shutdown s = Shutdown_close (Shutdown_set_flag s)
  ∧ RequestRide_check s = true
  ∧ ∃ s1, Shutdown s = Returns s1
          ∧ RequestRide_send clientID a b s1 = Panics.
Proof.
  intros Hsh Hcl.
  unfold RequestRide, RequestRide_check, RequestRide_send, Shutdown,
    Shutdown_close, Shutdown_set_flag, chan_close, chan_send.
  cbn [rideRequests shutdown]. rewrite Hsh, Hcl. cbn [negb].
  split; [done|]. split; [done|]. split; [done|].
  eexists. split; [reflexivity|]. done.
Qed.

Lemma RequestRide_races_with_Shutdown_witness :
  RequestRide_check NewServer = true
  ∧ ∃ s1, Shutdown NewServer = Returns s1
          ∧ RequestRide_send 1 (mkLocation 0 0) (mkLocation 5 0) s1 = Panics.
Proof.
  exact (proj2 (proj2 (RequestRide_races_with_Shutdown NewServer 1
                         (mkLocation 0 0) (mkLocation 5 0) eq_refl eq_refl))).
Defined.

Lemma request_count_cons e evs :
  request_count (e :: evs)
  = ((if is_request e then 1 else 0) + request_count evs)%nat.
Proof.
  unfold request_count. rewrite filter_cons.
  case_decide as Hd; destruct (is_request e); try done; simpl; lia.
Qed.

Lemma queue_length_run evs : ∀ s s',
  run evs s = Some s' →
  (length (buf (rideRequests s'))
   ≤ length (buf (rideRequests s)) + request_count evs)%nat.
Proof.
  induction evs as [|e evs IH]; intros s s'.
  - intros [= <-]. simpl. lia.
  - simpl run. destruct (step e s) as [s1|] eqn:Hstep; [|done]. intros Hrun.
    specialize (IH _ _ Hrun). rewrite request_count_cons.
    apply step_cases in Hstep. destruct e as [l|c a b|order|k|]; simpl.
    + subst s1. simpl in IH. lia.
    + destruct Hstep as (_ & _ & _ & _ & _ & _ & _ & Hcases).
      destruct Hcases as [[_ Heq]|(_ & _ & _ & Heq)]; rewrite Heq in IH;
        rewrite ?length_app in IH; simpl in IH; lia.
    + destruct Hstep as (_ & request & rest & Hbuf & ->).
      destruct (processRequest_shape order request
        (with_chan {| buf := rest; cap := cap (rideRequests s);
                      closed := closed (rideRequests s) |} s))
        as (Heq & _).
      rewrite Heq in IH. simpl in IH. rewrite Hbuf. simpl. lia.
    + destruct Hstep as (i & p & d & _ & ->).
      destruct (endRide_shape i p
        {| taxiStore := taxiStore s; rideRequests := rideRequests s;
           shutdown := shutdown s; nextRideID := nextRideID s;
           rides := rides s; pending := delete k (pending s) |})
        as (_ & _ & Heq & _). rewrite Heq in IH. simpl in IH. lia.
    + destruct Hstep as (_ & ->). simpl in IH. lia.
Qed.

(** X12. The queue never holds more requests than were submitted, so as long
    as fewer than 150 [RequestRide] calls have been made in all (the user
    client makes 100) and the server is not shut down, a [RequestRide] does
    not wait, whatever the scheduler has or has not processed: it appends
    the request to the queue and returns true. *)
Theorem RequestRide_never_waits_below_capacity
    (evs : list event) (s : System) (clientID : Z) (a b : Location) :
  run evs NewServer = Some s →
  (length (buf (rideRequests s)) ≤ request_count evs)%nat
  ∧ ((request_count evs < 150)%nat → shutdown s = false →
     RequestRide clientID a b s
     = Returns (true,
         with_chan {| buf := buf (rideRequests s)
                             ++ [mkRideRequest clientID a b];
                      cap := 150; closed := false |} s)).
Proof.
  intros Hrun.
  pose proof (queue_length_run _ _ _ Hrun) as Hlen. simpl in Hlen.
  split; [done|]. intros Hcount Hsh.
  pose proof (channel_invariant_run _ _ Hrun) as (Hcl & Hcap & _).
  unfold RequestRide, chan_send. rewrite Hsh, Hcl, Hsh, Hcap.
  destruct (Nat.ltb_spec (length (buf (rideRequests s))) 150); [done|lia].
Qed.

Lemma RequestRide_never_waits_below_capacity_witness :
  (request_count one_ride_trace < 150)%nat
  ∧ RequestRide 2 (mkLocation 1 1) (mkLocation 2 2) one_ride_state
    = Returns (true,
        with_chan {| buf := [mkRideRequest 2 (mkLocation 1 1) (mkLocation 2 2)];
                     cap := 150; closed := false |} one_ride_state).
Proof.
  assert (Hc : (request_count one_ride_trace < 150)%nat)
    by (vm_compute; lia).
  split; [exact Hc|].
  exact (proj2 (RequestRide_never_waits_below_capacity one_ride_trace
                  one_ride_state 2 (mkLocation 1 1) (mkLocation 2 2)
                  one_ride_run) Hc eq_refl).
Defined.

Lemma lookup_alter_set_Status st (i j : nat) (rs : list Ride) r' :
  alter (set_Status st) i rs !! j = Some r' →
  ∃ r, rs !! j = Some r
       ∧ ((j ≠ i ∧ r' = r) ∨ (j = i ∧ r' = set_Status st r)).
Proof.
  rewrite list_lookup_alter. case_decide as Hij.
  - subst j. destruct (rs !! i) as [r|]; [|done]. simpl.
    intros [= <-]. eauto.
  - eauto.
Qed.

(** X13. Ride IDs are handed out in admission order: the ride allocated by
    the i-th processed request (counting from 0) has ID i + 1, as long as
    fewer than 2^63 - 1 requests have been processed, and the next ID is one
    more than the number of rides; so ride IDs are strictly increasing and
    unique. *)
Theorem ride_ids_sequential (evs : list event) (s : System) :
  run evs NewServer = Some s →
  nextRideID s = wrap (1 + Z.of_nat (length (rides s)))
  ∧ (∀ (i : nat) r, rides s !! i = Some r →
       Z.of_nat i < 2 ^ 63 - 1 → Ride_ID r = 1 + Z.of_nat i)
  ∧ (∀ (i j : nat) r1 r2,
       rides s !! i = Some r1 → rides s !! j = Some r2 →
       (i < j)%nat → Z.of_nat j < 2 ^ 63 - 1 → Ride_ID r1 < Ride_ID r2).
Proof.
  intros Hrun.
  assert (HP : nextRideID s = wrap (1 + Z.of_nat (length (rides s)))
               ∧ ∀ (i : nat) r, rides s !! i = Some r →
                   Ride_ID r = wrap (1 + Z.of_nat i)).
  { refine (run_invariant
              (λ s, nextRideID s = wrap (1 + Z.of_nat (length (rides s)))
                    ∧ ∀ (i : nat) r, rides s !! i = Some r →
                        Ride_ID r = wrap (1 + Z.of_nat i))
              _ evs NewServer s _ Hrun).
    2:{ split; [done|]. intros i r Hi. simpl in Hi. discriminate Hi. }
    clear. intros e s s' [Hnext Hids] Hstep.
    apply step_cases in Hstep. destruct e as [l|c a b|order|k|].
    - by subst s'.
    - destruct Hstep as (-> & _ & _ & _ & -> & _). done.
    - destruct Hstep as (_ & request & rest & Hbuf & ->).
      destruct (processRequest_shape order request
        (with_chan {| buf := rest; cap := cap (rideRequests s);
                      closed := closed (rideRequests s) |} s))
        as (_ & _ & Hn & _ & Hcases).
      rewrite Hn. cbn [with_chan nextRideID rides] in *.
      assert (Hnew : ∀ r0, Ride_ID r0 = nextRideID s →
                wrap (nextRideID s + 1)
                = wrap (1 + Z.of_nat (length (rides s ++ [r0])))
                ∧ ∀ (i : nat) r, (rides s ++ [r0]) !! i = Some r →
                    Ride_ID r = wrap (1 + Z.of_nat i)).
      { intros r0 Hr0. split.
        - rewrite Hnext, wrap_add_wrap_l, length_app. simpl. f_equal. lia.
        - intros i r [[_ Hi]|[-> <-]]%lookup_snoc_Some; [by apply Hids|].
          by rewrite Hr0. }
      destruct Hcases as [[-> _]|(p & d & -> & _)]; by apply Hnew.
    - destruct Hstep as (i & p & d & _ & ->).
      destruct (endRide_shape i p
        {| taxiStore := taxiStore s; rideRequests := rideRequests s;
           shutdown := shutdown s; nextRideID := nextRideID s;
           rides := rides s; pending := delete k (pending s) |})
        as (-> & _ & _ & _ & -> & _).
      cbn [rides nextRideID]. rewrite length_alter. split; [done|].
      intros j r' (r & Hj & [[_ ->]|[_ ->]])%lookup_alter_set_Status;
        cbn [Ride_ID set_Status]; by apply Hids.
    - destruct Hstep as (_ & ->). done. }
  destruct HP as [Hnext Hids]. split; [done|].
  assert (Hid : ∀ (i : nat) r, rides s !! i = Some r →
                  Z.of_nat i < 2 ^ 63 - 1 → Ride_ID r = 1 + Z.of_nat i).
  { intros i r Hi Hlt. rewrite (Hids i r Hi). apply wrap_id.
    unfold is_int, min_int, max_int. lia. }
  split; [done|].
  intros i j r1 r2 Hi Hj Hij Hlt.
  rewrite (Hid i r1 Hi), (Hid j r2 Hj) by lia. lia.
Qed.

Lemma ride_ids_sequential_witness :
  nextRideID one_ride_state
  = wrap (1 + Z.of_nat (length (rides one_ride_state)))
  ∧ (∀ (i : nat) r, rides one_ride_state !! i = Some r →
       Z.of_nat i < 2 ^ 63 - 1 → Ride_ID r = 1 + Z.of_nat i).
Proof.
  pose proof (ride_ids_sequential one_ride_trace one_ride_state one_ride_run)
    as (H1 & H2 & _).
  split; [exact H1 | exact H2].
Defined.

(** X15. A ride object, once allocated, keeps its ID, client, pickup,
    dropoff and TaxiID through every later step, and its status either
    stays or becomes FINISHED: the status never moves backwards and FINISHED
    is final. *)
Theorem ride_status_monotone
    (evs : list event) (s s' : System) (i : nat) (r : Ride) :
  run evs s = Some s' → rides s !! i = Some r →
  ∃ r', rides s' !! i = Some r'
    ∧ Ride_ID r' = Ride_ID r
    ∧ ride_request r' = ride_request r
    ∧ Ride_TaxiID r' = Ride_TaxiID r
    ∧ (Ride_Status r' = Ride_Status r ∨ Ride_Status r' = FINISHED)
    ∧ (status_rank (Ride_Status r) ≤ status_rank (Ride_Status r'))%nat.
Proof.
  intros Hrun Hi.
  assert (Hrank : ∀ st, (status_rank st ≤ status_rank FINISHED)%nat)
    by (intros []; simpl; lia).
  refine (run_invariant
            (λ s1, ∃ r', rides s1 !! i = Some r'
               ∧ Ride_ID r' = Ride_ID r
               ∧ ride_request r' = ride_request r
               ∧ Ride_TaxiID r' = Ride_TaxiID r
               ∧ (Ride_Status r' = Ride_Status r ∨ Ride_Status r' = FINISHED)
               ∧ (status_rank (Ride_Status r)
                  ≤ status_rank (Ride_Status r'))%nat)
            _ evs s s' _ Hrun); [|by eauto 10].
  clear -Hrank. intros e s1 s2 (r' & Hi & Hid & Hreq & Htaxi & Hst & Hle) Hstep.
  apply step_cases in Hstep. destruct e as [l|c a b|order|k|].
  - subst s2. eauto 10.
  - destruct Hstep as (-> & _). eauto 10.
  - destruct Hstep as (_ & request & rest & Hbuf & ->).
    destruct (processRequest_shape order request
      (with_chan {| buf := rest; cap := cap (rideRequests s1);
                    closed := closed (rideRequests s1) |} s1))
      as (_ & _ & _ & _ & Hcases).
    exists r'. split; [|done].
    destruct Hcases as [[-> _]|(p & d & -> & _)];
      by apply lookup_app_l_Some.
  - destruct Hstep as (i0 & p & d & _ & ->).
    destruct (endRide_shape i0 p
      {| taxiStore := taxiStore s1; rideRequests := rideRequests s1;
         shutdown := shutdown s1; nextRideID := nextRideID s1;
         rides := rides s1; pending := delete k (pending s1) |})
      as (-> & _). cbn [rides].
    rewrite list_lookup_alter. case_decide as Hd.
    + subst i0. rewrite Hi. simpl. eexists. split; [reflexivity|].
      simpl. split; [done|]. split; [by destruct r'|]. split; [done|].
      split; [by right|]. apply Hrank.
    + eauto 10.
  - destruct Hstep as (_ & ->). eauto 10.
Qed.

Lemma ride_status_monotone_witness :
  ∃ s' r', run [EvComplete 0] one_ride_state = Some s'
    ∧ rides s' !! 0%nat = Some r'
    ∧ Ride_ID r' = 1
    ∧ (status_rank IN_PROGRESS ≤ status_rank (Ride_Status r'))%nat.
Proof.
  assert (Hrun : run [EvComplete 0] one_ride_state
                 = Some (endRide 0 0
                           {| taxiStore := taxiStore one_ride_state;
                              rideRequests := rideRequests one_ride_state;
                              shutdown := false; nextRideID := 2;
                              rides := rides one_ride_state;
                              pending := [] |}))
    by (vm_compute; reflexivity).
  destruct (ride_status_monotone [EvComplete 0] one_ride_state _ 0%nat
              (mkRide 1 1 1 (mkLocation 0 0) (mkLocation 5 0) IN_PROGRESS)
              Hrun eq_refl) as (r' & H1 & H2 & _ & _ & _ & H3).
  eexists. exists r'. split; [exact Hrun|]. split; [exact H1|].
  split; [exact H2 | exact H3].
Defined.

Lemma lookup_delete_other {A} (l : list A) (k j : nat) x :
  l !! j = Some x → j ≠ k → ∃ j', delete k l !! j' = Some x.
Proof.
  intros Hj Hne. destruct (decide (j < k)%nat) as [Hlt|Hge].
  - exists j. by rewrite list_lookup_delete_lt.
  - exists (j - 1)%nat. rewrite list_lookup_delete_ge by lia.
    by replace (S (j - 1)) with j by lia.
Qed.

Lemma goroutines_match_step e s s' :
  goroutines_match s → step e s = Some s' → goroutines_match s'.
Proof.
  intros (Hpend & Huniq & Hprog & Hnot & Hcre) Hstep.
  apply step_cases in Hstep. destruct e as [l|c a b|order|k|].
  - subst s'. done.
  - destruct Hstep as (Hr & Hp & _).
    unfold goroutines_match. rewrite Hr, Hp. done.
  - destruct Hstep as (_ & request & rest & Hbuf & ->).
    destruct (processRequest_shape order request
      (with_chan {| buf := rest; cap := cap (rideRequests s);
                    closed := closed (rideRequests s) |} s))
      as (_ & _ & _ & _ & Hcases).
    cbn [with_chan rides pending nextRideID taxiStore] in Hcases.
    unfold goroutines_match.
    destruct Hcases as [[-> ->]|(p & d & -> & ->)].
    + split; [|split; [done|split; [|split]]].
      * intros k i p d Hk. destruct (Hpend _ _ _ _ Hk) as (r & Hi & Hst).
        exists r. split; [by apply lookup_app_l_Some|done].
      * intros i r [[_ Hi]|[_ <-]]%lookup_snoc_Some Hst; [by eapply Hprog|].
        done.
      * intros i r [[_ Hi]|[_ <-]]%lookup_snoc_Some; [by eapply Hnot|done].
      * intros i r [[_ Hi]|[_ <-]]%lookup_snoc_Some; [by eapply Hcre|done].
    + assert (Hold : ∀ (k i q : nat) d', pending s !! k = Some (i, q, d') →
                (i < length (rides s))%nat).
      { intros k i q d' Hk. destruct (Hpend _ _ _ _ Hk) as (r & Hi & _).
        by eapply lookup_lt_Some. }
      split; [|split; [|split; [|split]]].
      * intros k i q d' [[_ Hk]|[_ Hk]]%lookup_snoc_Some.
        -- destruct (Hpend _ _ _ _ Hk) as (r & Hi & Hst).
           exists r. split; [by apply lookup_app_l_Some|done].
        -- injection Hk as <- <- <-. eexists.
           split; [by rewrite list_lookup_middle|done].
      * intros k1 k2 i p1 p2 d1 d2
          [[_ H1]|[-> H1]]%lookup_snoc_Some [[_ H2]|[-> H2]]%lookup_snoc_Some.
        -- by eapply Huniq.
        -- injection H2 as <- _ _. apply Hold in H1. lia.
        -- injection H1 as <- _ _. apply Hold in H2. lia.
        -- done.
      * intros i r [[_ Hi]|[-> <-]]%lookup_snoc_Some Hst.
        -- destruct (Hprog _ _ Hi Hst) as (k & q & d' & Hk).
           exists k, q, d'. by apply lookup_app_l_Some.
        -- exists (length (pending s)), p, d. by rewrite list_lookup_middle.
      * intros i r [[_ Hi]|[_ <-]]%lookup_snoc_Some; [by eapply Hnot|done].
      * intros i r [[_ Hi]|[_ <-]]%lookup_snoc_Some; [by eapply Hcre|done].
  - destruct Hstep as (i & p & d & Hk & ->).
    destruct (endRide_shape i p
      {| taxiStore := taxiStore s; rideRequests := rideRequests s;
         shutdown := shutdown s; nextRideID := nextRideID s;
         rides := rides s; pending := delete k (pending s) |})
      as (Hr & Hp & _).
    unfold goroutines_match. rewrite Hr, Hp. cbn [rides pending].
    split; [|split; [|split; [|split]]].
    + intros k0 i0 q d0 Hk0%lookup_delete_original.
      destruct (Hpend _ _ _ _ Hk0) as (r0 & Hi0 & Hst0).
      exists r0. split; [|done]. rewrite list_lookup_alter_ne; [done|].
      intros <-. pose proof (Huniq _ _ _ _ _ _ _ Hk Hk0). case_decide; lia.
    + intros k1 k2 i0 p1 p2 d1 d2
        H1%lookup_delete_original H2%lookup_delete_original.
      pose proof (Huniq _ _ _ _ _ _ _ H1 H2). repeat case_decide; lia.
    + intros j r' (r & Hj & [[Hji ->]|[_ ->]])%lookup_alter_set_Status Hst;
        [|done].
      destruct (Hprog _ _ Hj Hst) as (k' & q & d' & Hk').
      assert (Hne : k' ≠ k) by (intros ->; congruence).
      destruct (lookup_delete_other (pending s) k k' _ Hk' Hne) as [k3 Hk3].
      eauto.
    + intros j r' (r & Hj & [[_ ->]|[_ ->]])%lookup_alter_set_Status;
        [by eapply Hnot|done].
    + intros j r' (r & Hj & [[_ ->]|[_ ->]])%lookup_alter_set_Status;
        [by eapply Hcre|done].
  - destruct Hstep as (_ & ->). done.
Qed.

Lemma goroutines_match_run evs s :
  run evs NewServer = Some s → goroutines_match s.
Proof.
  intros Hrun.
  refine (run_invariant goroutines_match goroutines_match_step
            evs NewServer s _ Hrun).
  repeat split; intros; simpl in *; discriminate.
Qed.

(** X16. The sleeping completion goroutines are exactly the rides in
    progress: every goroutine holds a ride that is IN_PROGRESS, no ride has
    two goroutines, every ride IN_PROGRESS has one, and between steps no ride
    is left in ASSIGNED.  So once no goroutine is left, every ride is either
    CREATED (it found no vehicle) or FINISHED. *)
Theorem goroutines_are_rides_in_progress (evs : list event) (s : System) :
  run evs NewServer = Some s →
  goroutines_match s
  ∧ (pending s = [] →
     ∀ (i : nat) r, rides s !! i = Some r →
       Ride_Status r = CREATED ∨ Ride_Status r = FINISHED).
Proof.
  intros Hrun. pose proof (goroutines_match_run _ _ Hrun) as Hm.
  split; [done|]. intros Hempty i r Hi.
  destruct Hm as (_ & _ & Hprog & Hnot & _).
  destruct (Ride_Status r) eqn:Hst; [by left| | |by right].
  - by destruct (Hnot _ _ Hi).
  - destruct (Hprog _ _ Hi Hst) as (k & p & d & Hk).
    rewrite Hempty in Hk. simpl in Hk. discriminate Hk.
Qed.

Lemma goroutines_are_rides_in_progress_witness :
  goroutines_match one_ride_state.
Proof.
  exact (proj1 (goroutines_are_rides_in_progress one_ride_trace one_ride_state
                  one_ride_run)).
Defined.

(** X17. A ride that found no vehicle is dropped for good: it stays CREATED
    with TaxiID 0 through every later step, and no goroutine is ever
    started for it. *)
Theorem abandoned_ride_is_never_served
    (evs evs2 : list event) (s s2 : System) (i : nat) (r : Ride) :
  run evs NewServer = Some s →
  rides s !! i = Some r → Ride_Status r = CREATED →
  run evs2 s = Some s2 →
  rides s2 !! i = Some r
  ∧ Ride_TaxiID r = 0
  ∧ (∀ (k j p : nat) d, pending s2 !! k = Some (j, p, d) → j ≠ i).
Proof.
  intros Hrun Hi Hst Hrun2.
  pose proof (goroutines_match_run _ _ Hrun) as Hm.
  assert (HP : goroutines_match s2 ∧ rides s2 !! i = Some r).
  { refine (run_invariant (λ s1, goroutines_match s1 ∧ rides s1 !! i = Some r)
              _ evs2 s s2 _ Hrun2); [|done].
    clear -Hst. intros e s1 s1' [Hm Hi] Hstep.
    split; [by eapply goroutines_match_step|].
    apply step_cases in Hstep. destruct e as [l|c a b|order|k|].
    - by subst s1'.
    - destruct Hstep as (-> & _). done.
    - destruct Hstep as (_ & request & rest & Hbuf & ->).
      destruct (processRequest_shape order request
        (with_chan {| buf := rest; cap := cap (rideRequests s1);
                      closed := closed (rideRequests s1) |} s1))
        as (_ & _ & _ & _ & Hcases).
      destruct Hcases as [[-> _]|(p & d & -> & _)];
        by apply lookup_app_l_Some.
    - destruct Hstep as (i0 & p & d & Hk & ->).
      destruct (endRide_shape i0 p
        {| taxiStore := taxiStore s1; rideRequests := rideRequests s1;
           shutdown := shutdown s1; nextRideID := nextRideID s1;
           rides := rides s1; pending := delete k (pending s1) |})
        as (-> & _). cbn [rides].
      rewrite list_lookup_alter_ne; [done|]. intros ->.
      destruct Hm as (Hpend & _).
      destruct (Hpend _ _ _ _ Hk) as (r0 & Hi0 & Hst0). congruence.
    - destruct Hstep as (_ & ->). done. }
  destruct HP as [Hm2 Hi2]. split; [done|].
  destruct Hm as (_ & _ & _ & _ & Hcre). split; [by eapply Hcre|].
  intros k j p d Hk ->. destruct Hm2 as (Hpend & _).
  destruct (Hpend _ _ _ _ Hk) as (r0 & Hi0 & Hst0). congruence.
Qed.

Lemma abandoned_ride_is_never_served_witness :
  ∃ s s2 r,
    run [EvRequestRide 1 (mkLocation 0 0) (mkLocation 5 0); EvProcess []]
      NewServer = Some s
    ∧ rides s !! 0%nat = Some r
    ∧ run [EvRegisterTaxi (mkLocation 0 0)] s = Some s2
    ∧ rides s2 !! 0%nat = Some r
    ∧ Ride_TaxiID r = 0.
Proof.
  assert (H1 : run [EvRequestRide 1 (mkLocation 0 0) (mkLocation 5 0);
                    EvProcess []] NewServer
               = Some {| taxiStore := NewTaxiStore;
                         rideRequests := {| buf := []; cap := 150;
                                            closed := false |};
                         shutdown := false; nextRideID := 2;
                         rides := [mkRide 1 1 0 (mkLocation 0 0)
                                     (mkLocation 5 0) CREATED];
                         pending := [] |}) by (vm_compute; reflexivity).
  eexists. eexists. eexists. split; [exact H1|].
  split; [reflexivity|]. split; [reflexivity|].
  destruct (abandoned_ride_is_never_served _ [EvRegisterTaxi (mkLocation 0 0)]
              _ _ 0%nat _ H1 eq_refl eq_refl eq_refl) as (H2 & H3 & _).
  split; [exact H2 | exact H3].
Defined.

Lemma some_order_valid ts : range_order ts (some_order ts).
Proof. unfold range_order, some_order. reflexivity. Qed.

Lemma run_cons e evs s s1 :
  step e s = Some s1 → run (e :: evs) s = run evs s1.
Proof. intros Hstep. simpl. by rewrite Hstep. Qed.

Lemma drain_run (n : nat) : ∀ s,
  length (buf (rideRequests s)) = n →
  ∃ s', run (replicate n (EvProcess (some_order (taxiStore s)))) s = Some s'
    ∧ buf (rideRequests s') = []
    ∧ closed (rideRequests s') = closed (rideRequests s)
    ∧ shutdown s' = shutdown s
    ∧ ride_request <$> rides s'
      = (ride_request <$> rides s) ++ buf (rideRequests s).
Proof.
  induction n as [|n IH]; intros s Hlen.
  - exists s. apply nil_length_inv in Hlen. rewrite Hlen.
    by rewrite app_nil_r.
  - destruct (buf (rideRequests s)) as [|request rest] eqn:Hbuf;
      [done|]. injection Hlen as Hlen.
    set (s1 := processRequest (some_order (taxiStore s)) request
                 (with_chan {| buf := rest; cap := cap (rideRequests s);
                               closed := closed (rideRequests s) |} s)).
    assert (Hstep : step (EvProcess (some_order (taxiStore s))) s = Some s1).
    { simpl. rewrite bool_decide_eq_true_2 by apply some_order_valid.
      unfold chan_recv. by rewrite Hbuf. }
    destruct (processRequest_shape (some_order (taxiStore s)) request
      (with_chan {| buf := rest; cap := cap (rideRequests s);
                    closed := closed (rideRequests s) |} s))
      as (Hq & Hsh & _ & Htaxis & Hcases).
    fold s1 in Hq, Hsh, Htaxis, Hcases.
    cbn [with_chan rideRequests shutdown taxiStore rides pending] in *.
    destruct (IH s1) as (s' & Hrun & Hb & Hcl & Hs & Hr);
      [by rewrite Hq|].
    exists s'. split.
    { change (replicate (S n) ?x) with (x :: replicate n x).
      rewrite (run_cons _ _ _ _ Hstep).
      replace (some_order (taxiStore s)) with (some_order (taxiStore s1));
        [done|]. unfold some_order. by rewrite Htaxis. }
    rewrite Hcl, Hs, Hq, Hsh. split; [done|]. split; [done|].
    split; [done|]. rewrite Hr, Hq. simpl.
    assert (Hr1 : ride_request <$> rides s1
                  = (ride_request <$> rides s) ++ [request]).
    { destruct Hcases as [[-> _]|(p & d & -> & _)]; rewrite fmap_app; simpl;
        by destruct request. }
    rewrite Hr1. by rewrite <- app_assoc.
Qed.

(** X18. The scheduler loop drains the queue whether or not the server has
    been shut down: from any state, as many iterations as there are queued
    requests are enabled, leave the queue empty and turn the queued requests
    into rides in queue order; closing the channel does not discard them. *)
Theorem queue_drains (s : System) :
  ∃ s', run (replicate (length (buf (rideRequests s)))
               (EvProcess (some_order (taxiStore s)))) s = Some s'
    ∧ buf (rideRequests s') = []
    ∧ closed (rideRequests s') = closed (rideRequests s)
    ∧ shutdown s' = shutdown s
    ∧ ride_request <$> rides s'
      = (ride_request <$> rides s) ++ buf (rideRequests s).
Proof. by apply drain_run. Qed.

(** ** Counting the available vehicles *)

Lemma NoDup_length_cons {A} (x : A) (l k : list A) :
  NoDup l → NoDup k → x ∉ k → (∀ y, y ∈ l ↔ y = x ∨ y ∈ k) →
  length l = S (length k).
Proof.
  intros Hl Hk Hx Hmem.
  assert (Hperm : l ≡ₚ x :: k).
  { apply NoDup_Permutation; [done|by constructor|].
    intros y. rewrite Hmem, elem_of_cons. done. }
  by rewrite Hperm.
Qed.

Lemma elem_of_GetAllAvailable ts order (p : nat) :
  range_order ts order →
  p ∈ GetAllAvailable order ts ↔
  ∃ id, taxis ts !! id = Some p ∧ Taxi_IsAvailable (heap ts !!! p) = true.
Proof.
  intros Ho. split.
  - intros (id & _ & Hp & Hav)%elem_of_GetAllAvailable_1. eauto.
  - intros (id & Hp & Hav). eapply elem_of_GetAllAvailable_2; [|done..].
    apply (range_order_elem _ _ _ Ho). eauto.
Qed.

Lemma range_order_same_taxis ts ts' order :
  taxis ts' = taxis ts → range_order ts order → range_order ts' order.
Proof. unfold range_order. by intros ->. Qed.

Lemma counts_reserve ts order (p : nat) id :
  wf_store ts → range_order ts order →
  taxis ts !! id = Some p → Taxi_IsAvailable (heap ts !!! p) = true →
  length (GetAllAvailable order ts)
  = S (length (GetAllAvailable order
                 {| heap := alter (set_IsAvailable false) p (heap ts);
                    taxis := taxis ts; nextID := nextID ts |})).
Proof.
  intros Hwf Ho Hp Hav.
  assert (Hin : id ∈ order) by (apply (range_order_elem _ _ _ Ho); eauto).
  apply (NoDup_length_cons p).
  - by apply GetAllAvailable_NoDup.
  - apply GetAllAvailable_NoDup; [by apply wf_alter|done].
  - rewrite (elem_of_GetAllAvailable_alter _ p ts order id) by done.
    simpl. by intros [[_ ?]|[? _]].
  - intros q. rewrite (elem_of_GetAllAvailable_alter _ p ts order id) by done.
    simpl. split.
    + intros Hq. destruct (decide (q = p)); [by left|]. right. by right.
    + intros [->|[[_ ?]|[_ ?]]]; [|done..].
      apply elem_of_GetAllAvailable; eauto.
Qed.

(** ** assigner.go, beyond the claims *)

(** X20. On a well-formed store with at least one available vehicle,
    [AssignClosestTaxi] always succeeds (its failure branch after
    [SetAvailability] is never taken): it returns a vehicle of the snapshot,
    clears the flag of that vehicle and of no other, leaves its location and
    every other vehicle as they were, and hands the ride back ASSIGNED with
    that vehicle's ID; the next snapshot is the old one without it. *)
Theorem AssignClosestTaxi_reserves_selected
    (ts : TaxiStore) (order : list Z) (ride : Ride) :
  wf_store ts → range_order ts order → GetAllAvailable order ts ≠ [] →
  ∃ (p : nat) t,
    (AssignClosestTaxi order ts ride).1.1 = Some p
    ∧ p ∈ GetAllAvailable order ts
    ∧ heap ts !! p = Some t
    ∧ (AssignClosestTaxi order ts ride).2 = assign_ride (Taxi_ID t) ride
    ∧ vehicle (Taxi_ID t) (AssignClosestTaxi order ts ride).1.2
      = Some (mkTaxi (Taxi_ID t) (Taxi_Location t) false)
    ∧ (∀ id', id' ≠ Taxi_ID t →
         vehicle id' (AssignClosestTaxi order ts ride).1.2 = vehicle id' ts)
    ∧ (∀ q, q ∈ GetAllAvailable order (AssignClosestTaxi order ts ride).1.2 ↔
            q ∈ GetAllAvailable order ts ∧ q ≠ p)
    ∧ length (GetAllAvailable order ts)
      = S (length (GetAllAvailable order (AssignClosestTaxi order ts ride).1.2)).
Proof.
  intros Hwf Ho Hne.
  destruct (AssignClosestTaxi_cases order ts ride Hwf)
    as [[Hnil _]|(p & id & cd & _ & Hin & Hp & Hid & Hav & ->)]; [done|].
  destruct (wf_store_lookup _ _ _ Hwf Hp) as (Hlt & Hh & _).
  assert (Hino : id ∈ order) by (apply (range_order_elem _ _ _ Ho); eauto).
  exists p, (heap ts !!! p). cbn [fst snd]. rewrite Hid.
  split; [done|]. split; [done|]. split; [done|]. split; [done|].
  split; [|split; [|split]].
  - rewrite (vehicle_alter _ p ts id Hwf Hp), decide_True by done.
    unfold vehicle, Get. rewrite Hp, Hh. simpl. unfold set_IsAvailable.
    by rewrite Hid.
  - intros id' Hne'.
    by rewrite (vehicle_alter _ p ts id Hwf Hp), decide_False by done.
  - intros q. rewrite (elem_of_GetAllAvailable_alter _ p ts order id) by done.
    simpl. split; [by intros [[_ ?]|[? ?]]|by intros [? ?]; right].
  - by apply (counts_reserve ts order p id).
Qed.

Lemma AssignClosestTaxi_reserves_selected_witness :
  ∃ (p : nat) t,
    (AssignClosestTaxi [1; 2] two_taxi_store
       (new_ride 1 (mkRideRequest 1 (mkLocation 9 9) (mkLocation 0 0)))).1.1
    = Some p
    ∧ heap two_taxi_store !! p = Some t
    ∧ vehicle (Taxi_ID t)
        (AssignClosestTaxi [1; 2] two_taxi_store
           (new_ride 1 (mkRideRequest 1 (mkLocation 9 9) (mkLocation 0 0)))).1.2
      = Some (mkTaxi (Taxi_ID t) (Taxi_Location t) false).
Proof.
  assert (Hwf : wf_store two_taxi_store)
    by (apply (bool_decide_eq_true_1 (wf_store two_taxi_store));
        vm_compute; reflexivity).
  assert (Ho : range_order two_taxi_store [1; 2])
    by (apply (bool_decide_eq_true_1 (range_order two_taxi_store [1; 2]));
        vm_compute; reflexivity).
  assert (Hne : GetAllAvailable [1; 2] two_taxi_store ≠ []) by discriminate.
  destruct (AssignClosestTaxi_reserves_selected two_taxi_store [1; 2]
              (new_ride 1 (mkRideRequest 1 (mkLocation 9 9) (mkLocation 0 0)))
              Hwf Ho Hne) as (p & t & H1 & _ & H2 & _ & H3 & _).
  exists p, t. split; [exact H1|]. split; [exact H2 | exact H3].
Defined.

(** X21. With exactly one vehicle available, two requests processed back to
    back get one vehicle between them: the first is assigned, and the second,
    processed before the first ride's completion, finds no vehicle and is
    left CREATED, whatever the iteration orders. *)
Theorem second_request_is_abandoned
    (s : System) (order1 order2 : list Z) (request1 request2 : RideRequest) :
  wf_store (taxiStore s) → range_order (taxiStore s) order1 →
  length (GetAllAvailable order1 (taxiStore s)) = 1%nat →
  ∃ (p : nat) d r1,
    rides (processRequest order2 request2 (processRequest order1 request1 s))
    = rides s ++ [r1; new_ride (int_add (nextRideID s) 1) request2]
    ∧ Ride_Status r1 = IN_PROGRESS
    ∧ ride_request r1 = request1
    ∧ pending (processRequest order2 request2
                 (processRequest order1 request1 s))
      = pending s ++ [(length (rides s), p, d)].
Proof.
  intros Hwf Ho Hone.
  pose proof (processRequest_shape order1 request1 s)
    as (_ & _ & Hn & _).
  destruct (AssignClosestTaxi_cases order1 (taxiStore s)
              (new_ride (nextRideID s) request1) Hwf)
    as [[Hnil _]|(p & id & cd & _ & Hin & Hp & Hid & Hav & Hsome)];
    [by rewrite Hnil in Hone|].
  pose proof (counts_reserve _ order1 p id Hwf Ho Hp Hav) as Hlen.
  rewrite Hone in Hlen. injection Hlen as Hlen.
  symmetry in Hlen. apply nil_length_inv in Hlen.
  set (ts1 := {| heap := alter (set_IsAvailable false) p (heap (taxiStore s));
                 taxis := taxis (taxiStore s);
                 nextID := nextID (taxiStore s) |}) in *.
  assert (Hnone : none_available ts1).
  { intros id' q Hq.
    destruct (Taxi_IsAvailable (heap ts1 !!! q)) eqn:E; [|done].
    assert (Hq' : q ∈ GetAllAvailable order1 ts1).
    { apply elem_of_GetAllAvailable; [|by eauto].
      by eapply range_order_same_taxis; [|exact Ho]. }
    rewrite Hlen in Hq'. by apply elem_of_nil in Hq'. }
  assert (H1 : processRequest order1 request1 s
               = startRide (assign_ride id (new_ride (nextRideID s) request1))
                   p (CalculateRideDuration (heap ts1) p
                        (assign_ride id (new_ride (nextRideID s) request1)))
                   {| taxiStore := ts1; rideRequests := rideRequests s;
                      shutdown := shutdown s;
                      nextRideID := int_add (nextRideID s) 1;
                      rides := rides s; pending := pending s |}).
  { unfold processRequest. by rewrite Hsome. }
  rewrite H1. unfold processRequest at 1 2.
  cbn [startRide taxiStore nextRideID rides pending].
  rewrite (AssignClosestTaxi_empty order2 ts1 _
             (none_available_snapshot ts1 order2 Hnone)).
  cbn [rides pending].
  eexists p, _, _. rewrite <- app_assoc. split; [reflexivity|].
  split; [done|]. split; [by destruct request1|done].
Qed.

Lemma second_request_is_abandoned_witness :
  ∃ (p : nat) d r1,
    rides (processRequest [1]
             (mkRideRequest 2 (mkLocation 1 1) (mkLocation 2 2))
             (processRequest [1]
                (mkRideRequest 1 (mkLocation 0 0) (mkLocation 5 0))
                (RegisterTaxi (mkLocation 0 0) NewServer).2))
    = [r1; new_ride 2 (mkRideRequest 2 (mkLocation 1 1) (mkLocation 2 2))]
    ∧ Ride_Status r1 = IN_PROGRESS
    ∧ pending (processRequest [1]
                 (mkRideRequest 2 (mkLocation 1 1) (mkLocation 2 2))
                 (processRequest [1]
                    (mkRideRequest 1 (mkLocation 0 0) (mkLocation 5 0))
                    (RegisterTaxi (mkLocation 0 0) NewServer).2))
      = [(0%nat, p, d)].
Proof.
  assert (Hwf : wf_store (taxiStore (RegisterTaxi (mkLocation 0 0) NewServer).2))
    by (apply (bool_decide_eq_true_1 (wf_store one_taxi_store));
        vm_compute; reflexivity).
  assert (Ho : range_order
                 (taxiStore (RegisterTaxi (mkLocation 0 0) NewServer).2) [1])
    by (apply (bool_decide_eq_true_1 (range_order one_taxi_store [1]));
        vm_compute; reflexivity).
  destruct (second_request_is_abandoned
              (RegisterTaxi (mkLocation 0 0) NewServer).2 [1] [1]
              (mkRideRequest 1 (mkLocation 0 0) (mkLocation 5 0))
              (mkRideRequest 2 (mkLocation 1 1) (mkLocation 2 2))
              Hwf Ho eq_refl) as (p & d & r1 & H1 & H2 & _ & H3).
  exists p, d, r1. split; [exact H1|]. split; [exact H2 | exact H3].
Defined.

(** X22. While fewer than 2^64 vehicles have been registered, a registration
    returns an ID that was not in use, adds one available vehicle with that
    ID at the given location, raises [GetTaxiCount] by one, and leaves every
    vehicle already in the store, every ride and the queue untouched. *)
Theorem registration_is_fresh
    (evs : list event) (s : System) (l : Location) :
  run evs NewServer = Some s →
  Z.of_nat (registrations evs) < 2 ^ 64 →
  Get (RegisterTaxi l s).1 (taxiStore s) = None
  ∧ vehicle (RegisterTaxi l s).1 (taxiStore (RegisterTaxi l s).2)
    = Some (mkTaxi (RegisterTaxi l s).1 l true)
  ∧ (∀ id t, vehicle id (taxiStore s) = Some t →
       vehicle id (taxiStore (RegisterTaxi l s).2) = Some t)
  ∧ GetTaxiCount (RegisterTaxi l s).2 = S (GetTaxiCount s)
  ∧ rides (RegisterTaxi l s).2 = rides s
  ∧ pending (RegisterTaxi l s).2 = pending s
  ∧ rideRequests (RegisterTaxi l s).2 = rideRequests s.
Proof.
  intros Hrun Hreg.
  pose proof (Inv_run _ _ _ Inv_NewServer Hrun) as (Hwf & Hiss & _).
  pose proof (heap_length_run _ _ _ Hrun) as Hlen. simpl in Hlen.
  pose proof (issued_fresh _ Hiss ltac:(lia)) as Hfresh.
  change (RegisterTaxi l s).1 with (nextID (taxiStore s)).
  change (taxiStore (RegisterTaxi l s).2) with (Add l (taxiStore s)).2.
  split; [done|]. split; [|split; [|split; [|done]]].
  - destruct (Add_inserted l (taxiStore s)) as [HGet Hh].
    unfold vehicle. change (nextID (taxiStore s)) with (Add l (taxiStore s)).1 at 1.
    by rewrite HGet.
  - intros id t Ht.
    destruct (vehicle_Some _ _ _ Hwf Ht) as (p & Hp & Hh & Hlt & _).
    unfold vehicle, Get. cbn [Add snd taxis heap].
    rewrite lookup_insert_ne by congruence. rewrite Hp.
    by rewrite lookup_app_l.
  - unfold GetTaxiCount, Count. by apply map_size_insert_None.
Qed.

Lemma registration_is_fresh_witness :
  Get (RegisterTaxi (mkLocation 4 4) one_ride_state).1 (taxiStore one_ride_state)
  = None
  ∧ GetTaxiCount (RegisterTaxi (mkLocation 4 4) one_ride_state).2
    = S (GetTaxiCount one_ride_state).
Proof.
  assert (Hreg : Z.of_nat (registrations one_ride_trace) < 2 ^ 64)
    by (vm_compute; reflexivity).
  pose proof (registration_is_fresh one_ride_trace one_ride_state
                (mkLocation 4 4) one_ride_run Hreg) as (H1 & _ & _ & H2 & _).
  split; [exact H1 | exact H2].
Defined.

(** ** The simulation grid: taxi_client.go and user_client.go *)

Lemma AssignClosestTaxi_first_min_fits ts order ride :
  wf_store ts →
  valid_loc (Ride_StartLocation ride) →
  (∀ p, p ∈ GetAllAvailable order ts →
     valid_loc (Taxi_Location (heap ts !!! p))
     ∧ manhattan (Taxi_Location (heap ts !!! p)) (Ride_StartLocation ride)
       ≤ max_int) →
  GetAllAvailable order ts ≠ [] →
  ∃ (i p : nat), (AssignClosestTaxi order ts ride).1.1 = Some p
    ∧ first_min
        (λ q, manhattan (Taxi_Location (heap ts !!! q))
                (Ride_StartLocation ride))
        (GetAllAvailable order ts) i p.
Proof.
  intros Hwf Hpick Hfit Hne.
  destruct (AssignClosestTaxi_cases order ts ride Hwf)
    as [[Hnil _]|(p & id & cd & Hloop & _ & _ & _ & _ & ->)]; [done|].
  destruct (GetAllAvailable order ts) as [|q l] eqn:Hsnap; [done|].
  assert (Hexact : ∀ q', q' ∈ q :: l →
            dist_to (heap ts) (Ride_StartLocation ride) q'
            = manhattan (Taxi_Location (heap ts !!! q'))
                (Ride_StartLocation ride)).
  { intros q' Hq'. destruct (Hfit q' Hq') as [Hv Hm].
    by apply CalculateDistance_exact. }
  destruct (closest_loop_from_start (heap ts) (Ride_StartLocation ride) q l)
    as (i & p' & Hloop' & Hfm).
  { intros q' Hq'. rewrite (Hexact q' Hq').
    pose proof (manhattan_nonneg (Taxi_Location (heap ts !!! q'))
                  (Ride_StartLocation ride)). lia. }
  rewrite Hloop in Hloop'. injection Hloop' as -> _.
  exists i, p'. split; [done|]. by eapply first_min_ext.
Qed.

Lemma run_invariant_events (Q : event → Prop) (P : System → Prop) :
  (∀ e s s', Q e → P s → step e s = Some s' → P s') →
  ∀ evs s s', Forall Q evs → P s → run evs s = Some s' → P s'.
Proof.
  intros Hstep. induction evs as [|e evs IH]; intros s s' HQ HP; simpl.
  - by intros [= <-].
  - apply Forall_cons in HQ as [He HQ].
    destruct (step e s) as [s1|] eqn:Hs; [|done]. apply IH; [done|].
    by eapply Hstep.
Qed.

Lemma in_grid_duration (a b c : Location) :
  in_grid a → in_grid b → in_grid c →
  0 ≤ int_add (CalculateDistance a b) (CalculateDistance b c) ≤ 396.
Proof.
  intros Ha Hb Hc.
  pose proof (in_grid_manhattan _ _ Ha Hb).
  pose proof (in_grid_manhattan _ _ Hb Hc).
  assert (Hmax : 396 ≤ max_int) by (vm_compute; discriminate).
  rewrite !CalculateDistance_exact by (auto using in_grid_valid; lia).
  unfold int_add. rewrite wrap_id; [lia|].
  unfold is_int, min_int in *. lia.
Qed.

Lemma on_grid_step e s s' :
  grid_event e → Inv s ∧ on_grid s → step e s = Some s' →
  Inv s' ∧ on_grid s'.
Proof.
  intros He [HInv (Hheap & Hbuf & Hrides & Hpend)] Hstep.
  split; [by eapply Inv_step|].
  pose proof HInv as (Hwf & _ & Hpw & _).
  apply step_cases in Hstep. destruct e as [l|c a b|order|k|].
  - subst s'. split; [|done]. intros p t. cbn.
    intros [[_ Hp]|[_ <-]]%lookup_snoc_Some; [by eapply Hheap|done].
  - destruct Hstep as (Hr & Hp & Hts & _ & _ & _ & _ & Hcases).
    split; [by rewrite Hts|]. split; [|by rewrite Hr, Hp].
    destruct Hcases as [[_ ->]|(_ & _ & _ & ->)]; [done|].
    intros q [Hq| ->%list_elem_of_singleton]%elem_of_app; [by apply Hbuf|].
    done.
  - destruct Hstep as (_ & request & rest & Hb & ->).
    assert (Hreq : in_grid (Req_StartLocation request)
                   ∧ in_grid (Req_EndLocation request))
      by (apply Hbuf; rewrite Hb; apply list_elem_of_here).
    assert (Hrest : ∀ q, q ∈ rest →
              in_grid (Req_StartLocation q) ∧ in_grid (Req_EndLocation q))
      by (intros q Hq; apply Hbuf; rewrite Hb; by apply list_elem_of_further).
    unfold processRequest.
    set (s0 := with_chan {| buf := rest; cap := cap (rideRequests s);
                            closed := closed (rideRequests s) |} s).
    destruct (AssignClosestTaxi_cases order (taxiStore s0)
                (new_ride (nextRideID s0) request) Hwf)
      as [[_ Hnone]|(p & id & cd & _ & _ & Hp & Hid & Hav & Hsome)].
    + rewrite Hnone. unfold on_grid.
      cbn [taxiStore rideRequests rides pending s0 with_chan buf].
      split; [done|]. split; [done|]. split; [|done].
      intros r [Hr| ->%list_elem_of_singleton]%elem_of_app; [by apply Hrides|].
      done.
    + rewrite Hsome. unfold on_grid.
      cbn [startRide taxiStore rideRequests rides pending s0 with_chan buf
           heap].
      destruct (wf_store_lookup _ _ _ Hwf Hp) as (Hlt & Hh & _).
      split; [|split; [done|split]].
      * intros q t. rewrite list_lookup_alter. case_decide.
        -- subst q. rewrite Hh. simpl. intros [= <-].
           exact (Hheap p _ Hh).
        -- apply Hheap.
      * intros r [Hr| ->%list_elem_of_singleton]%elem_of_app;
          [by apply Hrides|done].
      * intros i q d [Hq| [= _ _ ->]%list_elem_of_singleton]%elem_of_app;
          [by eapply Hpend|].
        unfold CalculateRideDuration.
        rewrite list_lookup_total_alter_eq by done.
        apply in_grid_duration; [exact (Hheap p _ Hh)|apply Hreq..].
  - destruct Hstep as (i & p & d & Hk & ->).
    destruct (Hpw _ _ _ _ Hk) as (Hi & _ & [p' Hp'] & _).
    rewrite (endRide_eq _ i p p') by exact Hp'.
    destruct (lookup_lt_is_Some_2 (rides s) i Hi) as [r Hr].
    unfold on_grid. cbn [taxiStore rideRequests rides pending heap].
    split; [|split; [done|split]].
    + rewrite list_alter_alter_eq. intros q t.
      rewrite list_lookup_alter. case_decide; [|by apply Hheap].
      subst q. destruct (heap (taxiStore s) !! p') as [t0|]; [|done].
      simpl. intros [= <-]. simpl.
      rewrite list_lookup_total_alter_eq by done.
      rewrite (list_lookup_total_correct _ _ _ Hr). simpl.
      apply (Hrides r). by eapply list_elem_of_lookup_2.
    + intros r' [j Hj]%list_elem_of_lookup_1.
      apply lookup_alter_set_Status in Hj
        as (r0 & Hj & [[_ ->]|[_ ->]]);
        apply (Hrides r0); by eapply list_elem_of_lookup_2.
    + intros i0 q d0 Hin. apply list_elem_of_delete_inv in Hin.
      by eapply Hpend.
  - destruct Hstep as (_ & ->). done.
Qed.

(** X23. If every location brought in by a registration or a request lies on
    the 100 x 100 grid, as the locations drawn by the two clients do, then in
    every reachable state all vehicles, queued requests and rides lie on the
    grid, every scheduled ride duration is in 0..396, and for a request on
    the grid [AssignClosestTaxi] selects, from any non-empty snapshot, the
    first vehicle at minimal Manhattan distance from the pickup: in the
    simulation no overflow case arises. *)
Theorem simulation_stays_on_grid
    (evs : list event) (s : System) (order : list Z) (request : RideRequest) :
  Forall grid_event evs → run evs NewServer = Some s →
  on_grid s
  ∧ (in_grid (Req_StartLocation request) →
     GetAllAvailable order (taxiStore s) ≠ [] →
     ∃ (i p : nat),
       (AssignClosestTaxi order (taxiStore s)
          (new_ride (nextRideID s) request)).1.1 = Some p
       ∧ first_min
           (λ q, manhattan (Taxi_Location (heap (taxiStore s) !!! q))
                   (Req_StartLocation request))
           (GetAllAvailable order (taxiStore s)) i p).
Proof.
  intros Hev Hrun.
  assert (HP : Inv s ∧ on_grid s).
  { refine (run_invariant_events grid_event (λ s, Inv s ∧ on_grid s)
              on_grid_step evs NewServer s Hev _ Hrun).
    split; [apply Inv_NewServer|].
    repeat split; intros; simpl in *;
      try discriminate; by apply elem_of_nil in H. }
  destruct HP as [(Hwf & _) Hg]. split; [done|].
  intros Hreq Hne. destruct Hg as (Hheap & _).
  apply AssignClosestTaxi_first_min_fits; [done|by apply in_grid_valid| |done].
  intros p (id & _ & Hp & _)%elem_of_GetAllAvailable_1.
  destruct (wf_store_lookup _ _ _ Hwf Hp) as (_ & Hh & _).
  pose proof (Hheap p _ Hh) as Hpg.
  split; [by apply in_grid_valid|].
  pose proof (in_grid_manhattan _ _ Hpg Hreq).
  assert (198 ≤ max_int) by (vm_compute; discriminate). simpl. lia.
Qed.

Lemma simulation_stays_on_grid_witness :
  Forall grid_event one_ride_trace ∧ on_grid one_ride_state.
Proof.
  assert (Hev : Forall grid_event one_ride_trace).
  { repeat constructor; simpl; lia. }
  split; [exact Hev|].
  exact (proj1 (simulation_stays_on_grid one_ride_trace one_ride_state []
                  (mkRideRequest 1 (mkLocation 0 0) (mkLocation 0 0))
                  Hev one_ride_run)).
Defined.

(** * The program at the granularity of its critical sections *)

Lemma prun_cons a acts s :
  prun (a :: acts) s
  = match pstep a s with Some s' => prun acts s' | None => None end.
Proof. reflexivity. Qed.

Lemma prun_app acts1 acts2 s :
  prun (acts1 ++ acts2) s
  = match prun acts1 s with Some s' => prun acts2 s' | None => None end.
Proof.
  revert s. induction acts1 as [|a acts1 IH]; intros s; [done|].
  rewrite <- app_comm_cons, !prun_cons. by destruct (pstep a s).
Qed.

Lemma prun_invariant (P : Program → Prop) :
  (∀ a s s', P s → pstep a s = Some s' → P s') →
  ∀ acts s s', P s → prun acts s = Some s' → P s'.
Proof.
  intros Hstep. induction acts as [|a acts IH]; intros s s' HP.
  - by intros [= <-].
  - rewrite prun_cons. destruct (pstep a s) as [s1|] eqn:Ha; [|done].
    apply IH. by eapply Hstep.
Qed.

(** ** What a step leaves alone *)

Ltac pstep_inv H :=
  unfold pstep in H;
  repeat (first
    [ match type of H with Some _ = Some _ => injection H as <- end
    | match type of H with None = Some _ => discriminate H end
    | match type of H with
      | context [match ?x with _ => _ end] =>
          let E := fresh "E" in destruct x eqn:E
      | context [if ?x then _ else _] =>
          let E := fresh "E" in destruct x eqn:E
      end ]).

Lemma pstep_store a s s' :
  pstep a s = Some s' →
  taxiStore (shared s') = taxiStore (shared s)
  ∨ (∃ l, a = ARegisterTaxi l
          ∧ taxiStore (shared s') = (Add l (taxiStore (shared s))).2)
  ∨ (∃ id b, taxiStore (shared s')
             = (SetAvailability id b (taxiStore (shared s))).2)
  ∨ (∃ id l, taxiStore (shared s')
             = (UpdateLocation id l (taxiStore (shared s))).2).
Proof.
  intros H. destruct a; pstep_inv H; cbn; eauto.
  - unfold RequestRide_send in E0.
    destruct (chan_send _ _); simplify_eq; eauto.
  - unfold Shutdown_close in E0. destruct (chan_close _); simplify_eq; eauto.
  - right; right; left. eexists _, _. by rewrite E2.
  - right; right; left. eexists _, _. by rewrite E2.
  - right; right; right. eexists _, _. by rewrite E3.
  - right; right; left. eexists _, _. by rewrite E3.
Qed.

Lemma issued_SetAvailability id b ts :
  issued ts → issued (SetAvailability id b ts).2.
Proof.
  intros H. unfold SetAvailability.
  destruct (taxis ts !! id); [by apply issued_alter|done].
Qed.

Lemma issued_UpdateLocation id l ts :
  issued ts → issued (UpdateLocation id l ts).2.
Proof.
  intros H. unfold UpdateLocation.
  destruct (taxis ts !! id); [by apply issued_alter|done].
Qed.

Lemma length_heap_SetAvailability id b ts :
  length (heap (SetAvailability id b ts).2) = length (heap ts).
Proof.
  unfold SetAvailability. destruct (taxis ts !! id); [|done].
  cbn. apply length_alter.
Qed.

Lemma length_heap_UpdateLocation id l ts :
  length (heap (UpdateLocation id l ts).2) = length (heap ts).
Proof.
  unfold UpdateLocation. destruct (taxis ts !! id); [|done].
  cbn. apply length_alter.
Qed.

Lemma pstep_wf a s s' :
  pstep a s = Some s' →
  wf_store (taxiStore (shared s)) → wf_store (taxiStore (shared s')).
Proof.
  intros H Hwf.
  destruct (pstep_store _ _ _ H)
    as [->|[(l & _ & ->)|[(id & b & ->)|(id & l & ->)]]];
    auto using wf_Add, wf_SetAvailability, wf_UpdateLocation.
Qed.

Lemma pstep_issued a s s' :
  pstep a s = Some s' →
  issued (taxiStore (shared s)) → issued (taxiStore (shared s')).
Proof.
  intros H Hiss.
  destruct (pstep_store _ _ _ H)
    as [->|[(l & _ & ->)|[(id & b & ->)|(id & l & ->)]]];
    auto using issued_Add, issued_SetAvailability, issued_UpdateLocation.
Qed.

Lemma pstep_heap_length a s s' :
  pstep a s = Some s' →
  (length (heap (taxiStore (shared s)))
   ≤ length (heap (taxiStore (shared s'))))%nat.
Proof.
  intros H.
  destruct (pstep_store _ _ _ H)
    as [->|[(l & _ & ->)|[(id & b & ->)|(id & l & ->)]]].
  - done.
  - cbn. rewrite length_app. lia.
  - by rewrite length_heap_SetAvailability.
  - by rewrite length_heap_UpdateLocation.
Qed.

(** ** The vehicles held *)

Lemma held_exactly_perm ts held held' :
  held ≡ₚ held' → held_exactly ts held → held_exactly ts held'.
Proof.
  intros Hp [Hnd Hiff]. split; [by rewrite <- Hp|].
  intros p. rewrite <- Hp. apply Hiff.
Qed.

Lemma held_exactly_Add l ts held :
  wf_store ts → taxis ts !! nextID ts = None →
  held_exactly ts held → held_exactly (Add l ts).2 held.
Proof.
  intros Hwf Hfresh [Hnd Hiff]. split; [done|]. intros p. rewrite Hiff.
  cbn [Add snd taxis heap]. split.
  - intros (id & Hid & Hf).
    destruct (wf_store_lookup _ _ _ Hwf Hid) as (Hlt & _ & _).
    exists id. rewrite lookup_insert_ne by congruence.
    by rewrite lookup_total_app_l.
  - intros (id & Hid & Hf).
    destruct (decide (id = nextID ts)) as [->|Hne].
    + rewrite lookup_insert_eq in Hid. injection Hid as <-.
      rewrite list_lookup_total_middle in Hf by done. done.
    + rewrite lookup_insert_ne in Hid by done.
      destruct (wf_store_lookup _ _ _ Hwf Hid) as (Hlt & _ & _).
      exists id. by rewrite lookup_total_app_l in Hf.
Qed.

Lemma flag_alter_ne (f : Taxi → Taxi) (p q : nat) (h : list Taxi) :
  q ≠ p →
  Taxi_IsAvailable (alter f p h !!! q) = Taxi_IsAvailable (h !!! q).
Proof. intros Hne. by rewrite list_lookup_total_alter_ne. Qed.

Lemma flag_alter_set_Location l (p q : nat) (h : list Taxi) :
  Taxi_IsAvailable (alter (set_Location l) p h !!! q)
  = Taxi_IsAvailable (h !!! q).
Proof.
  destruct (decide (q = p)) as [->|Hne]; [|by apply flag_alter_ne].
  destruct (decide (p < length h)%nat) as [Hlt|Hge].
  - by rewrite list_lookup_total_alter_eq.
  - rewrite !list_lookup_total_alt.
    by rewrite !lookup_ge_None_2 by (rewrite ?length_alter; lia).
Qed.

Lemma held_exactly_relocate l (p : nat) ts held :
  held_exactly ts held →
  held_exactly {| heap := alter (set_Location l) p (heap ts);
                  taxis := taxis ts; nextID := nextID ts |} held.
Proof.
  intros [Hnd Hiff]. split; [done|]. intros q. rewrite Hiff. cbn.
  by setoid_rewrite flag_alter_set_Location.
Qed.

Lemma held_exactly_reserve (p : nat) id ts held :
  wf_store ts → taxis ts !! id = Some p →
  Taxi_IsAvailable (heap ts !!! p) = true →
  held_exactly ts held →
  held_exactly {| heap := alter (set_IsAvailable false) p (heap ts);
                  taxis := taxis ts; nextID := nextID ts |} (p :: held).
Proof.
  intros Hwf Hid Hf [Hnd Hiff].
  destruct (wf_store_lookup _ _ _ Hwf Hid) as (Hlt & _ & _).
  split.
  - apply NoDup_cons. split; [|done]. rewrite Hiff.
    intros (id' & _ & Hf'). congruence.
  - intros q. rewrite elem_of_cons, Hiff. cbn. split.
    + intros [->|(id' & Hid' & Hf')].
      * exists id. split; [done|]. by rewrite list_lookup_total_alter_eq.
      * exists id'. split; [done|].
        rewrite flag_alter_ne; [done|]. congruence.
    + intros (id' & Hid' & Hf').
      destruct (decide (q = p)) as [->|Hne]; [by left|right].
      exists id'. by rewrite flag_alter_ne in Hf'.
Qed.

Lemma held_exactly_release (p : nat) ts held :
  (p < length (heap ts))%nat →
  held_exactly ts (p :: held) →
  held_exactly {| heap := alter (set_IsAvailable true) p (heap ts);
                  taxis := taxis ts; nextID := nextID ts |} held.
Proof.
  intros Hlt [Hnd Hiff]. apply NoDup_cons in Hnd as [Hnotin Hnd].
  split; [done|]. intros q. cbn. split.
  - intros Hq. destruct (proj1 (Hiff q)) as (id & Hid & Hf);
      [by apply elem_of_cons; right|].
    exists id. split; [done|]. rewrite flag_alter_ne; [done|]. congruence.
  - intros (id & Hid & Hf).
    destruct (decide (q = p)) as [->|Hne].
    + by rewrite list_lookup_total_alter_eq in Hf.
    + rewrite flag_alter_ne in Hf by done.
      assert (Hin : q ∈ p :: held) by (apply Hiff; eauto).
      apply elem_of_cons in Hin as [->|Hin]; done.
Qed.

Lemma held_registered ts held (p : nat) :
  wf_store ts → held_exactly ts held → p ∈ held →
  taxis ts !! Taxi_ID (heap ts !!! p) = Some p
  ∧ (p < length (heap ts))%nat
  ∧ Taxi_IsAvailable (heap ts !!! p) = false.
Proof.
  intros Hwf [_ Hiff] (id & Hid & Hf)%Hiff.
  destruct (wf_store_lookup _ _ _ Hwf Hid) as (Hlt & _ & Hi).
  by rewrite Hi.
Qed.

(** ** The snapshot *)

Lemma snapshot_ok_Add l ts pc :
  wf_store ts → taxis ts !! nextID ts = None →
  snapshot_ok ts pc → snapshot_ok (Add l ts).2 pc.
Proof.
  intros Hwf Hfresh Hs ride snap Hpc.
  destruct (Hs ride snap Hpc) as [Hne Hall]. split; [done|].
  intros p (id & Hid & Hf)%Hall.
  destruct (wf_store_lookup _ _ _ Hwf Hid) as (Hlt & _ & _).
  exists id. cbn [Add snd taxis heap].
  rewrite lookup_insert_ne by congruence. by rewrite lookup_total_app_l.
Qed.

Lemma snapshot_ok_alter (f : Taxi → Taxi) (q : nat) ts pc :
  Taxi_IsAvailable (heap ts !!! q) = false →
  snapshot_ok ts pc →
  snapshot_ok {| heap := alter f q (heap ts); taxis := taxis ts;
                 nextID := nextID ts |} pc.
Proof.
  intros Hq Hs ride snap Hpc.
  destruct (Hs ride snap Hpc) as [Hne Hall]. split; [done|].
  intros p (id & Hid & Hf)%Hall. exists id. cbn. split; [done|].
  rewrite flag_alter_ne; [done|]. congruence.
Qed.

Lemma holders_with_shared sh s :
  pending sh = pending (shared s) →
  holders (with_shared sh s) = holders s.
Proof. unfold holders. cbn. by intros ->. Qed.

Lemma PInv_NewProgram : PInv NewProgram.
Proof.
  split; [apply wf_NewTaxiStore|].
  split; [exact (proj1 (proj2 Inv_NewServer))|].
  intros _. split; [apply map_size_empty|]. split.
  - split; [apply NoDup_nil_2|]. intros p. split.
    + by intros ?%elem_of_nil.
    + intros (id & Hid & _).
      change (taxis (taxiStore (shared NewProgram)))
        with (∅ : gmap Z nat) in Hid.
      by rewrite lookup_empty in Hid.
  - intros ride snap Hpc. discriminate Hpc.
Qed.

Lemma PInv_step a s s' : PInv s → pstep a s = Some s' → PInv s'.
Proof.
  intros (Hwf & Hiss & Hb) H.
  split; [by eapply pstep_wf|]. split; [by eapply pstep_issued|].
  intros Hbound'. pose proof (pstep_heap_length _ _ _ H) as Hlen.
  destruct Hb as (Hsize & Hheld & Hsnap); [lia|].
  destruct a.
  - (* ARegisterTaxi *)
    injection H as <-. cbn in Hbound' |- *.
    rewrite length_app in Hbound'. cbn in Hbound'.
    assert (Hfresh : taxis (taxiStore (shared s))
                       !! nextID (taxiStore (shared s)) = None)
      by (apply issued_fresh; [done|lia]).
    split; [|split].
    + rewrite map_size_insert_None by done. rewrite length_app. cbn. lia.
    + by apply (held_exactly_Add location).
    + by apply (snapshot_ok_Add location).
  - (* ACheck *)
    cbn in H. destruct (RequestRide_check (shared s)); by injection H as <-.
  - (* ASend *)
    cbn in H. case_bool_decide; [|done]. unfold RequestRide_send in H.
    destruct (chan_send _ _); try done. by injection H as <-.
  - (* ASetFlag *) by injection H as <-.
  - (* AClose *)
    cbn in H. destruct (closers s); [done|]. unfold Shutdown_close in H.
    destruct (chan_close _); try done. by injection H as <-.
  - (* AReceive *)
    cbn in H. destruct (scheduler s) eqn:Hpc; try done.
    destruct (chan_recv _) as [[request c]|]; [|done]. injection H as <-.
    cbn. split; [done|]. split; [|by intros ride snap].
    unfold holders in *. by rewrite Hpc in Hheld.
  - (* AStop *)
    cbn in H. destruct (scheduler s) eqn:Hpc; try done.
    destruct (buf _); [|done]. destruct (closed _); [|done].
    injection H as <-. cbn. split; [done|]. split; [|by intros ride snap].
    unfold holders in *. by rewrite Hpc in Hheld.
  - (* ATick *)
    cbn in H. destruct (scheduler s) eqn:Hpc; try done. injection H as <-.
    cbn. split; [done|]. split; [|by intros ride snap].
    unfold holders in *. by rewrite Hpc in Hheld.
  - (* ASnapshot *)
    cbn in H. destruct (scheduler s) eqn:Hpc; try done.
    case_bool_decide as Ho; [|done].
    destruct (length _ =? 0)%nat eqn:E; injection H as <-; cbn.
    + split; [done|]. split; [|by intros ? ?].
      unfold holders in *. by rewrite Hpc in Hheld.
    + split; [done|]. split.
      * unfold holders in *. by rewrite Hpc in Hheld.
      * intros ride' snap [= <- <-]. split.
        -- intros Hnil. by rewrite Hnil in E.
        -- intros p (id & _ & Hid & Hf)%elem_of_GetAllAvailable_1. eauto.
  - (* ASelect *)
    cbn in H. destruct (scheduler s) eqn:Hpc; try done.
    destruct (Hsnap _ _ eq_refl) as [Hne Hall].
    destruct (closest_loop _ _ _ _ _) as [[p|] cd] eqn:Hloop.
    + apply closest_loop_elem in Hloop as [?|Hin]; [done|].
      destruct (Hall p Hin) as (id & Hid & Hf).
      destruct (wf_store_lookup _ _ _ Hwf Hid) as (Hlt & _ & Hi).
      rewrite Hi in H.
      destruct (SetAvailability_lookup _ id false p Hwf Hid) as [HSet _].
      rewrite HSet in H. injection H as <-. cbn.
      split; [by rewrite length_alter|]. split.
      * unfold holders in *. rewrite Hpc in Hheld. cbn in Hheld |- *.
        by apply (held_exactly_reserve p id).
      * by intros ? ?.
    + injection H as <-. cbn. split; [done|]. split; [|by intros ? ?].
      unfold holders in *. by rewrite Hpc in Hheld.
  - (* AStartRide *)
    cbn in H. destruct (scheduler s) eqn:Hpc; try done. injection H as <-.
    cbn. split; [done|]. split; [|by intros ? ?].
    eapply held_exactly_perm; [|exact Hheld].
    unfold holders. rewrite Hpc. cbn. rewrite fmap_app. cbn.
    rewrite <- app_assoc. cbn.
    by rewrite <- Permutation_middle.
  - (* AFinish *)
    cbn in H. destruct (pending (shared s) !! k) as [[[i p] d]|] eqn:Hk;
      [|done]. injection H as <-. cbn. split; [done|]. split; [|done].
    eapply held_exactly_perm; [|exact Hheld].
    unfold holders. cbn [scheduler shared pending enders with_enders
                         with_shared with_pending with_rides].
    rewrite fmap_app. apply Permutation_app_head.
    rewrite (delete_Permutation _ _ _ Hk) at 1. rewrite fmap_cons.
    cbn [fst snd fmap list_fmap]. rewrite !app_assoc.
    by rewrite <- Permutation_cons_append.
  - (* ARelocate *)
    cbn in H. destruct (enders s !! k) as [[[i p] [|]]|] eqn:Hk; try done.
    assert (Hp : p ∈ holders s).
    { unfold holders. rewrite !elem_of_app. right; right.
      apply list_elem_of_fmap. exists (i, p, false). split; [done|].
      by eapply list_elem_of_lookup_2. }
    destruct (held_registered _ _ _ Hwf Hheld Hp) as (Hid & Hlt & Hf).
    destruct (UpdateLocation_lookup _ _
                (Ride_EndLocation (rides (shared s) !!! i)) p Hwf Hid)
      as [HUpd _].
    rewrite HUpd in H. injection H as <-. cbn.
    split; [by rewrite length_alter|]. split.
    + apply held_exactly_relocate.
      eapply held_exactly_perm; [|exact Hheld].
      unfold holders. cbn. rewrite list_fmap_insert. cbn.
      rewrite list_insert_id; [done|].
      by rewrite list_lookup_fmap, Hk.
    + by apply snapshot_ok_alter.
  - (* ARelease *)
    cbn in H. destruct (enders s !! k) as [[[i p] [|]]|] eqn:Hk; try done.
    assert (Hp : p ∈ holders s).
    { unfold holders. rewrite !elem_of_app. right; right.
      apply list_elem_of_fmap. exists (i, p, true). split; [done|].
      by eapply list_elem_of_lookup_2. }
    destruct (held_registered _ _ _ Hwf Hheld Hp) as (Hid & Hlt & Hf).
    destruct (SetAvailability_lookup _ _ true p Hwf Hid) as [HSet _].
    rewrite HSet in H. injection H as <-. cbn.
      split; [by rewrite length_alter|]. split.
    + apply held_exactly_release; [done|].
      eapply held_exactly_perm; [|exact Hheld].
      unfold holders. cbn.
      rewrite (delete_Permutation (enders s) _ _ Hk) at 1. cbn.
      by rewrite <- !Permutation_middle.
    + by apply snapshot_ok_alter.
Qed.

Lemma PInv_run acts s :
  prun acts NewProgram = Some s → PInv s.
Proof.
  intros H.
  exact (prun_invariant PInv (λ a s s' HP Hs, PInv_step a s s' HP Hs)
           acts NewProgram s PInv_NewProgram H).
Qed.

(** ** The queue *)

Lemma fmap_ride_request_alter st (i : nat) (l : list Ride) :
  ride_request <$> alter (set_Status st) i l = ride_request <$> l.
Proof.
  rewrite (list_fmap_alter _ _ id).
  - by apply list_alter_id.
  - apply Forall_forall. by intros [].
Qed.

Lemma ride_request_new_ride n request :
  ride_request (new_ride n request) = request.
Proof. by destruct request. Qed.

Lemma queue_step a s s' :
  pstep a s = Some s' →
  (ride_request <$> rides (shared s')) ++ in_hand (scheduler s')
    ++ buf (rideRequests (shared s'))
  = (ride_request <$> rides (shared s)) ++ in_hand (scheduler s)
      ++ buf (rideRequests (shared s)) ++ sent [a].
Proof.
  intros H. destruct a; cbn [sent]; rewrite ?app_nil_r.
  - by injection H as <-.
  - cbn in H. destruct (RequestRide_check (shared s)); by injection H as <-.
  - cbn in H. case_bool_decide; [|done].
    unfold RequestRide_send, chan_send in H.
    destruct (closed _); [done|].
    destruct (length _ <? _)%nat; [|done]. injection H as <-. cbn.
    by destruct request.
  - by injection H as <-.
  - cbn in H. destruct (closers s); [done|].
    unfold Shutdown_close, chan_close in H.
    destruct (closed _); [done|]. by injection H as <-.
  - cbn in H. destruct (scheduler s) eqn:Hpc; try done.
    unfold chan_recv in H.
    destruct (buf (rideRequests (shared s))) as [|r rest]; [done|].
    by injection H as <-.
  - cbn in H. destruct (scheduler s) eqn:Hpc; try done.
    destruct (buf _) eqn:Hb; [|done]. destruct (closed _); [|done].
    injection H as <-. cbn. by rewrite Hb.
  - cbn in H. destruct (scheduler s) eqn:Hpc; try done. injection H as <-.
    cbn. by rewrite ride_request_new_ride.
  - cbn in H. destruct (scheduler s) eqn:Hpc; try done.
    case_bool_decide; [|done].
    destruct (length _ =? 0)%nat; injection H as <-; cbn; [|done].
    by rewrite fmap_app, <- app_assoc.
  - cbn in H. destruct (scheduler s) eqn:Hpc; try done.
    destruct (closest_loop _ _ _ _ _) as [[p|] cd].
    + destruct (SetAvailability _ _ _) as [[|] ts']; injection H as <-; cbn.
      * done.
      * by rewrite fmap_app, <- app_assoc.
    + injection H as <-. cbn. by rewrite fmap_app, <- app_assoc.
  - cbn in H. destruct (scheduler s) eqn:Hpc; try done. injection H as <-.
    cbn. by rewrite fmap_app, <- app_assoc.
  - cbn in H. destruct (pending (shared s) !! k) as [[[i p] d]|]; [|done].
    injection H as <-. cbn. by rewrite fmap_ride_request_alter.
  - cbn in H. destruct (enders s !! k) as [[[i p] [|]]|]; try done.
    destruct (UpdateLocation _ _ _). by injection H as <-.
  - cbn in H. destruct (enders s !! k) as [[[i p] [|]]|]; try done.
    destruct (SetAvailability _ _ _). by injection H as <-.
Qed.

Lemma sent_app acts1 acts2 : sent (acts1 ++ acts2) = sent acts1 ++ sent acts2.
Proof.
  induction acts1 as [|a acts1 IH]; [done|].
  destruct a; cbn; by rewrite ?IH.
Qed.

Lemma queue_run acts : ∀ s s',
  prun acts s = Some s' →
  (ride_request <$> rides (shared s')) ++ in_hand (scheduler s')
    ++ buf (rideRequests (shared s'))
  = (ride_request <$> rides (shared s)) ++ in_hand (scheduler s)
      ++ buf (rideRequests (shared s)) ++ sent acts.
Proof.
  induction acts as [|a acts IH]; intros s s'.
  - intros [= <-]. cbn. by rewrite app_nil_r.
  - rewrite prun_cons. destruct (pstep a s) as [s1|] eqn:Ha; [|done].
    intros Hrun. rewrite (IH _ _ Hrun).
    change (a :: acts) with ([a] ++ acts). rewrite sent_app.
    rewrite !app_assoc. f_equal. rewrite <- !app_assoc.
    by apply queue_step.
Qed.

(** X14. Requests are processed once each and in the order of their sends,
    at the granularity of the program's critical sections: at any moment
    the requests of the rides recorded so far, then the request the
    scheduler has taken off the channel and is waiting or working on (if
    any), then the requests still in the queue, are exactly the requests
    sent on the channel, in the order of the sends. *)
Theorem requests_processed_in_order (acts : list action) (s : Program) :
  prun acts NewProgram = Some s →
  (ride_request <$> rides (shared s)) ++ in_hand (scheduler s)
    ++ buf (rideRequests (shared s))
  = sent acts.
Proof. intros Hrun. by rewrite (queue_run _ _ _ Hrun). Qed.

Lemma requests_processed_in_order_witness :
  prun held_request_run NewProgram = Some (after held_request_run)
  ∧ rides (shared (after held_request_run)) = []
  ∧ in_hand (scheduler (after held_request_run))
    = [mkRideRequest 1 (mkLocation 0 0) (mkLocation 5 0)]
  ∧ buf (rideRequests (shared (after held_request_run)))
    = [mkRideRequest 2 (mkLocation 1 1) (mkLocation 2 2)]
  ∧ (ride_request <$> rides (shared (after held_request_run)))
      ++ in_hand (scheduler (after held_request_run))
      ++ buf (rideRequests (shared (after held_request_run)))
    = sent held_request_run.
Proof.
  assert (H : prun held_request_run NewProgram
              = Some (after held_request_run)) by (vm_compute; reflexivity).
  split; [exact H|]. split; [vm_compute; reflexivity|].
  split; [vm_compute; reflexivity|]. split; [vm_compute; reflexivity|].
  exact (requests_processed_in_order held_request_run
           (after held_request_run) H).
Defined.

(** ** After shutdown *)

Lemma shutdown_step a s s' :
  shutdown (shared s) = true → pstep a s = Some s' →
  shutdown (shared s') = true
  ∧ senders s' `sublist_of` senders s
  ∧ (closed (rideRequests (shared s)) = true →
       closed (rideRequests (shared s')) = true
       ∧ buf (rideRequests (shared s'))
           `suffix_of` buf (rideRequests (shared s))
       ∧ senders s' = senders s).
Proof.
  intros Hsh H. destruct a.
  - by injection H as <-.
  - cbn in H. unfold RequestRide_check in H. rewrite Hsh in H.
    by injection H as <-.
  - cbn in H. case_bool_decide; [|done].
    unfold RequestRide_send, chan_send in H.
    destruct (closed _) eqn:Hcl; [done|].
    destruct (length _ <? _)%nat; [|done]. injection H as <-. cbn.
    split; [done|]. split; [apply sublist_delete|done].
  - by injection H as <-.
  - cbn in H. destruct (closers s); [done|].
    unfold Shutdown_close, chan_close in H.
    destruct (closed _) eqn:Hcl; [done|]. by injection H as <-.
  - cbn in H. destruct (scheduler s); try done. unfold chan_recv in H.
    destruct (buf (rideRequests (shared s))) as [|r rest] eqn:Hb; [done|].
    injection H as <-. cbn. split; [done|]. split; [done|].
    intros Hcl. split; [done|]. split; [|done].
    by apply suffix_cons_r.
  - cbn in H. destruct (scheduler s); try done.
    destruct (buf _) eqn:Hb; [|done]. destruct (closed _) eqn:Hcl; [|done].
    injection H as <-. cbn. rewrite Hb. done.
  - cbn in H. destruct (scheduler s); try done. by injection H as <-.
  - cbn in H. destruct (scheduler s); try done. case_bool_decide; [|done].
    destruct (length _ =? 0)%nat; by injection H as <-.
  - cbn in H. destruct (scheduler s); try done.
    destruct (closest_loop _ _ _ _ _) as [[p|] cd].
    + destruct (SetAvailability _ _ _) as [[|] ts']; by injection H as <-.
    + by injection H as <-.
  - cbn in H. destruct (scheduler s); try done. by injection H as <-.
  - cbn in H. destruct (pending (shared s) !! k) as [[[i p] d]|]; [|done].
    by injection H as <-.
  - cbn in H. destruct (enders s !! k) as [[[i p] [|]]|]; try done.
    destruct (UpdateLocation _ _ _). by injection H as <-.
  - cbn in H. destruct (enders s !! k) as [[[i p] [|]]|]; try done.
    destruct (SetAvailability _ _ _). by injection H as <-.
Qed.

Lemma shutdown_run acts : ∀ s s',
  shutdown (shared s) = true → prun acts s = Some s' →
  shutdown (shared s') = true
  ∧ senders s' `sublist_of` senders s
  ∧ (closed (rideRequests (shared s)) = true →
       closed (rideRequests (shared s')) = true
       ∧ buf (rideRequests (shared s'))
           `suffix_of` buf (rideRequests (shared s))
       ∧ senders s' = senders s).
Proof.
  induction acts as [|a acts IH]; intros s s' Hsh.
  - by intros [= <-].
  - rewrite prun_cons. destruct (pstep a s) as [s1|] eqn:Ha; [|done].
    intros Hrun.
    destruct (shutdown_step _ _ _ Hsh Ha) as (Hsh1 & Hsub1 & Hcl1).
    destruct (IH _ _ Hsh1 Hrun) as (Hsh' & Hsub' & Hcl').
    split; [done|]. split; [by etrans|].
    intros Hcl. destruct (Hcl1 Hcl) as (Hc1 & Hsuf1 & Hsend1).
    destruct (Hcl' Hc1) as (Hc' & Hsuf' & Hsend').
    split; [done|]. split; [by etrans|]. by rewrite Hsend'.
Qed.

(** X11. Shutdown is final, at the granularity of the program's critical
    sections.  Once the flag is set it stays set whatever the goroutines do
    next: every [RequestRide] that starts returns false and changes
    nothing, and no further call gets past the check.  A call that passed
    the check earlier can still send while the channel is open; once
    [Shutdown] has also closed the channel, the channel stays closed, the
    queue only shrinks (no request is added), the calls that are past their
    check stay where they are, and their send panics. *)
Theorem shutdown_is_final
    (acts : list action) (s s' : Program) (clientID : Z) (a b : Location) :
  shutdown (shared s) = true → prun acts s = Some s' →
  shutdown (shared s') = true
  ∧ RequestRide clientID a b (shared s') = Returns (false, shared s')
  ∧ pstep (ACheck clientID a b) s' = Some s'
  ∧ senders s' `sublist_of` senders s
  ∧ (closed (rideRequests (shared s)) = true →
       closed (rideRequests (shared s')) = true
       ∧ buf (rideRequests (shared s'))
           `suffix_of` buf (rideRequests (shared s))
       ∧ senders s' = senders s
       ∧ RequestRide_send clientID a b (shared s') = Panics).
Proof.
  intros Hsh Hrun.
  destruct (shutdown_run _ _ _ Hsh Hrun) as (Hsh' & Hsub & Hcl).
  split; [done|]. split; [by unfold RequestRide; rewrite Hsh'|].
  split; [by cbn; unfold RequestRide_check; rewrite Hsh'|].
  split; [done|]. intros Hc. destruct (Hcl Hc) as (Hc' & Hsuf & Hsend).
  split; [done|]. split; [done|]. split; [done|].
  unfold RequestRide_send, chan_send. by rewrite Hc'.
Qed.

Lemma shutdown_is_final_witness :
  shutdown (shared (after shut_run)) = true
  ∧ closed (rideRequests (shared (after shut_run))) = true
  ∧ ∃ s', prun [AReceive; ACheck 2 (mkLocation 1 1) (mkLocation 2 2)]
            (after shut_run) = Some s'
      ∧ shutdown (shared s') = true
      ∧ buf (rideRequests (shared s')) = []
      ∧ RequestRide 3 (mkLocation 0 0) (mkLocation 1 1) (shared s')
        = Returns (false, shared s').
Proof.
  assert (Hsh : shutdown (shared (after shut_run)) = true) by reflexivity.
  split; [exact Hsh|]. split; [reflexivity|].
  eexists. split; [vm_compute; reflexivity|].
  split; [reflexivity|]. split; [reflexivity|].
  refine (proj1 (proj2 (shutdown_is_final
            [AReceive; ACheck 2 (mkLocation 1 1) (mkLocation 2 2)]
            (after shut_run) _ 3 (mkLocation 0 0) (mkLocation 1 1) Hsh _))).
  vm_compute. reflexivity.
Defined.

(** ** Counting vehicles *)

Lemma registered_app acts1 acts2 :
  registered (acts1 ++ acts2) = registered acts1 ++ registered acts2.
Proof.
  induction acts1 as [|a acts1 IH]; [done|].
  destruct a; cbn; by rewrite ?IH.
Qed.

Lemma pstep_heap_registered a s s' :
  pstep a s = Some s' →
  length (heap (taxiStore (shared s')))
  = (length (heap (taxiStore (shared s))) + length (registered [a]))%nat.
Proof.
  intros H.
  destruct (pstep_store _ _ _ H)
    as [Heq|[(l & -> & Heq)|[(id & b & Heq)|(id & l & Heq)]]].
  - rewrite Heq. destruct a; cbn; try lia.
    injection H as <-. cbn in Heq.
    apply (f_equal (λ ts, length (heap ts))) in Heq. cbn in Heq.
    rewrite length_app in Heq. cbn in Heq. lia.
  - rewrite Heq. cbn. by rewrite length_app.
  - rewrite Heq, length_heap_SetAvailability. destruct a; cbn; try lia.
    injection H as <-. cbn in Heq.
    apply (f_equal (λ ts, length (heap ts))) in Heq.
    rewrite length_heap_SetAvailability in Heq. cbn in Heq.
    rewrite length_app in Heq. cbn in Heq. lia.
  - rewrite Heq, length_heap_UpdateLocation. destruct a; cbn; try lia.
    injection H as <-. cbn in Heq.
    apply (f_equal (λ ts, length (heap ts))) in Heq.
    rewrite length_heap_UpdateLocation in Heq. cbn in Heq.
    rewrite length_app in Heq. cbn in Heq. lia.
Qed.

Lemma prun_heap_registered acts : ∀ s s',
  prun acts s = Some s' →
  length (heap (taxiStore (shared s')))
  = (length (heap (taxiStore (shared s))) + length (registered acts))%nat.
Proof.
  induction acts as [|a acts IH]; intros s s'.
  - intros [= <-]. cbn. lia.
  - rewrite prun_cons. destruct (pstep a s) as [s1|] eqn:Ha; [|done].
    intros Hrun. rewrite (IH _ _ Hrun), (pstep_heap_registered _ _ _ Ha).
    change (a :: acts) with ([a] ++ acts).
    rewrite registered_app, length_app. lia.
Qed.

Lemma NoDup_store_pointers ts :
  wf_store ts → NoDup (map_to_list (taxis ts)).*2.
Proof.
  intros Hwf. apply NoDup_fmap_2_strong; [|apply NoDup_map_to_list].
  intros [id1 p1] [id2 p2] H1%elem_of_map_to_list H2%elem_of_map_to_list.
  cbn. intros <-. f_equal. by eapply wf_store_inj.
Qed.

Lemma elem_of_store_pointers ts (p : nat) :
  p ∈ (map_to_list (taxis ts)).*2 ↔ ∃ id, taxis ts !! id = Some p.
Proof.
  rewrite list_elem_of_fmap. split.
  - intros ([id q] & -> & H%elem_of_map_to_list). by exists id.
  - intros (id & H). exists (id, p). split; [done|].
    by apply elem_of_map_to_list.
Qed.

Lemma available_plus_held ts order held :
  wf_store ts → range_order ts order → held_exactly ts held →
  (length (GetAllAvailable order ts) + length held)%nat = size (taxis ts).
Proof.
  intros Hwf Ho [Hnd Hiff].
  rewrite <- length_app, <- (length_map_to_list (taxis ts)).
  rewrite <- (length_fmap snd (map_to_list (taxis ts))).
  apply Permutation_length, NoDup_Permutation.
  - apply NoDup_app. split; [by apply GetAllAvailable_NoDup|].
    split; [|done]. intros p Hp (id & _ & Hf)%Hiff.
    apply (elem_of_GetAllAvailable _ _ _ Ho) in Hp as (id' & _ & Hf').
    congruence.
  - by apply NoDup_store_pointers.
  - intros p. rewrite elem_of_app, elem_of_store_pointers, Hiff.
    rewrite (elem_of_GetAllAvailable _ _ _ Ho). split.
    + intros [(id & Hid & _)|(id & Hid & _)]; eauto.
    + intros (id & Hid).
      destruct (Taxi_IsAvailable (heap ts !!! p)) eqn:Hf; eauto.
Qed.

(** X19. The counts of the server at the granularity of the program's
    critical sections, while at most 2^64 vehicles have been registered:
    [GetTaxiCount] is the number of registrations made, a vehicle's flag is
    false exactly when the vehicle is held - by the scheduler between its
    [SetAvailability(id, false)] and the start of the ride's goroutine, by
    a sleeping goroutine, or by an [endRide] that has not yet made its
    [SetAvailability(id, true)] - no vehicle is held twice, and
    [GetAvailableTaxiCount] plus the number of vehicles held is
    [GetTaxiCount], whatever the order in which the map is ranged over. *)
Theorem counts_match_history
    (acts : list action) (s : Program) (order : list Z) :
  prun acts NewProgram = Some s →
  Z.of_nat (length (registered acts)) ≤ 2 ^ 64 →
  range_order (taxiStore (shared s)) order →
  GetTaxiCount (shared s) = length (registered acts)
  ∧ NoDup (holders s)
  ∧ (∀ id (p : nat), Get id (taxiStore (shared s)) = Some p →
       (Taxi_IsAvailable (heap (taxiStore (shared s)) !!! p) = false
        ↔ p ∈ holders s))
  ∧ (GetAvailableTaxiCount order (shared s) + length (holders s))%nat
    = GetTaxiCount (shared s).
Proof.
  intros Hrun Hreg Ho.
  destruct (PInv_run _ _ Hrun) as (Hwf & _ & Hb).
  pose proof (prun_heap_registered _ _ _ Hrun) as Hlen. cbn in Hlen.
  destruct Hb as (Hsize & Hheld & _); [rewrite Hlen; lia|].
  unfold GetTaxiCount, GetAvailableTaxiCount, Count.
  split; [by rewrite Hsize|]. split; [apply Hheld|]. split.
  - intros id p Hp. destruct Hheld as [_ Hiff]. rewrite Hiff. split; [eauto|].
    by intros (id' & _ & Hf).
  - by apply available_plus_held.
Qed.

Lemma counts_match_history_witness :
  prun busy_run NewProgram = Some (after busy_run)
  ∧ holders (after busy_run) = [1%nat; 0%nat]
  ∧ GetTaxiCount (shared (after busy_run)) = 2%nat
  ∧ (GetAvailableTaxiCount [1%Z; 2%Z] (shared (after busy_run))
     + length (holders (after busy_run)))%nat
    = GetTaxiCount (shared (after busy_run)).
Proof.
  assert (H : prun busy_run NewProgram = Some (after busy_run))
    by (vm_compute; reflexivity).
  assert (Hreg : Z.of_nat (length (registered busy_run)) ≤ 2 ^ 64)
    by (vm_compute; discriminate).
  assert (Ho : range_order (taxiStore (shared (after busy_run))) [1; 2])
    by (apply (bool_decide_eq_true_1 _); vm_compute; reflexivity).
  split; [exact H|]. split; [vm_compute; reflexivity|].
  split; [vm_compute; reflexivity|].
  exact (proj2 (proj2 (proj2
           (counts_match_history busy_run (after busy_run) [1; 2]
              H Hreg Ho)))).
Defined.

(** ** A run of [main] *)

Lemma quiet_step a s s' :
  is_shutdown_section a = false → pstep a s = Some s' →
  shutdown (shared s') = shutdown (shared s)
  ∧ closed (rideRequests (shared s')) = closed (rideRequests (shared s))
  ∧ cap (rideRequests (shared s')) = cap (rideRequests (shared s))
  ∧ closers s' = closers s
  ∧ (is_request_section a = false → senders s' = senders s).
Proof.
  intros Hq H. destruct a; try discriminate Hq.
  - by injection H as <-.
  - cbn in H. destruct (RequestRide_check (shared s)); by injection H as <-.
  - cbn in H. case_bool_decide; [|done].
    unfold RequestRide_send, chan_send in H.
    destruct (closed _) eqn:Hcl; [done|].
    destruct (length _ <? _)%nat; [|done]. by injection H as <-.
  - cbn in H. destruct (scheduler s); try done. unfold chan_recv in H.
    destruct (buf (rideRequests (shared s))) as [|r rest] eqn:Hb; [done|].
    by injection H as <-.
  - cbn in H. destruct (scheduler s); try done.
    destruct (buf _) eqn:Hb; [|done]. destruct (closed _) eqn:Hcl; [|done].
    by injection H as <-.
  - cbn in H. destruct (scheduler s); try done. by injection H as <-.
  - cbn in H. destruct (scheduler s); try done. case_bool_decide; [|done].
    destruct (length _ =? 0)%nat; by injection H as <-.
  - cbn in H. destruct (scheduler s); try done.
    destruct (closest_loop _ _ _ _ _) as [[p|] cd].
    + destruct (SetAvailability _ _ _) as [[|] ts']; by injection H as <-.
    + by injection H as <-.
  - cbn in H. destruct (scheduler s); try done. by injection H as <-.
  - cbn in H. destruct (pending (shared s) !! k) as [[[i p] d]|]; [|done].
    by injection H as <-.
  - cbn in H. destruct (enders s !! k) as [[[i p] [|]]|]; try done.
    destruct (UpdateLocation _ _ _). by injection H as <-.
  - cbn in H. destruct (enders s !! k) as [[[i p] [|]]|]; try done.
    destruct (SetAvailability _ _ _). by injection H as <-.
Qed.

Lemma prun_snoc acts a s s' :
  prun (acts ++ [a]) s = Some s' →
  ∃ s0, prun acts s = Some s0 ∧ pstep a s0 = Some s'.
Proof.
  rewrite prun_app. destruct (prun acts s) as [s0|]; [|done].
  rewrite prun_cons. destruct (pstep a s0) as [s1|] eqn:Ha; [|done].
  intros [= <-]. eauto.
Qed.

Lemma checked_app acts1 acts2 :
  checked (acts1 ++ acts2) = checked acts1 ++ checked acts2.
Proof.
  induction acts1 as [|a acts1 IH]; [done|].
  destruct a; cbn; by rewrite ?IH.
Qed.

Lemma length_registered acts :
  length (registered acts)
  = length (filter (λ a, is_registration a = true) acts).
Proof.
  induction acts as [|a acts IH]; [done|]. rewrite filter_cons.
  destruct a; case_decide; try done; cbn; by rewrite IH.
Qed.

(** The first [n] calls of the user client. *)
Lemma UserClient_calls_snoc st en (n : nat) :
  seq 0 (S n) ≫= UserClient_call st en
  = (seq 0 n ≫= UserClient_call st en) ++ UserClient_call st en n.
Proof. rewrite seq_S, bind_app. cbn. by rewrite ?app_nil_r. Qed.

Lemma UserClient_calls_split st en (n N : nat) :
  (n < N)%nat →
  seq 0 N ≫= UserClient_call st en
  = (seq 0 n ≫= UserClient_call st en) ++ UserClient_call st en n
    ++ (seq (S n) (N - S n) ≫= UserClient_call st en).
Proof.
  intros Hn. replace N with (n + S (N - S n))%nat at 1 by lia.
  rewrite seq_app, bind_app. cbn. done.
Qed.

Lemma UserClient_calls_length st en (n : nat) :
  length (seq 0 n ≫= UserClient_call st en) = (2 * n)%nat.
Proof.
  induction n as [|n IH]; [done|].
  rewrite UserClient_calls_snoc, length_app, IH. cbn. lia.
Qed.

(** Where the user client is, from what it has done so far. *)
Lemma UserClient_progress st en a (u : list action) (n : nat) :
  (u = seq 0 n ≫= UserClient_call st en
   ∨ u = (seq 0 n ≫= UserClient_call st en)
         ++ [ACheck (int_add (Z.of_nat n) 1) (st n) (en n)]) →
  u ++ [a] `prefix_of` UserClient_Start st en →
  (n < 100)%nat
  ∧ ((u = seq 0 n ≫= UserClient_call st en
      ∧ a = ACheck (int_add (Z.of_nat n) 1) (st n) (en n))
     ∨ (u = (seq 0 n ≫= UserClient_call st en)
            ++ [ACheck (int_add (Z.of_nat n) 1) (st n) (en n)]
        ∧ a = ASend 0 (UserClient_request st en n))).
Proof.
  intros Hu Hpre.
  assert (Hn : (n < 100)%nat).
  { apply prefix_length in Hpre. unfold UserClient_Start in Hpre.
    rewrite UserClient_calls_length, length_app in Hpre.
    destruct Hu as [->| ->];
      rewrite ?length_app, UserClient_calls_length in Hpre; cbn in Hpre; lia. }
  split; [done|]. unfold UserClient_Start in Hpre.
  rewrite (UserClient_calls_split st en n 100 Hn) in Hpre.
  destruct Hu as [->| ->].
  - left. split; [done|].
    apply prefix_app_inv in Hpre. cbn in Hpre.
    destruct Hpre as [k Hk]. by injection Hk as <- _.
  - right. split; [done|]. rewrite <- app_assoc in Hpre.
    apply prefix_app_inv in Hpre. cbn in Hpre.
    destruct Hpre as [k Hk]. by injection Hk as <- _.
Qed.

Lemma filter_snoc {A} (P : A → Prop) `{∀ x, Decision (P x)} (l : list A) x :
  filter P (l ++ [x]) = filter P l ++ (if decide (P x) then [x] else []).
Proof.
  by rewrite filter_app.
Qed.

Lemma main_trace_snoc location st en acts a :
  main_trace location st en (acts ++ [a]) →
  main_trace location st en acts ∧ is_shutdown_section a = false.
Proof.
  intros (Hreg & Hreq & Hq). rewrite filter_snoc in Hreg, Hreq.
  apply Forall_app in Hq as [Hq Ha]. apply (proj1 (Forall_singleton _ _)) in Ha.
  split; [|done]. split; [by eapply prefix_app_l|].
  split; [by eapply prefix_app_l|done].
Qed.

Lemma main_run_state location st en acts : ∀ s,
  main_trace location st en acts →
  prun acts NewProgram = Some s →
  shutdown (shared s) = false
  ∧ closed (rideRequests (shared s)) = false
  ∧ cap (rideRequests (shared s)) = 150%nat
  ∧ closers s = 0%nat
  ∧ ∃ n : nat,
      sent acts = UserClient_request st en <$> seq 0 n
      ∧ ((filter (λ a, is_request_section a = true) acts
          = seq 0 n ≫= UserClient_call st en
          ∧ senders s = []
          ∧ checked acts = UserClient_request st en <$> seq 0 n
          ∧ (n ≤ 100)%nat)
         ∨ (filter (λ a, is_request_section a = true) acts
            = (seq 0 n ≫= UserClient_call st en)
              ++ [ACheck (int_add (Z.of_nat n) 1) (st n) (en n)]
            ∧ senders s = [UserClient_request st en n]
            ∧ checked acts = UserClient_request st en <$> seq 0 (S n)
            ∧ (n < 100)%nat)).
Proof.
  induction acts as [|a acts IH] using rev_ind; intros s Hmain.
  - intros [= <-]. repeat (split; [done|]). exists 0%nat.
    split; [done|]. left. repeat (split; [done|]). lia.
  - intros (s0 & Hrun & Ha)%prun_snoc.
    destruct (main_trace_snoc _ _ _ _ _ Hmain) as [Hmain0 Hq].
    destruct (IH s0 Hmain0 Hrun)
      as (Hsh & Hcl & Hcap & Hclosers & n & Hsent & Hcases).
    destruct (quiet_step _ _ _ Hq Ha) as (Hsh' & Hcl' & Hcap' & Hc' & Hsend').
    rewrite Hsh', Hcl', Hcap', Hc'. repeat (split; [done|]).
    destruct Hmain as (_ & Hreq & _). rewrite filter_snoc in Hreq.
    rewrite filter_snoc, sent_app, checked_app.
    destruct (is_request_section a) eqn:Hreqa.
    + rewrite decide_True in Hreq |- * by done.
      assert (Hu : filter (λ a, is_request_section a = true) acts
                   = seq 0 n ≫= UserClient_call st en
                   ∨ filter (λ a, is_request_section a = true) acts
                     = (seq 0 n ≫= UserClient_call st en)
                       ++ [ACheck (int_add (Z.of_nat n) 1) (st n) (en n)])
        by (destruct Hcases as [(? & _)|(? & _)]; eauto).
      destruct (UserClient_progress st en a _ n Hu Hreq)
        as (Hn & [[Hf ->]|[Hf ->]]).
      * (* the check of call n *)
        destruct Hcases as [(_ & Hs0 & Hch & _)|(Hf' & _)].
        2:{ rewrite Hf in Hf'. apply (f_equal length) in Hf'.
            rewrite length_app in Hf'. cbn in Hf'. lia. }
        exists n. cbn [sent checked]. rewrite app_nil_r.
        split; [done|]. right. rewrite Hf. split; [done|].
        cbn in Ha. unfold RequestRide_check in Ha. rewrite Hsh in Ha.
        injection Ha as <-. cbn [senders with_senders]. rewrite Hs0.
        split; [done|]. split; [|done]. by rewrite Hch, seq_S, fmap_app.
      * (* the send of call n *)
        destruct Hcases as [(Hf' & _)|(_ & Hs0 & Hch & _)].
        { rewrite Hf in Hf'. apply (f_equal length) in Hf'.
          rewrite length_app in Hf'. cbn in Hf'. lia. }
        exists (S n). cbn [sent checked]. rewrite app_nil_r.
        split; [by rewrite Hsent, seq_S, fmap_app|]. left.
        split; [by rewrite Hf, UserClient_calls_snoc, <- app_assoc|].
        split; [|split; [done|lia]].
        cbn in Ha. rewrite Hs0 in Ha. cbn in Ha.
        rewrite bool_decide_eq_true_2 in Ha by done.
        destruct (RequestRide_send _ _ _ _) as [[b sh']| |]; try done.
        by injection Ha as <-.
    + rewrite decide_False by done.
      rewrite !app_nil_r. rewrite (Hsend' eq_refl).
      exists n.
      assert (Hs : sent [a] = [] ∧ checked [a] = [])
        by (by destruct a).
      destruct Hs as [-> ->]. rewrite !app_nil_r. by split.
Qed.

Lemma UserClient_request_below st en (n : nat) :
  (n ≤ 100)%nat →
  UserClient_request st en <$> seq 0 n
  = (λ i : nat, mkRideRequest (Z.of_nat i + 1) (st i) (en i)) <$> seq 0 n.
Proof.
  intros Hn. apply list_fmap_ext. intros j i [-> Hi]%lookup_seq.
  unfold UserClient_request, int_add. f_equal. apply wrap_id.
  unfold is_int, min_int, max_int. lia.
Qed.

(** X24. A run of [main] before its [Shutdown], at the granularity of the
    program's critical sections and however those of the two clients, the
    scheduler and the ride goroutines interleave.  With [n] the number of
    [RequestRide] calls that have made their check: [n] is at most 100 and
    at most 15 vehicles are registered; no request has been rejected or
    lost: the recorded rides, then the request the scheduler holds, then
    the queue, then the request of the call that has not yet sent, are
    exactly the requests of clients 1, ..., n, in that order; the call
    under way, if any, does not have to wait for room in the queue;
    [GetTaxiCount] is the number of registrations made; and [Shutdown],
    called now, sets the flag and closes the channel without panic and
    leaves the queued requests to the scheduler. *)
Theorem main_accepts_every_request
    (location startLocation endLocation : nat → Location)
    (acts : list action) (s : Program) :
  main_trace location startLocation endLocation acts →
  prun acts NewProgram = Some s →
  (length (checked acts) ≤ 100)%nat
  ∧ (length (registered acts) ≤ 15)%nat
  ∧ RequestRide_check (shared s) = true
  ∧ (ride_request <$> rides (shared s)) ++ in_hand (scheduler s)
      ++ buf (rideRequests (shared s)) ++ senders s
    = (λ i : nat, mkRideRequest (Z.of_nat i + 1)
                    (startLocation i) (endLocation i))
      <$> seq 0 (length (checked acts))
  ∧ (length (senders s) ≤ 1)%nat
  ∧ (∀ request, senders s !! 0%nat = Some request →
       ∃ s', pstep (ASend 0 request) s = Some s')
  ∧ GetTaxiCount (shared s) = length (registered acts)
  ∧ (∃ s1 s2, pstep ASetFlag s = Some s1 ∧ pstep AClose s1 = Some s2
       ∧ shutdown (shared s2) = true
       ∧ closed (rideRequests (shared s2)) = true
       ∧ buf (rideRequests (shared s2)) = buf (rideRequests (shared s))
       ∧ scheduler s2 = scheduler s).
Proof.
  intros Hmain Hrun.
  destruct (main_run_state _ _ _ _ _ Hmain Hrun)
    as (Hsh & Hcl & Hcap & Hclosers & n & Hsent & Hcases).
  pose proof (queue_run _ _ _ Hrun) as Hq. cbn in Hq.
  assert (Hn : (n ≤ 100)%nat ∧ (length (checked acts) ≤ 100)%nat
               ∧ (length (senders s) ≤ 1)%nat
               ∧ sent acts ++ senders s = checked acts).
  { destruct Hcases as [(_ & -> & -> & Hn)|(_ & -> & -> & Hn)];
      rewrite ?length_fmap, ?length_seq, ?app_nil_r; cbn [length].
    - split; [lia|]. split; [lia|]. split; [lia|exact Hsent].
    - split; [lia|]. split; [lia|]. split; [lia|].
      by rewrite Hsent, seq_S, fmap_app. }
  destruct Hn as (Hn & Hchk & Hsenders & Hall).
  assert (Hbuf : (length (buf (rideRequests (shared s))) ≤ 100)%nat).
  { apply (f_equal length) in Hq. rewrite !length_app in Hq.
    rewrite Hsent, !length_fmap, length_seq in Hq. lia. }
  split; [done|]. split.
  { destruct Hmain as (Hreg & _). apply prefix_length in Hreg.
    rewrite length_registered. unfold TaxiClient_Start in Hreg.
    by rewrite length_fmap, length_seq in Hreg. }
  split; [by unfold RequestRide_check; rewrite Hsh|]. split.
  { rewrite !app_assoc. rewrite <- (app_assoc _ _ (buf _)), Hq, Hall.
    destruct Hcases as [(_ & _ & -> & Hn')|(_ & _ & -> & Hn')];
      rewrite length_fmap, length_seq;
      apply UserClient_request_below; lia. }
  split; [done|]. split.
  { intros request Hreq. cbn. rewrite bool_decide_eq_true_2 by done.
    unfold RequestRide_send, chan_send. rewrite Hcl, Hcap.
    destruct (Nat.ltb_spec (length (buf (rideRequests (shared s)))) 150);
      [|lia].
    by eexists. }
  split.
  { destruct (PInv_run _ _ Hrun) as (_ & _ & Hb).
    pose proof (prun_heap_registered _ _ _ Hrun) as Hlen. cbn in Hlen.
    destruct Hmain as (Hreg & _). apply prefix_length in Hreg.
    rewrite <- length_registered in Hreg. unfold TaxiClient_Start in Hreg.
    rewrite length_fmap, length_seq in Hreg.
    destruct Hb as (Hsize & _); [rewrite Hlen; lia|].
    unfold GetTaxiCount, Count. by rewrite Hsize. }
  eexists _, _. split; [reflexivity|]. cbn.
  unfold Shutdown_close, chan_close. cbn. rewrite Hcl.
  split; [reflexivity|]. done.
Qed.

Lemma main_accepts_every_request_witness :
  main_trace (λ _, mkLocation 3 4) (λ _, mkLocation 0 0)
    (λ _, mkLocation 5 0) main_run
  ∧ prun main_run NewProgram = Some (after main_run)
  ∧ in_hand (scheduler (after main_run))
    = [mkRideRequest 2 (mkLocation 0 0) (mkLocation 5 0)]
  ∧ senders (after main_run)
    = [mkRideRequest 3 (mkLocation 0 0) (mkLocation 5 0)]
  ∧ GetTaxiCount (shared (after main_run)) = length (registered main_run).
Proof.
  assert (Hmain : main_trace (λ _, mkLocation 3 4) (λ _, mkLocation 0 0)
                    (λ _, mkLocation 5 0) main_run).
  { split; [|split].
    - eexists. vm_compute. reflexivity.
    - eexists. vm_compute. reflexivity.
    - repeat constructor. }
  assert (H : prun main_run NewProgram = Some (after main_run))
    by (vm_compute; reflexivity).
  split; [exact Hmain|]. split; [exact H|].
  split; [vm_compute; reflexivity|]. split; [vm_compute; reflexivity|].
  exact (proj1 (proj2 (proj2 (proj2 (proj2 (proj2 (proj2
           (main_accepts_every_request _ _ _ main_run (after main_run)
              Hmain H)))))))).
Defined.

(** ** The atomic steps as runs of critical sections *)

Lemma pstep_ACheck_open s c a b :
  shutdown (shared s) = false →
  pstep (ACheck c a b) s
  = Some (with_senders (senders s ++ [mkRideRequest c a b]) s).
Proof. intros H. cbn. unfold RequestRide_check. by rewrite H. Qed.

Lemma pstep_ASend s (k : nat) request ch :
  senders s !! k = Some request →
  chan_send request (rideRequests (shared s)) = Returns ch →
  pstep (ASend k request) s
  = Some (with_senders (delete k (senders s))
            (with_shared (with_chan ch (shared s)) s)).
Proof.
  intros Hk Hch. cbn. rewrite bool_decide_eq_true_2 by done.
  unfold RequestRide_send. destruct request. cbn in *. by rewrite Hch.
Qed.

Lemma pstep_AClose s (n : nat) ch :
  closers s = S n →
  chan_close (rideRequests (shared s)) = Returns ch →
  pstep AClose s
  = Some (with_closers n (with_shared (with_chan ch (shared s)) s)).
Proof.
  intros Hn Hch. cbn. rewrite Hn. unfold Shutdown_close. by rewrite Hch.
Qed.

Lemma pstep_AReceive s request ch :
  scheduler s = AtReceive →
  chan_recv (rideRequests (shared s)) = Some (request, ch) →
  pstep AReceive s
  = Some (with_scheduler (AtTicker request)
            (with_shared (with_chan ch (shared s)) s)).
Proof. intros Hpc Hch. cbn. by rewrite Hpc, Hch. Qed.

Lemma pstep_ATick s request :
  scheduler s = AtTicker request →
  pstep ATick s
  = Some (with_scheduler (AtAssign (new_ride (nextRideID (shared s)) request))
            (with_shared
               (with_nextRideID (int_add (nextRideID (shared s)) 1) (shared s))
               s)).
Proof. intros Hpc. cbn. by rewrite Hpc. Qed.

Lemma pstep_ASnapshot_empty s order ride :
  scheduler s = AtAssign ride →
  range_order (taxiStore (shared s)) order →
  GetAllAvailable order (taxiStore (shared s)) = [] →
  pstep (ASnapshot order) s = Some (drop_ride ride s).
Proof.
  intros Hpc Ho Hnil. cbn. rewrite Hpc.
  rewrite bool_decide_eq_true_2 by done. by rewrite Hnil.
Qed.

Lemma pstep_ASnapshot s order ride :
  scheduler s = AtAssign ride →
  range_order (taxiStore (shared s)) order →
  GetAllAvailable order (taxiStore (shared s)) ≠ [] →
  pstep (ASnapshot order) s
  = Some (with_scheduler
            (AtSelect ride (GetAllAvailable order (taxiStore (shared s)))) s).
Proof.
  intros Hpc Ho Hne. cbn. rewrite Hpc.
  rewrite bool_decide_eq_true_2 by done.
  by destruct (GetAllAvailable order (taxiStore (shared s))).
Qed.

Lemma pstep_ASelect s ride availableTaxis (p : nat) cd id :
  scheduler s = AtSelect ride availableTaxis →
  closest_loop (heap (taxiStore (shared s))) (Ride_StartLocation ride)
    availableTaxis None (-1) = (Some p, cd) →
  wf_store (taxiStore (shared s)) →
  taxis (taxiStore (shared s)) !! id = Some p →
  pstep ASelect s
  = Some (with_scheduler (AtStartRide (assign_ride id ride) p)
            (with_shared
               (with_store
                  {| heap := alter (set_IsAvailable false) p
                               (heap (taxiStore (shared s)));
                     taxis := taxis (taxiStore (shared s));
                     nextID := nextID (taxiStore (shared s)) |}
                  (shared s)) s)).
Proof.
  intros Hpc Hloop Hwf Hid. cbn. rewrite Hpc, Hloop.
  destruct (wf_store_lookup _ _ _ Hwf Hid) as (_ & _ & ->).
  destruct (SetAvailability_lookup _ id false p Hwf Hid) as [-> _]. done.
Qed.

Lemma pstep_AStartRide s ride (taxi : nat) :
  scheduler s = AtStartRide ride taxi →
  pstep AStartRide s
  = Some (with_scheduler AtReceive
            (with_shared
               (startRide ride taxi
                  (CalculateRideDuration (heap (taxiStore (shared s))) taxi
                     ride) (shared s)) s)).
Proof. intros Hpc. cbn. by rewrite Hpc. Qed.

Lemma pstep_AFinish s (k i p : nat) d :
  pending (shared s) !! k = Some (i, p, d) →
  pstep (AFinish k) s
  = Some (with_enders (enders s ++ [(i, p, false)])
            (with_shared
               (with_pending (delete k (pending (shared s)))
                  (with_rides
                     (alter (set_Status FINISHED) i (rides (shared s)))
                     (shared s))) s)).
Proof. intros Hk. cbn. by rewrite Hk. Qed.

Lemma pstep_ARelocate s (k i p : nat) :
  enders s !! k = Some (i, p, false) →
  pstep (ARelocate k) s
  = Some (with_enders (<[k := (i, p, true)]> (enders s))
            (with_shared
               (with_store
                  (UpdateLocation (Taxi_ID (heap (taxiStore (shared s)) !!! p))
                     (Ride_EndLocation (rides (shared s) !!! i))
                     (taxiStore (shared s))).2 (shared s)) s)).
Proof.
  intros Hk. cbn. rewrite Hk. by destruct (UpdateLocation _ _ _).
Qed.

Lemma pstep_ARelease s (k i p : nat) :
  enders s !! k = Some (i, p, true) →
  pstep (ARelease k) s
  = Some (with_enders (delete k (enders s))
            (with_shared
               (with_store
                  (SetAvailability
                     (Taxi_ID (heap (taxiStore (shared s)) !!! p)) true
                     (taxiStore (shared s))).2 (shared s)) s)).
Proof.
  intros Hk. cbn. rewrite Hk. by destruct (SetAvailability _ _ _).
Qed.

Lemma Taxi_ID_UpdateLocation id l ts (p : nat) :
  Taxi_ID (heap (UpdateLocation id l ts).2 !!! p) = Taxi_ID (heap ts !!! p).
Proof.
  unfold UpdateLocation. destruct (taxis ts !! id); [|done].
  cbn. by apply Taxi_ID_alter.
Qed.

Lemma step_sections e s s' :
  wf_store (taxiStore s) → step e s = Some s' →
  prun (sections e s) (at_rest s) = Some (at_rest s').
Proof.
  intros Hwf H. destruct e as [l|c a b|order|k|].
  - by injection H as <-.
  - cbn in H. unfold RequestRide in H. cbn [sections].
    destruct (shutdown s) eqn:Hsh.
    + injection H as <-. cbn. unfold RequestRide_check. by rewrite Hsh.
    + destruct (chan_send _ _) as [ch| |] eqn:Hch; try done.
      injection H as <-.
      rewrite prun_cons, pstep_ACheck_open by done.
      by rewrite prun_cons, (pstep_ASend _ _ _ ch).
  - cbn in H. case_bool_decide as Ho; [|done].
    destruct (chan_recv (rideRequests s)) as [[request ch]|] eqn:Hrecv;
      [|done]. injection H as <-. cbn [sections].
    destruct (AssignClosestTaxi_cases order (taxiStore s)
                (new_ride (nextRideID s) request) Hwf)
      as [[Hnil Hnone]|(p & id & cd & Hloop & Hin & Hp & Hid & Hav & Hsome)].
    + rewrite Hnil. cbn [length Nat.eqb].
      rewrite prun_cons, (pstep_AReceive _ request ch) by done.
      rewrite prun_cons, (pstep_ATick _ request) by done.
      rewrite prun_cons, (pstep_ASnapshot_empty _ order
        (new_ride (nextRideID s) request)) by done.
      cbn [prun]. f_equal. unfold processRequest.
      change (taxiStore (with_chan ch s)) with (taxiStore s).
      change (nextRideID (with_chan ch s)) with (nextRideID s).
      by rewrite Hnone.
    + assert (Hne : GetAllAvailable order (taxiStore s) ≠ []).
      { intros Hnil. rewrite Hnil in Hin. by apply elem_of_nil in Hin. }
      assert (Hlen : (length (GetAllAvailable order (taxiStore s)) =? 0)%nat
                     = false)
        by (by destruct (GetAllAvailable order (taxiStore s))).
      rewrite Hlen.
      rewrite prun_cons, (pstep_AReceive _ request ch) by done.
      rewrite prun_cons, (pstep_ATick _ request) by done.
      rewrite prun_cons, (pstep_ASnapshot _ order
        (new_ride (nextRideID s) request)) by (done || exact Hne).
      rewrite prun_cons, (pstep_ASelect _ (new_ride (nextRideID s) request)
        (GetAllAvailable order (taxiStore s)) p cd id)
        by (done || exact Hloop).
      rewrite prun_cons, (pstep_AStartRide _
        (assign_ride id (new_ride (nextRideID s) request)) p) by done.
      cbn [prun]. f_equal. unfold processRequest.
      change (taxiStore (with_chan ch s)) with (taxiStore s).
      change (nextRideID (with_chan ch s)) with (nextRideID s).
      by rewrite Hsome.
  - cbn in H. destruct (pending s !! k) as [[[i p] d]|] eqn:Hk; [|done].
    injection H as <-. cbn [sections].
    rewrite prun_cons, (pstep_AFinish _ k i p d) by done.
    rewrite prun_cons, (pstep_ARelocate _ 0 i p) by done.
    rewrite prun_cons, (pstep_ARelease _ 0 i p) by done.
    cbn [prun]. f_equal.
    unfold endRide, at_rest, with_enders, with_shared, with_store,
      with_pending, with_rides.
    cbn [shared taxiStore rides pending enders senders closers scheduler
         rideRequests shutdown nextRideID].
    rewrite Taxi_ID_UpdateLocation.
    destruct (UpdateLocation _ _ _) as [ok1 ts1]. cbn [snd].
    by destruct (SetAvailability _ _ ts1) as [ok2 ts2].
  - cbn in H. unfold Shutdown in H. cbn [sections].
    destruct (chan_close _) as [ch| |] eqn:Hch; try done.
    injection H as <-.
    rewrite prun_cons. cbn [pstep].
    by rewrite prun_cons, (pstep_AClose _ 0 ch).
Qed.

Lemma run_sections evs : ∀ s s',
  Inv s → run evs s = Some s' →
  ∃ acts, prun acts (at_rest s) = Some (at_rest s').
Proof.
  induction evs as [|e evs IH]; intros s s' HInv.
  - intros [= <-]. by exists [].
  - cbn [run]. destruct (step e s) as [s1|] eqn:He; [|done]. intros Hrun.
    destruct (IH _ _ (Inv_step _ _ _ HInv He) Hrun) as [acts Hacts].
    exists (sections e s ++ acts). rewrite prun_app.
    by rewrite (step_sections _ _ _ (proj1 HInv) He).
Qed.

(** X25. The atomic steps are runs of the program: every atomic step taken
    from a reachable state is the sequence of critical sections of that call
    (check and send; receive, tick, snapshot, selection and start; status,
    relocation and release; flag and close), run from the state in which no
    other call is under way, and it ends in such a state.  So every state
    the atomic steps reach is a state the program reaches. *)
Theorem atomic_steps_are_runs_of_sections
    (evs : list event) (s s' : System) (e : event) :
  run evs NewServer = Some s →
  (∃ acts, prun acts NewProgram = Some (at_rest s))
  ∧ (step e s = Some s' →
     prun (sections e s) (at_rest s) = Some (at_rest s')).
Proof.
  intros Hrun. split.
  - exact (run_sections evs NewServer s Inv_NewServer Hrun).
  - apply step_sections.
    exact (proj1 (Inv_run _ _ _ Inv_NewServer Hrun)).
Qed.

Lemma atomic_steps_are_runs_of_sections_witness :
  run [EvRegisterTaxi (mkLocation 0 0);
       EvRequestRide 1 (mkLocation 0 0) (mkLocation 5 0)] NewServer
  = Some (with_chan
            {| buf := [mkRideRequest 1 (mkLocation 0 0) (mkLocation 5 0)];
               cap := 150; closed := false |}
            (RegisterTaxi (mkLocation 0 0) NewServer).2)
  ∧ prun [AReceive; ATick; ASnapshot [1]; ASelect; AStartRide]
      (at_rest
         (with_chan
            {| buf := [mkRideRequest 1 (mkLocation 0 0) (mkLocation 5 0)];
               cap := 150; closed := false |}
            (RegisterTaxi (mkLocation 0 0) NewServer).2))
    = Some (at_rest one_ride_state).
Proof.
  assert (H : run [EvRegisterTaxi (mkLocation 0 0);
                   EvRequestRide 1 (mkLocation 0 0) (mkLocation 5 0)]
                NewServer
              = Some (with_chan
                        {| buf := [mkRideRequest 1 (mkLocation 0 0)
                                     (mkLocation 5 0)];
                           cap := 150; closed := false |}
                        (RegisterTaxi (mkLocation 0 0) NewServer).2))
    by (vm_compute; reflexivity).
  split; [exact H|].
  refine (proj2 (atomic_steps_are_runs_of_sections _ _ one_ride_state
                   (EvProcess [1]) H) _).
  vm_compute. reflexivity.
Defined.

(** ** The reads made without the store's lock *)

Lemma pstep_outside_scheduler a s s' :
  is_scheduler a = false → pstep a s = Some s' →
  scheduler s' = scheduler s.
Proof.
  intros Hq H. destruct a; try discriminate Hq.
  - by injection H as <-.
  - cbn in H. destruct (RequestRide_check (shared s)); by injection H as <-.
  - cbn in H. case_bool_decide; [|done].
    destruct (RequestRide_send _ _ _ _) as [[b sh']| |]; try done.
    by injection H as <-.
  - by injection H as <-.
  - cbn in H. destruct (closers s); [done|].
    destruct (Shutdown_close _); try done. by injection H as <-.
  - cbn in H. destruct (pending (shared s) !! k) as [[[i p] d]|]; [|done].
    by injection H as <-.
  - cbn in H. destruct (enders s !! k) as [[[i p] [|]]|]; try done.
    destruct (UpdateLocation _ _ _). by injection H as <-.
  - cbn in H. destruct (enders s !! k) as [[[i p] [|]]|]; try done.
    destruct (SetAvailability _ _ _). by injection H as <-.
Qed.

Lemma pstep_record_unchanged a s s' (p : nat) :
  PInv s →
  Z.of_nat (length (heap (taxiStore (shared s)))) < 2 ^ 64 →
  is_scheduler a = false → pstep a s = Some s' →
  (∃ id, taxis (taxiStore (shared s)) !! id = Some p) →
  (∀ (k i : nat) b, enders s !! k = Some (i, p, b) → False) →
  heap (taxiStore (shared s')) !!! p = heap (taxiStore (shared s)) !!! p.
Proof.
  intros (Hwf & Hiss & Hb) Hbound Hq H (id & Hid) Hnot.
  destruct Hb as (_ & Hheld & _); [lia|].
  destruct (wf_store_lookup _ _ _ Hwf Hid) as (Hlt & _ & _).
  destruct a; try discriminate Hq.
  - injection H as <-. cbn. by rewrite lookup_total_app_l.
  - cbn in H. destruct (RequestRide_check (shared s)); by injection H as <-.
  - cbn in H. case_bool_decide; [|done]. unfold RequestRide_send in H.
    destruct (chan_send _ _); try done. by injection H as <-.
  - by injection H as <-.
  - cbn in H. destruct (closers s); [done|]. unfold Shutdown_close in H.
    destruct (chan_close _); try done. by injection H as <-.
  - cbn in H. destruct (pending (shared s) !! k) as [[[i q] d]|]; [|done].
    by injection H as <-.
  - cbn in H. destruct (enders s !! k) as [[[i q] [|]]|] eqn:Hk; try done.
    assert (Hqin : q ∈ holders s).
    { unfold holders. rewrite !elem_of_app. right; right.
      apply list_elem_of_fmap. exists (i, q, false). split; [done|].
      by eapply list_elem_of_lookup_2. }
    destruct (held_registered _ _ _ Hwf Hheld Hqin) as (Hidq & _ & _).
    destruct (UpdateLocation_lookup _ _
                (Ride_EndLocation (rides (shared s) !!! i)) q Hwf Hidq)
      as [HUpd _].
    rewrite HUpd in H. injection H as <-. cbn.
    apply list_lookup_total_alter_ne. intros ->. eauto.
  - cbn in H. destruct (enders s !! k) as [[[i q] [|]]|] eqn:Hk; try done.
    assert (Hqin : q ∈ holders s).
    { unfold holders. rewrite !elem_of_app. right; right.
      apply list_elem_of_fmap. exists (i, q, true). split; [done|].
      by eapply list_elem_of_lookup_2. }
    destruct (held_registered _ _ _ Hwf Hheld Hqin) as (Hidq & _ & _).
    destruct (SetAvailability_lookup _ _ true q Hwf Hidq) as [HSet _].
    rewrite HSet in H. injection H as <-. cbn.
    apply list_lookup_total_alter_ne. intros ->. eauto.
Qed.

(** X26. The vehicle records that the scheduler reads without holding the
    store's lock are not written meanwhile.  While fewer than 2^64 vehicles
    have been registered: between [GetAllAvailable] and [SetAvailability]
    in [AssignClosestTaxi], no critical section of another goroutine
    changes a record of the snapshot, so the scan sees the locations as
    they were when the snapshot was taken; and between [SetAvailability]
    and the start of the ride's goroutine none changes the record of the
    reserved vehicle, which [CalculateRideDuration] reads. *)
Theorem unlocked_reads_are_stable
    (acts : list action) (s s' : Program) (a : action) :
  prun acts NewProgram = Some s →
  Z.of_nat (length (registered acts)) < 2 ^ 64 →
  is_scheduler a = false → pstep a s = Some s' →
  scheduler s' = scheduler s
  ∧ (∀ ride availableTaxis (p : nat),
       scheduler s = AtSelect ride availableTaxis → p ∈ availableTaxis →
       heap (taxiStore (shared s')) !!! p = heap (taxiStore (shared s)) !!! p)
  ∧ (∀ ride (taxi : nat),
       scheduler s = AtStartRide ride taxi →
       heap (taxiStore (shared s')) !!! taxi
       = heap (taxiStore (shared s)) !!! taxi).
Proof.
  intros Hrun Hreg Hq H.
  pose proof (PInv_run _ _ Hrun) as HInv.
  pose proof (prun_heap_registered _ _ _ Hrun) as Hlen. cbn in Hlen.
  assert (Hbound : Z.of_nat (length (heap (taxiStore (shared s)))) < 2 ^ 64)
    by (rewrite Hlen; lia).
  destruct HInv as (Hwf & Hiss & Hb).
  destruct Hb as (Hsize & Hheld & Hsnap); [lia|].
  assert (HInv : PInv s) by (split; [done|]; split; [done|]; by intros _).
  split; [by eapply pstep_outside_scheduler|]. split.
  - intros ride snap p Hpc Hp.
    destruct (Hsnap _ _ Hpc) as [_ Hall].
    destruct (Hall p Hp) as (id & Hid & Hf).
    apply (pstep_record_unchanged a s s' p HInv Hbound Hq H); [eauto|].
    intros k i b Hk.
    assert (Hin : p ∈ holders s).
    { unfold holders. rewrite !elem_of_app. right; right.
      apply list_elem_of_fmap. exists (i, p, b). split; [done|].
      by eapply list_elem_of_lookup_2. }
    destruct (held_registered _ _ _ Hwf Hheld Hin) as (_ & _ & Hf').
    congruence.
  - intros ride taxi Hpc.
    assert (Hin : taxi ∈ holders s).
    { unfold holders. rewrite Hpc. cbn. apply list_elem_of_here. }
    destruct (held_registered _ _ _ Hwf Hheld Hin) as (Hid & _ & _).
    apply (pstep_record_unchanged a s s' taxi HInv Hbound Hq H); [eauto|].
    intros k i b Hk. destruct Hheld as [Hnd _].
    unfold holders in Hnd. rewrite Hpc in Hnd. cbn in Hnd.
    apply NoDup_cons in Hnd as [Hnotin _]. apply Hnotin.
    rewrite elem_of_app. right.
    apply list_elem_of_fmap. exists (i, taxi, b). split; [done|].
    by eapply list_elem_of_lookup_2.
Qed.

Lemma unlocked_reads_are_stable_witness :
  prun busy_run NewProgram = Some (after busy_run)
  ∧ scheduler (after busy_run)
    = AtStartRide
        (mkRide 2 3 2 (mkLocation 8 8) (mkLocation 2 2) ASSIGNED) 1%nat
  ∧ ∃ s', pstep (ARelease 0) (after busy_run) = Some s'
      ∧ heap (taxiStore (shared s')) !!! 1%nat
        = heap (taxiStore (shared (after busy_run))) !!! 1%nat.
Proof.
  assert (H : prun busy_run NewProgram = Some (after busy_run))
    by (vm_compute; reflexivity).
  assert (Hreg : Z.of_nat (length (registered busy_run)) < 2 ^ 64)
    by (vm_compute; reflexivity).
  assert (Hpc : scheduler (after busy_run)
                = AtStartRide
                    (mkRide 2 3 2 (mkLocation 8 8) (mkLocation 2 2) ASSIGNED)
                    1%nat) by (vm_compute; reflexivity).
  split; [exact H|]. split; [exact Hpc|].
  eexists. split; [vm_compute; reflexivity|].
  refine (proj2 (proj2 (unlocked_reads_are_stable busy_run (after busy_run)
                          _ (ARelease 0) H Hreg eq_refl _)) _ _ Hpc).
  vm_compute. reflexivity.
Defined.
